(** * CloudImgs catalog recovery: a shallow embedding of
    [scripts/recover_from_uploads.py] and the properties of its
    reconciliation engine.

    Conventions of the embedding.
    - A Python [str] is a [string]; one [ascii] is one code point, so the
      model covers the strings whose code points are below 256.  On that
      range the character classes used below ([\d], [\w], [str.strip],
      [str.lower]) are written out exactly as CPython computes them.
    - [pathlib.Path] is the POSIX flavour.
    - A [dict] is a [gmap], a [set] is a [gset].
    - Mutation of the shared [RecoveryContext] is explicit state passing;
      exceptions and the unbounded [while True] loop are results of type
      [outcome]. *)

From Stdlib Require Import ZArith NArith Ascii String List Bool Lia.
From stdpp Require Import base option gmap strings list pretty.

Open Scope string_scope.
Set Warnings "-register-all".
Set Default Proof Using "Type".

(** ** Python string primitives *)

Module Py.

(** [s.split(sep)] for a one-character separator. *)
Fixpoint split (sep : ascii) (s : string) : list string :=
  match s with
  | EmptyString => [""]
  | String c s' =>
      if Ascii.eqb c sep then "" :: split sep s'
      else match split sep s' with
           | w :: ws => String c w :: ws
           | [] => [String c ""]
           end
  end.

(** [sep.join(l)]. *)
Fixpoint join (sep : string) (l : list string) : string :=
  match l with
  | [] => ""
  | [x] => x
  | x :: xs => x +:+ sep +:+ join sep xs
  end.

(** [s.lstrip(chars)], [s.rstrip(chars)] and [s.strip(chars)]; the set of
    characters is given by its membership test. *)
Fixpoint lstrip (p : ascii -> bool) (s : string) : string :=
  match s with
  | EmptyString => ""
  | String c s' => if p c then lstrip p s' else s
  end.

Fixpoint rstrip (p : ascii -> bool) (s : string) : string :=
  match s with
  | EmptyString => ""
  | String c s' =>
      let r := rstrip p s' in
      if String.eqb r "" && p c then "" else String c r
  end.

Definition strip (p : ascii -> bool) (s : string) : string :=
  rstrip p (lstrip p s).

Definition is_slash (c : ascii) : bool := Ascii.eqb c "/".

(** [s.replace(a, b)] for one-character [a] and [b]. *)
Fixpoint replace (a b : ascii) (s : string) : string :=
  match s with
  | EmptyString => ""
  | String c s' => String (if Ascii.eqb c a then b else c) (replace a b s')
  end.

(** [s.startswith(p)]. *)
Definition startswith (s p : string) : bool := String.prefix p s.

(** Number of leading characters of [s] that satisfy [p]. *)
Fixpoint count_leading (p : ascii -> bool) (s : string) : nat :=
  match s with
  | String c s' => if p c then S (count_leading p s') else 0
  | EmptyString => 0
  end.

(** The part of [s] that starts at the last occurrence of [c]
    ([s[s.rfind(c):]] when [c] occurs). *)
Fixpoint from_last (c : ascii) (s : string) : option string :=
  match s with
  | EmptyString => None
  | String a s' =>
      match from_last c s' with
      | Some r => Some r
      | None => if Ascii.eqb a c then Some s else None
      end
  end.

(** Truthiness of a [str]. *)
Definition truthy (s : string) : bool := negb (String.eqb s "").

(** Character classes on code points below 256. *)
Definition code (c : ascii) : N := N_of_ascii c.

Definition in_range (lo hi : N) (c : ascii) : bool :=
  (lo <=? code c)%N && (code c <=? hi)%N.

(** [\d] of [re] on [str]: the decimal digits (category Nd). *)
Definition is_decimal (c : ascii) : bool := in_range 48 57 c.

(** [str.isspace]: TAB..CR, FS..US, SPACE, NEL, NBSP. *)
Definition is_space (c : ascii) : bool :=
  in_range 9 13 c || in_range 28 32 c
  || (code c =? 133)%N || (code c =? 160)%N.

(** [\w] of [re] on [str]: alphanumeric ([str.isalnum]) or underscore. *)
Definition is_word (c : ascii) : bool :=
  in_range 48 57 c || in_range 65 90 c || in_range 97 122 c
  || (code c =? 95)%N
  || (code c =? 170)%N || (code c =? 178)%N || (code c =? 179)%N
  || (code c =? 181)%N || (code c =? 185)%N || (code c =? 186)%N
  || in_range 188 190 c
  || in_range 192 214 c || in_range 216 246 c || in_range 248 255 c.

(** [str.lower] on one code point. *)
Definition lower_char (c : ascii) : ascii :=
  if in_range 65 90 c || in_range 192 214 c || in_range 216 222 c
  then ascii_of_N (code c + 32) else c.

Fixpoint lower (s : string) : string :=
  match s with
  | EmptyString => ""
  | String c s' => String (lower_char c) (lower s')
  end.

(** [all(p(c) for c in s)]. *)
Fixpoint all_chars (p : ascii -> bool) (s : string) : bool :=
  match s with
  | EmptyString => true
  | String c s' => p c && all_chars p s'
  end.

End Py.

(** ** pathlib, POSIX flavour *)

Module PurePath.

(** A parsed path: the root (empty, one slash, or exactly two slashes) and
    the components after it. *)
Record t := Build { root : string; parts : list string }.

Definition is_component (x : string) : bool :=
  negb (String.eqb x "") && negb (String.eqb x ".").

(** [PurePosixPath(s)]: empty and [.] components are dropped; exactly two
    leading slashes are kept as a root of their own. *)
Definition parse (s : string) : t :=
  let n := Py.count_leading Py.is_slash s in
  {| root := match n with 0 => "" | 2 => "//" | _ => "/" end;
     parts := List.filter is_component (Py.split "/" s) |}.

(** [str(p)]. *)
Definition to_string (p : t) : string :=
  match root p, parts p with
  | EmptyString, [] => "."
  | r, ps => r +:+ Py.join "/" ps
  end.

(** [p.parent]: the last component dropped; a path with no component is
    its own parent. *)
Definition parent (p : t) : t :=
  {| root := root p; parts := removelast (parts p) |}.

(** [p.name]. *)
Definition name (p : t) : string := List.last (parts p) "".

(** [p.suffix]: the part of the name from its last dot, when that dot is
    neither the first nor the last character. *)
Definition suffix (p : t) : string :=
  let nm := name p in
  match Py.from_last "." nm with
  | Some r =>
      if (String.length r <? String.length nm)%nat
         && (1 <? String.length r)%nat
      then r else ""
  | None => ""
  end.

(** [p / name] for a single component. *)
Definition child (p : t) (nm : string) : t :=
  {| root := root p; parts := parts p ++ [nm] |}.

(** [p / s] for an arbitrary string: an absolute [s] replaces [p]. *)
Definition joinpath (p : t) (s : string) : t :=
  let q := parse s in
  if Py.truthy (root q) then q
  else {| root := root p; parts := parts p ++ parts q |}.

Fixpoint strip_prefix (base l : list string) : option (list string) :=
  match base, l with
  | [], _ => Some l
  | b :: base', x :: l' => if String.eqb b x then strip_prefix base' l' else None
  | _ :: _, [] => None
  end.

(** [p.relative_to(base)]: [None] stands for the [ValueError]. *)
Definition relative_to (p base : t) : option t :=
  if String.eqb (root p) (root base) then
    match strip_prefix (parts base) (parts p) with
    | Some rest => Some {| root := ""; parts := rest |}
    | None => None
    end
  else None.

(** [..] resolution over a component list ([stack] is reversed). *)
Fixpoint collapse (stack : list string) (l : list string) : list string :=
  match l with
  | [] => rev stack
  | x :: l' =>
      if String.eqb x ".." then collapse (tl stack) l'
      else collapse (x :: stack) l'
  end.

(** [p.resolve()] on a file system without symbolic links: made absolute
    against the working directory, then [..] resolved lexically. *)
Definition resolve (cwd : t) (p : t) : t :=
  let a := if Py.truthy (root p) then p
           else {| root := root cwd; parts := parts cwd ++ parts p |} in
  {| root := root a; parts := collapse [] (parts a) |}.

End PurePath.

(** ** Path classifier *)

(** [re.fullmatch(r"\d{4}", s)] and [re.fullmatch(r"\d{1,2}", s)]. *)
Definition fullmatch_d4 (s : string) : bool :=
  (String.length s =? 4)%nat && Py.all_chars Py.is_decimal s.

Definition fullmatch_d1_2 (s : string) : bool :=
  ((String.length s =? 1)%nat || (String.length s =? 2)%nat)
  && Py.all_chars Py.is_decimal s.

Definition looks_like_sharded_upload (relative_key : string) : bool :=
  let parts := Py.split "/" relative_key in
  if (length parts <? 3)%nat then false
  else if negb (fullmatch_d4 (nth 0 parts "")) then false
  else if negb (fullmatch_d1_2 (nth 1 parts "")) then false
  else true.

Inductive exn := ValueError | OSError | IntegrityError.

(** The result of running a piece of the script: it returns, raises, or
    loops beyond the fuel it was given. *)
Inductive outcome (A : Type) :=
| Done (a : A)
| Raised (e : exn)
| Diverged.
Arguments Done {A} a.
Arguments Raised {A} e.
Arguments Diverged {A}.

#[global] Instance outcome_ret : MRet outcome := fun A a => Done a.
#[global] Instance outcome_bind : MBind outcome := fun A B k m =>
  match m with
  | Done a => k a
  | Raised e => Raised e
  | Diverged => Diverged
  end.

(** [str(Path(rel_key).parent).replace("\\", "/")]. *)
Definition parent_dir (rel_key : string) : string :=
  Py.replace "\" "/"
    (PurePath.to_string (PurePath.parent (PurePath.parse rel_key))).

Definition decide_album_path (rel_key mode : string) : outcome (option string) :=
  let parent := parent_dir rel_key in
  if String.eqb parent "." then Done None
  else if String.eqb mode "none" then Done None
  else if String.eqb mode "by-dir" then
    Done (Some ("/" +:+ Py.strip Py.is_slash parent))
  else if String.eqb mode "auto" then
    if looks_like_sharded_upload rel_key then Done None
    else Done (Some ("/" +:+ Py.strip Py.is_slash parent))
  else Raised ValueError.

(** ** The classifier as the specification words it *)

Definition ascii_digit (c : ascii) : Prop :=
  In c ["0"; "1"; "2"; "3"; "4"; "5"; "6"; "7"; "8"; "9"]%char.

(** A token of exactly [n] decimal digits. *)
Definition digit_token (n : nat) (s : string) : Prop :=
  String.length s = n /\ Forall ascii_digit (list_ascii_of_string s).

(** At least three [/]-separated segments, the first a 4-digit token and
    the second a 1-2-digit token. *)
Definition looksOpaque (relativeKey : string) : Prop :=
  exists a b c rest,
    Py.split "/" relativeKey = a :: b :: c :: rest
    /\ digit_token 4 a /\ (digit_token 1 b \/ digit_token 2 b).

(** Attachment by the immediate parent directory. *)
Definition attach_by_dir (relativeKey : string) : option string :=
  let parent := parent_dir relativeKey in
  if String.eqb parent "." then None
  else Some ("/" +:+ Py.strip Py.is_slash parent).

(** A proper path component: not empty, not [.], free of both slashes. *)
Definition proper_component (x : string) : Prop :=
  x <> "" /\ x <> "."
  /\ Forall (fun c => c <> "/"%char /\ c <> "\"%char) (list_ascii_of_string x).

(** ** Slug allocator *)

Definition is_dash_or_underscore (c : ascii) : bool :=
  Ascii.eqb c "-" || Ascii.eqb c "_".

(** [re.sub(r"[^\w\u4e00-\u9fff]+", "-", s)]: every maximal run of
    characters outside the class becomes one hyphen ([in_run] tells that the
    previous character already belonged to such a run).  The range
    [\u4e00-\u9fff] lies beyond the modelled code points. *)
Fixpoint sub_nonword (in_run : bool) (s : string) : string :=
  match s with
  | EmptyString => ""
  | String c s' =>
      if Py.is_word c then String c (sub_nonword false s')
      else if in_run then sub_nonword true s'
      else String "-" (sub_nonword true s')
  end.

Definition slugify (text : string) : string :=
  let lowered := Py.lower (Py.strip Py.is_space text) in
  let lowered := sub_nonword false lowered in
  let lowered := Py.strip is_dash_or_underscore lowered in
  if Py.truthy lowered then lowered else "album".

(** [hashlib.sha1]: FIPS 180-4 over a list of bytes, 32-bit words as [N]. *)
Module Sha1.

Definition mask32 (x : N) : N := N.land x 4294967295.
Definition add32 (x y : N) : N := mask32 (x + y).
Definition not32 (x : N) : N := N.lxor x 4294967295.
Definition rotl (n x : N) : N :=
  mask32 (N.lor (N.shiftl x n) (N.shiftr x (32 - n))).

(** The 64-bit big-endian encoding of [n]. *)
Definition be64 (n : N) : list N :=
  List.map (fun i => N.land (N.shiftr n (8 * i)) 255) [7; 6; 5; 4; 3; 2; 1; 0]%N.

Definition pad (msg : list N) : list N :=
  let len := length msg in
  let zeros := ((119 - len mod 64) mod 64)%nat in
  msg ++ [128%N] ++ List.repeat 0%N zeros ++ be64 (8 * N.of_nat len).

(** Big-endian 32-bit words of a byte list. *)
Fixpoint words (fuel : nat) (bs : list N) : list N :=
  match fuel, bs with
  | S fuel', b0 :: b1 :: b2 :: b3 :: rest =>
      (N.shiftl b0 24 + N.shiftl b1 16 + N.shiftl b2 8 + b3)%N :: words fuel' rest
  | _, _ => []
  end.

Definition f (t : nat) (b c d : N) : N :=
  if (t <? 20)%nat then N.lor (N.land b c) (N.land (not32 b) d)
  else if (t <? 40)%nat then N.lxor (N.lxor b c) d
  else if (t <? 60)%nat then
    N.lor (N.lor (N.land b c) (N.land b d)) (N.land c d)
  else N.lxor (N.lxor b c) d.

Definition k (t : nat) : N :=
  if (t <? 20)%nat then 1518500249
  else if (t <? 40)%nat then 1859775393
  else if (t <? 60)%nat then 2400959708
  else 3395469782.

Definition state : Type := N * N * N * N * N.

(** [n] rounds from round [t]; [w] is the window W[t..t+15] of the message
    schedule. *)
Fixpoint rounds (n t : nat) (w : list N) (st : state) : state :=
  match n with
  | 0 => st
  | S n' =>
      let '(a, b, c, d, e) := st in
      let wt := nth 0 w 0%N in
      let next :=
        rotl 1 (N.lxor (N.lxor (N.lxor (nth 13 w 0%N) (nth 8 w 0%N))
                               (nth 2 w 0%N)) wt) in
      let temp := add32 (add32 (add32 (add32 (rotl 5 a) (f t b c d)) e) (k t)) wt in
      rounds n' (S t) (tl w ++ [next]) (temp, a, rotl 30 b, c, d)
  end.

Definition block (st : state) (w : list N) : state :=
  let '(a, b, c, d, e) := st in
  let '(a', b', c', d', e') := rounds 80 0 w st in
  (add32 a a', add32 b b', add32 c c', add32 d d', add32 e e').

Fixpoint blocks (fuel : nat) (st : state) (ws : list N) : state :=
  match fuel, ws with
  | S fuel', _ :: _ => blocks fuel' (block st (firstn 16 ws)) (skipn 16 ws)
  | _, _ => st
  end.

Definition init : state :=
  (1732584193, 4023233417, 2562383102, 271733878, 3285377520)%N.

Definition digest (msg : list N) : state :=
  let bs := pad msg in
  let ws := words (length bs) bs in
  blocks (length ws) init ws.

Definition hex_digit (n : N) : ascii :=
  ascii_of_N (if (n <? 10)%N then 48 + n else 87 + n).

(** Eight lowercase hexadecimal digits of a 32-bit word. *)
Definition hex32 (x : N) : string :=
  string_of_list_ascii
    (List.map (fun i => hex_digit (N.land (N.shiftr x (4 * i)) 15))
              [7; 6; 5; 4; 3; 2; 1; 0]%N).

Definition hexdigest (msg : list N) : string :=
  let '(a, b, c, d, e) := digest msg in
  hex32 a +:+ hex32 b +:+ hex32 c +:+ hex32 d +:+ hex32 e.

End Sha1.

(** [s.encode("utf-8")] for code points below 256. *)
Fixpoint encode_utf8 (s : string) : list N :=
  match s with
  | EmptyString => []
  | String c s' =>
      let n := Py.code c in
      (if (n <? 128)%N then [n]
       else [N.lor 192 (N.shiftr n 6); N.lor 128 (N.land n 63)])
      ++ encode_utf8 s'
  end.

(** [hashlib.sha1(album_path.encode("utf-8")).hexdigest()[:6]]. *)
Definition path_digest (album_path : string) : string :=
  substring 0 6 (Sha1.hexdigest (encode_utf8 album_path)).

(** ** The persisted store *)

Record album_row := AlbumRow {
  a_id : string;
  a_name : string;
  a_slug : string;
  a_parent_id : option string;
  a_password : option string;
  a_is_public : Z;
  a_cover_file_id : option string;
  a_path : string;
  a_created_at : string;
  a_updated_at : string
}.

Record file_row := FileRow {
  f_id : string;
  f_key : string;
  f_original_name : string;
  f_size : Z;
  f_mime_type : string;
  f_width : option Z;
  f_height : option Z;
  f_thumbhash : option string;
  f_tags : option string;
  f_caption : option string;
  f_semantic_description : option string;
  f_aliases : option string;
  f_annotation_updated_at : option string;
  f_exif_data : option string;
  f_album_id : option string;
  f_created_at : string;
  f_updated_at : string
}.

(** The two tables the script reads and writes, rows in insertion order. *)
Record Conn := MkConn { albums : list album_row; files : list file_row }.

(** [SELECT 1 FROM albums WHERE slug = ? LIMIT 1]. *)
Definition slug_exists (conn : Conn) (slug : string) : bool :=
  existsb (fun r => String.eqb (a_slug r) slug) (albums conn).

(** [INSERT INTO albums]: refused ([None], an [IntegrityError]) by the
    primary key on [id] and by the unique index on [slug]. *)
Definition insert_album (conn : Conn) (r : album_row) : option Conn :=
  if existsb (fun x => String.eqb (a_id x) (a_id r)) (albums conn)
     || slug_exists conn (a_slug r)
  then None
  else Some {| albums := albums conn ++ [r]; files := files conn |}.

(** [INSERT INTO files]: refused by the primary key on [id] and by the
    unique index on [key]. *)
Definition insert_file (conn : Conn) (r : file_row) : option Conn :=
  if existsb (fun x => String.eqb (f_id x) (f_id r)) (files conn)
     || existsb (fun x => String.eqb (f_key x) (f_key r)) (files conn)
  then None
  else Some {| albums := albums conn; files := files conn ++ [r] |}.

(** The row written by the [UPDATE files SET ... WHERE id = ?] of the
    repair. *)
Definition repaired_row (album_id : option string) (original_name : string)
    (size : Z) (mime_type updated_at : string) (r : file_row) : file_row :=
  {| f_id := f_id r; f_key := f_key r;
     f_original_name := original_name; f_size := size;
     f_mime_type := mime_type;
     f_width := f_width r; f_height := f_height r;
     f_thumbhash := f_thumbhash r; f_tags := f_tags r;
     f_caption := f_caption r;
     f_semantic_description := f_semantic_description r;
     f_aliases := f_aliases r;
     f_annotation_updated_at := f_annotation_updated_at r;
     f_exif_data := f_exif_data r;
     f_album_id := album_id;
     f_created_at := f_created_at r; f_updated_at := updated_at |}.

Definition update_file (conn : Conn) (id : string) (album_id : option string)
    (original_name : string) (size : Z) (mime_type updated_at : string) : Conn :=
  {| albums := albums conn;
     files := List.map (fun r =>
                if String.eqb (f_id r) id
                then repaired_row album_id original_name size mime_type updated_at r
                else r) (files conn) |}.

(** [f"{base_slug}-{counter}"]. *)
Definition numbered (base_slug : string) (counter : N) : string :=
  base_slug +:+ "-" +:+ pretty counter.

(** The [while True] loop of [ensure_unique_slug]; one unit of fuel is one
    iteration. *)
Fixpoint probe (fuel : nat) (conn : Conn) (base_slug candidate : string)
    (counter : N) (slug_cache : gset string) : outcome (string * gset string) :=
  match fuel with
  | 0 => Diverged
  | S fuel' =>
      let exists_ := slug_exists conn candidate in
      if negb exists_ && negb (bool_decide (candidate ∈ slug_cache))
      then Done (candidate, {[candidate]} ∪ slug_cache)
      else
        let counter := (counter + 1)%N in
        probe fuel' conn base_slug (numbered base_slug counter) counter slug_cache
  end.

(** The candidate the loop starts from. *)
Definition first_candidate (base_slug album_path : string)
    (slug_cache : gset string) : string :=
  if bool_decide (base_slug ∈ slug_cache)
  then base_slug +:+ "-" +:+ path_digest album_path
  else base_slug.

Definition ensure_unique_slug_fuel (fuel : nat) (conn : Conn)
    (base_slug album_path : string) (slug_cache : gset string)
  : outcome (string * gset string) :=
  probe fuel conn base_slug (first_candidate base_slug album_path slug_cache)
        1 slug_cache.

(** The slugs that are taken: persisted or allocated in this run. *)
Definition occupied (conn : Conn) (slug_cache : gset string) : gset string :=
  slug_cache ∪ list_to_set (List.map a_slug (albums conn)).

(** [ensure_unique_slug], run with one more iteration than there are
    occupied slugs; [ensure_unique_slug_total] shows that more fuel never
    changes the result. *)
Definition ensure_unique_slug (conn : Conn) (base_slug album_path : string)
    (slug_cache : gset string) : outcome (string * gset string) :=
  ensure_unique_slug_fuel (S (size (occupied conn slug_cache)))
    conn base_slug album_path slug_cache.

(** ** File system *)

(** A directory tree.  [st_size] is what [stat()] reports for the entry,
    or [None] when [stat()] raises [OSError] (a dangling symbolic link). *)
Inductive fsnode :=
| FsFile (name : string) (st_size : option Z)
| FsDir (name : string) (entries : list fsnode).

Definition node_name (n : fsnode) : string :=
  match n with FsFile nm _ => nm | FsDir nm _ => nm end.

Fixpoint find_entry (nm : string) (entries : list fsnode) : option fsnode :=
  match entries with
  | [] => None
  | n :: rest => if String.eqb (node_name n) nm then Some n else find_entry nm rest
  end.

(** The node that a list of components leads to from [n]. *)
Fixpoint lookup_node (n : fsnode) (path : list string) : option fsnode :=
  match path with
  | [] => Some n
  | x :: path' =>
      match n with
      | FsDir _ entries =>
          match find_entry x entries with
          | Some m => lookup_node m path'
          | None => None
          end
      | FsFile _ _ => None
      end
  end.

(** The process's view of the file system: the components of the working
    directory (an absolute path) and the tree below the root directory. *)
Record FileSystem := MkFs { cwd : list string; tree : fsnode }.

Definition getcwd (fs : FileSystem) : PurePath.t := PurePath.Build "/" (cwd fs).

(** [p.exists() and p.is_dir()]. *)
Definition is_dir (fs : FileSystem) (p : PurePath.t) : bool :=
  match lookup_node (tree fs) (PurePath.parts p) with
  | Some (FsDir _ _) => true
  | _ => false
  end.

(** [int(p.stat().st_size)]; [None] is the [OSError]. *)
Definition stat_size (fs : FileSystem) (p : PurePath.t) : option Z :=
  match lookup_node (tree fs) (PurePath.parts p) with
  | Some (FsFile _ sz) => sz
  | Some (FsDir _ _) => Some 4096%Z
  | None => None
  end.

Definition ALLOWED_EXTENSIONS : list string :=
  [".jpg"; ".jpeg"; ".png"; ".gif"; ".webp"; ".avif"; ".bmp"; ".svg"].

Definition IGNORED_DIR_NAMES : list string :=
  [".cache"; ".trash"; "config"; "logs"].

Definition mem (x : string) (l : list string) : bool :=
  existsb (String.eqb x) l.

Definition keep_dir (include_hidden : bool) (d : string) : bool :=
  if mem d IGNORED_DIR_NAMES then false
  else if negb include_hidden && Py.startswith d "." then false
  else true.

Definition keep_file (include_hidden : bool) (filename : string) : bool :=
  negb (negb include_hidden && Py.startswith filename ".").

(** The file names of a directory listing, kept ones only. *)
Definition files_here (include_hidden : bool) (root_path : PurePath.t)
    (entries : list fsnode) : list PurePath.t :=
  flat_map (fun n =>
    match n with
    | FsFile nm _ =>
        if keep_file include_hidden nm then [PurePath.child root_path nm] else []
    | FsDir _ _ => []
    end) entries.

(** [iter_files] below the directory [n] located at [root_path]:
    [os.walk] top-down, the files of a directory before its kept
    sub-directories. *)
Fixpoint iter_files_node (include_hidden : bool) (root_path : PurePath.t)
    (n : fsnode) {struct n} : list PurePath.t :=
  match n with
  | FsFile _ _ => []
  | FsDir _ entries =>
      files_here include_hidden root_path entries
      ++ flat_map (fun d =>
           match d with
           | FsDir dn _ =>
               if keep_dir include_hidden dn
               then iter_files_node include_hidden (PurePath.child root_path dn) d
               else []
           | FsFile _ _ => []
           end) entries
  end.

Definition iter_files (fs : FileSystem) (base : PurePath.t)
    (include_hidden : bool) : list PurePath.t :=
  match lookup_node (tree fs) (PurePath.parts base) with
  | Some n => iter_files_node include_hidden base n
  | None => []
  end.

(** [normalize_rel_key]: [path.relative_to(base).as_posix()]. *)
Definition normalize_rel_key (path base : PurePath.t) : outcome string :=
  match PurePath.relative_to path base with
  | Some r => Done (PurePath.to_string r)
  | None => Raised ValueError
  end.

(** ** Run-scoped state *)

(** [RecoveryContext].  The two last fields are not in the dataclass: they
    count the calls to [uuid.uuid4] and to [now_iso] made so far, which
    index the values those calls return. *)
Record RecoveryContext := MkCtx {
  conn : Conn;
  dry_run : bool;
  public_albums : bool;
  album_cache : gmap string string;
  slug_cache : gset string;
  album_ids : gset string;
  created_albums : nat;
  uuid_draws : nat;
  clock_reads : nat
}.

Module ExistingFileRow.
Record t := Build {
  id : string;
  album_id : option string;
  original_name : string;
  size : Z;
  mime_type : string
}.
End ExistingFileRow.

Module Args.
Record t := Build {
  uploads : string;
  db : string;
  subdir : string;
  album_mode : string;
  public_albums : bool;
  include_hidden : bool;
  repair_existing : bool;
  dry_run : bool
}.
End Args.

(** The local variables of [recover] that the walk mutates. *)
Record WalkState := MkWalk {
  ctx : RecoveryContext;
  existing_keys : gset string;
  scanned : nat;
  skipped_non_image : nat;
  skipped_existing : nat;
  repaired_existing : nat;
  inserted_files : nat;
  failed_files : nat
}.

(** The counts of the run summary, in the order they are logged. *)
Record Summary := MkSummary {
  sum_scanned : nat;
  sum_inserted : nat;
  sum_repaired : nat;
  sum_created_albums : nat;
  sum_skipped_non_image : nat;
  sum_skipped_existing : nat;
  sum_failed : nat
}.

(** What a run does to the connection besides reading and writing rows. *)
Inductive event := EvConnect | EvBegin | EvCommit | EvRollback | EvClose.

Record RunResult := MkRun {
  exit_status : Z;
  events : list event;
  store : Conn;
  summary : option Summary;
  final : option WalkState
}.
(* [final] is the state the walk ended in, when it ended; the script
   discards it, the statements about the caches read it. *)

(** ** Catalog snapshot loader *)

Definition load_album (acc : gmap string string * gset string * gset string)
    (row : album_row) : gmap string string * gset string * gset string :=
  let '(album_cache, slug_cache, album_ids) := acc in
  ((if Py.truthy (a_path row) then <[a_path row := a_id row]> album_cache
    else album_cache),
   (if Py.truthy (a_slug row) then {[a_slug row]} ∪ slug_cache else slug_cache),
   (if Py.truthy (a_id row) then {[a_id row]} ∪ album_ids else album_ids)).

Definition snapshot_of (row : file_row) : ExistingFileRow.t :=
  ExistingFileRow.Build
    (f_id row)
    (match f_album_id row with
     | Some a => if Py.truthy a then Some a else None
     | None => None
     end)
    (f_original_name row)
    (f_size row)
    (f_mime_type row).

Definition load_file (acc : gset string * gmap string ExistingFileRow.t)
    (row : file_row) : gset string * gmap string ExistingFileRow.t :=
  let '(existing_keys, existing_files) := acc in
  ({[f_key row]} ∪ existing_keys, <[f_key row := snapshot_of row]> existing_files).

Definition load_existing_state (conn : Conn)
  : gmap string string * gset string * gset string
    * gmap string ExistingFileRow.t * gset string :=
  let '(album_cache, slug_cache, album_ids) :=
    fold_left load_album (albums conn) (∅, ∅, ∅) in
  let '(existing_keys, existing_files) :=
    fold_left load_file (files conn) (∅, ∅) in
  (album_cache, slug_cache, existing_keys, existing_files, album_ids).

(** ** The reconciliation engine *)

Section Engine.

(** What the script obtains from outside the repository: the [n]-th value
    returned by [str(uuid.uuid4())], the [n]-th value returned by
    [now_iso()], and the type component of [mimetypes.guess_type]. *)
Variable uuid4_at : nat -> string.
Variable now_at : nat -> string.
Variable guess_type : string -> option string.

Definition with_slug_cache (c : RecoveryContext) (sc : gset string) : RecoveryContext :=
  MkCtx (conn c) (dry_run c) (public_albums c) (album_cache c) sc
        (album_ids c) (created_albums c) (uuid_draws c) (clock_reads c).

Definition with_conn (c : RecoveryContext) (cn : Conn) : RecoveryContext :=
  MkCtx cn (dry_run c) (public_albums c) (album_cache c) (slug_cache c)
        (album_ids c) (created_albums c) (uuid_draws c) (clock_reads c).

Definition draw_uuid (c : RecoveryContext) : RecoveryContext :=
  MkCtx (conn c) (dry_run c) (public_albums c) (album_cache c) (slug_cache c)
        (album_ids c) (created_albums c) (S (uuid_draws c)) (clock_reads c).

Definition read_clock (c : RecoveryContext) : RecoveryContext :=
  MkCtx (conn c) (dry_run c) (public_albums c) (album_cache c) (slug_cache c)
        (album_ids c) (created_albums c) (uuid_draws c) (S (clock_reads c)).

(** The three statements that end one creation step:
    [ctx.album_cache[current] = album_id], [ctx.album_ids.add(album_id)],
    [ctx.created_albums += 1]. *)
Definition register_album (c : RecoveryContext) (current album_id : string)
  : RecoveryContext :=
  MkCtx (conn c) (dry_run c) (public_albums c)
        (<[current := album_id]> (album_cache c)) (slug_cache c)
        ({[album_id]} ∪ album_ids c) (S (created_albums c))
        (uuid_draws c) (clock_reads c).

(** [ctx.conn.execute(INSERT INTO albums ...)], when not a preview. *)
Definition persist_album (c : RecoveryContext) (row : album_row)
  : outcome RecoveryContext :=
  if dry_run c then Done c
  else match insert_album (conn c) row with
       | Some cn => Done (with_conn c cn)
       | None => Raised IntegrityError
       end.

(** The normalisation at the head of [ensure_album_chain]. *)
Definition path_segments (album_path : string) : list string :=
  List.filter Py.truthy (Py.split "/" (Py.strip Py.is_slash album_path)).

Definition normalize_album_path (album_path : string) : string :=
  "/" +:+ Py.join "/" (path_segments album_path).

(** One iteration of the segment loop; the state carried from one
    iteration to the next is the context, [parent_id] and [current]. *)
Definition chain_step (c : RecoveryContext) (parent_id : option string)
    (current segment : string)
  : outcome (RecoveryContext * option string * string) :=
  let current :=
    if Py.truthy current then current +:+ "/" +:+ segment else "/" +:+ segment in
  let existing := album_cache c !! current in
  if match existing with Some e => Py.truthy e | None => false end
  then Done (c, existing, current)
  else
    let album_id := uuid4_at (uuid_draws c) in
    let c := draw_uuid c in
    '(slug, sc) ← ensure_unique_slug (conn c) (slugify segment) current (slug_cache c);
    let c := with_slug_cache c sc in
    let ts := now_at (clock_reads c) in
    let c := read_clock c in
    c ← persist_album c
          (AlbumRow album_id segment slug parent_id None
                    (if public_albums c then 1 else 0) None current ts ts);
    Done (register_album c current album_id, Some album_id, current).

Fixpoint chain_loop (c : RecoveryContext) (parent_id : option string)
    (current : string) (segments : list string)
  : outcome (RecoveryContext * option string * string) :=
  match segments with
  | [] => Done (c, parent_id, current)
  | segment :: rest =>
      '(c, parent_id, current) ← chain_step c parent_id current segment;
      chain_loop c parent_id current rest
  end.

Definition ensure_album_chain (c : RecoveryContext) (album_path : string)
  : outcome (RecoveryContext * option string) :=
  if negb (Py.truthy album_path) || String.eqb album_path "/" then Done (c, None)
  else
    let normalized := normalize_album_path album_path in
    match album_cache c !! normalized with
    | Some hit => Done (c, Some hit)
    | None =>
        '(c, _, _) ← chain_loop c None ""
                       (Py.split "/" (Py.strip Py.is_slash normalized));
        Done (c, album_cache c !! normalized)
    end.

(** ** MIME classification *)

Definition image_type (path : PurePath.t) : option string :=
  match guess_type (PurePath.to_string path) with
  | Some m => if Py.truthy m && Py.startswith m "image/" then Some m else None
  | None => None
  end.

Definition is_image_file (path : PurePath.t) : bool :=
  let suffix := Py.lower (PurePath.suffix path) in
  if mem suffix ALLOWED_EXTENSIONS then true
  else match image_type path with Some _ => true | None => false end.

Definition fallback_map : list (string * string) :=
  [(".jpg", "image/jpeg"); (".jpeg", "image/jpeg"); (".png", "image/png");
   (".gif", "image/gif"); (".webp", "image/webp"); (".avif", "image/avif");
   (".bmp", "image/bmp"); (".svg", "image/svg+xml")].

Fixpoint assoc (k : string) (l : list (string * string)) (d : string) : string :=
  match l with
  | [] => d
  | (k', v) :: rest => if String.eqb k k' then v else assoc k rest d
  end.

Definition guess_mime (path : PurePath.t) : string :=
  match image_type path with
  | Some m => m
  | None =>
      assoc (Py.lower (PurePath.suffix path)) fallback_map
            "application/octet-stream"
  end.

(** ** Per-file repair *)

Definition opt_eqb (a b : option string) : bool :=
  match a, b with
  | Some x, Some y => String.eqb x y
  | None, None => true
  | _, _ => false
  end.

Definition opt_truthy (a : option string) : bool :=
  match a with Some x => Py.truthy x | None => false end.

Definition album_id_valid (c : RecoveryContext) (existing : ExistingFileRow.t) : bool :=
  match ExistingFileRow.album_id existing with
  | None => true
  | Some a => bool_decide (a ∈ album_ids c)
  end.

Definition needs_update (c : RecoveryContext) (existing : ExistingFileRow.t)
    (target_album_id : option string) (expected_size : Z)
    (expected_name expected_mime : string) : bool :=
  negb (opt_eqb (ExistingFileRow.album_id existing) target_album_id)
  || negb (ExistingFileRow.size existing =? expected_size)%Z
  || negb (String.eqb (ExistingFileRow.original_name existing) expected_name)
  || negb (Py.startswith (ExistingFileRow.mime_type existing) "image/")
  || (Py.truthy (ExistingFileRow.mime_type existing)
      && negb (String.eqb (ExistingFileRow.mime_type existing) expected_mime))
  || (opt_truthy (ExistingFileRow.album_id existing) && negb (album_id_valid c existing)).

(** The target the repair works with: a missing decision is replaced by
    the stored assignment. *)
Definition repair_target (existing : ExistingFileRow.t)
    (target_album_id : option string) : option string :=
  match target_album_id with
  | None => ExistingFileRow.album_id existing
  | Some t => Some t
  end.

Definition repair_existing_file (fs : FileSystem) (c : RecoveryContext)
    (existing : ExistingFileRow.t) (full_path : PurePath.t) (rel_key : string)
    (target_album_id : option string) : outcome (RecoveryContext * bool) :=
  let target_album_id := repair_target existing target_album_id in
  match stat_size fs full_path with
  | None => Raised OSError
  | Some expected_size =>
      let expected_name := PurePath.name full_path in
      let expected_mime := guess_mime full_path in
      if negb (needs_update c existing target_album_id expected_size
                 expected_name expected_mime)
      then Done (c, false)
      else if dry_run c then Done (c, true)
      else
        let ts := now_at (clock_reads c) in
        let c := read_clock c in
        Done (with_conn c
                (update_file (conn c) (ExistingFileRow.id existing) target_album_id
                   expected_name expected_size expected_mime ts),
              true)
  end.

(** ** Reconciliation driver *)

Definition with_ctx (s : WalkState) (c : RecoveryContext) : WalkState :=
  MkWalk c (existing_keys s) (scanned s) (skipped_non_image s)
         (skipped_existing s) (repaired_existing s) (inserted_files s)
         (failed_files s).

Definition count_scanned (s : WalkState) : WalkState :=
  MkWalk (ctx s) (existing_keys s) (S (scanned s)) (skipped_non_image s)
         (skipped_existing s) (repaired_existing s) (inserted_files s)
         (failed_files s).

Definition count_non_image (s : WalkState) : WalkState :=
  MkWalk (ctx s) (existing_keys s) (scanned s) (S (skipped_non_image s))
         (skipped_existing s) (repaired_existing s) (inserted_files s)
         (failed_files s).

Definition count_existing (s : WalkState) : WalkState :=
  MkWalk (ctx s) (existing_keys s) (scanned s) (skipped_non_image s)
         (S (skipped_existing s)) (repaired_existing s) (inserted_files s)
         (failed_files s).

Definition count_repaired (s : WalkState) : WalkState :=
  MkWalk (ctx s) (existing_keys s) (scanned s) (skipped_non_image s)
         (skipped_existing s) (S (repaired_existing s)) (inserted_files s)
         (failed_files s).

Definition count_failed (s : WalkState) : WalkState :=
  MkWalk (ctx s) (existing_keys s) (scanned s) (skipped_non_image s)
         (skipped_existing s) (repaired_existing s) (inserted_files s)
         (S (failed_files s)).

(** [existing_keys.add(rel_key)] and [inserted_files += 1]. *)
Definition count_inserted (s : WalkState) (rel_key : string) : WalkState :=
  MkWalk (ctx s) ({[rel_key]} ∪ existing_keys s) (scanned s)
         (skipped_non_image s) (skipped_existing s) (repaired_existing s)
         (S (inserted_files s)) (failed_files s).

(** The branch of the loop body for a key that is already cataloged. *)
Definition handle_existing (args : Args.t) (fs : FileSystem)
    (existing_files : gmap string ExistingFileRow.t) (s : WalkState)
    (full_path : PurePath.t) (rel_key : string) (album_id : option string)
  : outcome WalkState :=
  let s := count_existing s in
  if Args.repair_existing args then
    match existing_files !! rel_key with
    | Some existing =>
        match repair_existing_file fs (ctx s) existing full_path rel_key album_id with
        | Done (c, true) => Done (count_repaired (with_ctx s c))
        | Done (c, false) => Done (with_ctx s c)
        | Raised _ => Done (count_failed s)
        | Diverged => Diverged
        end
    | None => Done s
    end
  else Done s.

(** The branch of the loop body that inserts a new item. *)
Definition handle_new (args : Args.t) (fs : FileSystem) (s : WalkState)
    (full_path : PurePath.t) (rel_key : string) (album_id : option string)
  : WalkState :=
  match stat_size fs full_path with
  | None => count_failed s
  | Some st_size =>
      let file_id := uuid4_at (uuid_draws (ctx s)) in
      let s := with_ctx s (draw_uuid (ctx s)) in
      let ts := now_at (clock_reads (ctx s)) in
      let s := with_ctx s (read_clock (ctx s)) in
      let mime_type := guess_mime full_path in
      if Args.dry_run args then count_inserted s rel_key
      else
        match insert_file (conn (ctx s))
                (FileRow file_id rel_key (PurePath.name full_path) st_size
                         mime_type None None None (Some "[]") None None
                         (Some "[]") None None album_id ts ts) with
        | Some cn => count_inserted (with_ctx s (with_conn (ctx s) cn)) rel_key
        | None => count_failed s
        end
  end.

(** [ensure_album_chain(ctx, album_path) if album_path else None]. *)
Definition album_id_for (c : RecoveryContext) (album_path : option string)
  : outcome (RecoveryContext * option string) :=
  match album_path with
  | Some p => if Py.truthy p then ensure_album_chain c p else Done (c, None)
  | None => Done (c, None)
  end.

(** The body of the [for full_path in iter_files(...)] loop. *)
Definition process_file (args : Args.t) (fs : FileSystem)
    (uploads_dir : PurePath.t) (existing_files : gmap string ExistingFileRow.t)
    (s : WalkState) (full_path : PurePath.t) : outcome WalkState :=
  let s := count_scanned s in
  rel_key ← normalize_rel_key full_path uploads_dir;
  if negb (is_image_file full_path) then Done (count_non_image s)
  else
    album_path ← decide_album_path rel_key (Args.album_mode args);
    '(c, album_id) ← album_id_for (ctx s) album_path;
    let s := with_ctx s c in
    if bool_decide (rel_key ∈ existing_keys s)
    then handle_existing args fs existing_files s full_path rel_key album_id
    else Done (handle_new args fs s full_path rel_key album_id).

Fixpoint walk (args : Args.t) (fs : FileSystem) (uploads_dir : PurePath.t)
    (existing_files : gmap string ExistingFileRow.t) (s : WalkState)
    (paths : list PurePath.t) : outcome WalkState :=
  match paths with
  | [] => Done s
  | full_path :: rest =>
      s ← process_file args fs uploads_dir existing_files s full_path;
      walk args fs uploads_dir existing_files s rest
  end.

Definition summary_of (s : WalkState) : Summary :=
  MkSummary (scanned s) (inserted_files s) (repaired_existing s)
            (created_albums (ctx s)) (skipped_non_image s)
            (skipped_existing s) (failed_files s).

(** The state the walk starts from: the context built from the loaded
    snapshot, and zeroed counters.  [seed] gives the number of values
    already taken from the two external sequences. *)
Definition initial_state (args : Args.t) (db0 : Conn) (seed : nat * nat)
  : WalkState * gmap string ExistingFileRow.t :=
  let '(album_cache, slug_cache, existing_keys, existing_files, album_ids) :=
    load_existing_state db0 in
  (MkWalk (MkCtx db0 (Args.dry_run args) (Args.public_albums args)
                 album_cache slug_cache album_ids 0 (fst seed) (snd seed))
          existing_keys 0 0 0 0 0 0,
   existing_files).

(** The scan root and the outcome of the containment test on it. *)
Definition uploads_dir_of (args : Args.t) (fs : FileSystem) : PurePath.t :=
  PurePath.resolve (getcwd fs) (PurePath.parse (Args.uploads args)).

Definition scan_root_of (args : Args.t) (fs : FileSystem) : PurePath.t :=
  let uploads_dir := uploads_dir_of args fs in
  if Py.truthy (Args.subdir args)
  then PurePath.resolve (getcwd fs) (PurePath.joinpath uploads_dir (Args.subdir args))
  else uploads_dir.

Definition subdir_check (args : Args.t) (fs : FileSystem) : bool :=
  if Py.truthy (Args.subdir args)
  then Py.startswith (PurePath.to_string (scan_root_of args fs))
                     (PurePath.to_string (uploads_dir_of args fs))
  else true.

(** [recover(args)], run on the file system [fs] against the store [db0]
    (the tables as [ensure_schema] leaves them). *)
Definition recover (args : Args.t) (fs : FileSystem) (db0 : Conn)
    (seed : nat * nat) : outcome RunResult :=
  let uploads_dir := uploads_dir_of args fs in
  let scan_root := scan_root_of args fs in
  if negb (subdir_check args fs) then Done (MkRun 2 [] db0 None None)
  else if negb (is_dir fs uploads_dir) then Done (MkRun 2 [] db0 None None)
  else if negb (is_dir fs scan_root) then Done (MkRun 2 [] db0 None None)
  else
    let '(s0, existing_files) := initial_state args db0 seed in
    let begin_ := if Args.dry_run args then [] else [EvBegin] in
    match walk args fs uploads_dir existing_files s0
               (iter_files fs scan_root (Args.include_hidden args)) with
    | Done s =>
        Done (MkRun 0
                (EvConnect :: begin_
                 ++ (if Args.dry_run args then [] else [EvCommit]) ++ [EvClose])
                (conn (ctx s)) (Some (summary_of s)) (Some s))
    | Raised _ =>
        Done (MkRun 1
                (EvConnect :: begin_
                 ++ (if Args.dry_run args then [] else [EvRollback]) ++ [EvClose])
                db0 None None)
    | Diverged => Diverged
    end.

End Engine.

(** ** Notions used by the statements *)

(** No character of [s] is [c]. *)
Definition no_char (c : ascii) (s : string) : Prop :=
  Forall (fun a => a <> c) (list_ascii_of_string s).

(** The last character of a string. *)
Fixpoint last_char (s : string) : option ascii :=
  match s with
  | EmptyString => None
  | String c EmptyString => Some c
  | String _ s' => last_char s'
  end.

(** The loop test of [ensure_unique_slug]: the slug is neither persisted
    nor in the known-slug set. *)
Definition is_free (conn : Conn) (slug_cache : gset string) (s : string) : bool :=
  negb (slug_exists conn s) && negb (bool_decide (s ∈ slug_cache)).

(** The candidate examined [j] iterations after the iteration that
    examines [candidate] with the counter at [counter]. *)
Fixpoint candidate_at (base_slug candidate : string) (counter : N) (j : nat)
  : string :=
  match j with
  | 0 => candidate
  | S j' =>
      candidate_at base_slug (numbered base_slug (counter + 1)) (counter + 1) j'
  end.

(** The candidates examined by one call, in order: all of them when the
    loop stops within [fuel] iterations. *)
Fixpoint probed (fuel : nat) (conn : Conn) (base_slug candidate : string)
    (counter : N) (slug_cache : gset string) : list string :=
  match fuel with
  | 0 => []
  | S fuel' =>
      candidate ::
      (if is_free conn slug_cache candidate then []
       else probed fuel' conn base_slug
              (numbered base_slug (counter + 1)) (counter + 1) slug_cache)
  end.


(** The known-slug set of a run that has allocated [sky] and every
    numbered slug from [sky-2] to [sky-106881]. *)
Definition crowded_cache : gset string :=
  list_to_set
    ("sky" :: List.map (fun k => numbered "sky" (N.of_nat k))
                       (seq 2 (N.to_nat 106880))).


(** The columns a repair has no business with. *)
Definition passthrough (r : file_row)
  : option string * option string * option string * option string
    * option string * option string :=
  (f_tags r, f_caption r, f_semantic_description r, f_aliases r,
   f_annotation_updated_at r, f_exif_data r).

(** The columns that identify a row and describe the image itself. *)
Definition identity_columns (r : file_row)
  : string * string * option Z * option Z * option string * string :=
  (f_id r, f_key r, f_width r, f_height r, f_thumbhash r, f_created_at r).

(** The path has an entry with a non-empty identifier in the path cache:
    the test [if existing:] of the segment loop. *)
Definition live_b (cache : gmap string string) (p : string) : bool :=
  match cache !! p with Some e => Py.truthy e | None => false end.

Definition live (c : RecoveryContext) (p : string) : Prop :=
  live_b (album_cache c) p = true.

(** [SELECT] on the primary key of [albums]. *)
Definition id_exists (cn : Conn) (i : string) : bool :=
  existsb (fun x => String.eqb (a_id x) i) (albums cn).

(** The slug [ensure_unique_slug] returns. *)
Definition alloc_slug (cn : Conn) (base_slug album_path : string)
    (slug_cache : gset string) : string :=
  match ensure_unique_slug cn base_slug album_path slug_cache with
  | Done (s, _) => s
  | _ => ""
  end.

(** The value of [current] after the first statement of the loop body. *)
Definition next_current (current segment : string) : string :=
  if Py.truthy current then current +:+ "/" +:+ segment else "/" +:+ segment.

(** The invariants of the data model on the album table: paths, slugs
    and identifiers are unique, identifiers are not empty. *)
Record store_wf (db : Conn) : Prop := StoreWf {
  wf_paths : NoDup (List.map a_path (albums db));
  wf_slugs : NoDup (List.map a_slug (albums db));
  wf_ids : NoDup (List.map a_id (albums db));
  wf_ids_nonempty : Forall (fun r => a_id r <> "") (albums db)
}.

(** The sequence of [uuid.uuid4] values never yields the empty string. *)
Definition uuid_nonempty (uuid4_at : nat -> string) : Prop :=
  forall n, uuid4_at n <> "".

(** From position [seed] on, the [uuid.uuid4] values are pairwise distinct
    and differ from every identifier stored in [db]. *)
Record uuid_fresh (uuid4_at : nat -> string) (seed : nat) (db : Conn) : Prop :=
  UuidFresh {
  fresh_inj : forall i j, seed <= i -> seed <= j ->
                uuid4_at i = uuid4_at j -> i = j;
  fresh_albums : forall i, seed <= i -> uuid4_at i ∉ List.map a_id (albums db);
  fresh_files : forall i, seed <= i -> uuid4_at i ∉ List.map f_id (files db)
}.


Section Steps.
Variable uuid4_at : nat -> string.
Variable now_at : nat -> string.

(** The context after a creation step of the segment loop for the partial
    path [current]: identifier drawn, slug allocated, clock read, row
    persisted unless in preview, caches and counter advanced. *)
Definition created (c : RecoveryContext) (parent_id : option string)
    (current segment : string) : RecoveryContext :=
  let album_id := uuid4_at (uuid_draws c) in
  let slug := alloc_slug (conn c) (slugify segment) current (slug_cache c) in
  let ts := now_at (clock_reads c) in
  let row := AlbumRow album_id segment slug parent_id None
                      (if public_albums c then 1 else 0) None current ts ts in
  MkCtx (if dry_run c then conn c
         else MkConn (albums (conn c) ++ [row]) (files (conn c)))
        (dry_run c) (public_albums c)
        (<[current := album_id]> (album_cache c))
        ({[slug]} ∪ slug_cache c)
        ({[album_id]} ∪ album_ids c)
        (S (created_albums c)) (S (uuid_draws c)) (S (clock_reads c)).

(** The changes a run makes to its context, one at a time: a container is
    created for a path that has no live cache entry; a file row is
    rewritten by a repair or added by an insertion (live runs only); an
    identifier is drawn; the clock is read. *)
Inductive ctx_step : RecoveryContext -> RecoveryContext -> Prop :=
| step_create c parent_id current segment :
    current <> "" ->
    ~ live c current ->
    (dry_run c = false -> id_exists (conn c) (uuid4_at (uuid_draws c)) = false) ->
    ctx_step c (created c parent_id current segment)
| step_update c i a nm sz mime :
    dry_run c = false ->
    ctx_step c (with_conn (read_clock c)
                  (update_file (conn c) i a nm sz mime (now_at (clock_reads c))))
| step_insert c row cn :
    dry_run c = false ->
    insert_file (conn c) row = Some cn ->
    ctx_step c (with_conn c cn)
| step_draw c : ctx_step c (draw_uuid c)
| step_clock c : ctx_step c (read_clock c).

End Steps.


(** The text that follows the first segment in a joined path. *)
Fixpoint tail_str (l : list string) : string :=
  match l with
  | [] => ""
  | x :: l' => "/" +:+ x +:+ tail_str l'
  end.

(** A segment of a normalised album path: not empty, no slash. *)
Definition segment_ok (x : string) : Prop := x <> "" /\ no_char "/" x.


(** How the context [c'] extends the context [c] when the containers of
    the paths [new] were created in between, in that order. *)
Record extends (c c' : RecoveryContext) (new : list string) : Prop := Extends {
  ext_dry : dry_run c' = dry_run c;
  ext_public : public_albums c' = public_albums c;
  ext_created : created_albums c' = created_albums c + length new;
  ext_nodup : NoDup new;
  ext_fresh : forall x, x ∈ new -> ~ live c x;
  ext_live : forall x, x ∈ new -> live c' x;
  ext_stable : forall x e,
    album_cache c !! x = Some e -> e <> "" -> album_cache c' !! x = Some e;
  ext_dom : forall x,
    x ∈ dom (album_cache c') <-> x ∈ dom (album_cache c) \/ x ∈ new;
  ext_paths :
    List.map a_path (albums (conn c'))
    = (List.map a_path (albums (conn c)) ++ if dry_run c then [] else new)%list;
  ext_preview : dry_run c = true -> conn c' = conn c;
  ext_slugs : slug_cache c ⊆ slug_cache c';
  ext_ids : album_ids c ⊆ album_ids c';
  ext_draws : uuid_draws c <= uuid_draws c'
}.


(** What a run needs of its context for the album table to stay
    well-formed: the table is well-formed, and every stored path (other
    than the empty string) has a live entry in the path cache. *)
Record ctx_inv (c : RecoveryContext) : Prop := CtxInv {
  inv_store : store_wf (conn c);
  inv_cached : forall r, r ∈ albums (conn c) -> a_path r <> "" -> live c (a_path r)
}.

Section Runs.
Variable uuid4_at : nat -> string.
Variable now_at : nat -> string.
Variable guess_type : string -> option string.

(** Runs of the script one after the other on the same store, each with
    its own arguments, file system and position in the external
    sequences. *)
Fixpoint recover_many (runs : list (Args.t * FileSystem * (nat * nat)))
    (db : Conn) : outcome Conn :=
  match runs with
  | [] => Done db
  | (args, fs, seed) :: rest =>
      r ← recover uuid4_at now_at guess_type args fs db seed;
      recover_many rest (store r)
  end.

End Runs.

(** Calls of [ensure_unique_slug] that share the known-slug set of one
    run; each request gives the store as it is at the call, the base slug
    and the album path. *)
Fixpoint allocate_many (requests : list (Conn * string * string))
    (slug_cache : gset string) : outcome (list string * gset string) :=
  match requests with
  | [] => Done ([], slug_cache)
  | (cn, base_slug, album_path) :: rest =>
      '(slug, slug_cache) ← ensure_unique_slug cn base_slug album_path slug_cache;
      '(slugs, slug_cache) ← allocate_many rest slug_cache;
      Done (slug :: slugs, slug_cache)
  end.


(** The arguments of a run with [--dry-run] set. *)
Definition preview_args (args : Args.t) : Args.t :=
  Args.Build (Args.uploads args) (Args.db args) (Args.subdir args)
             (Args.album_mode args) (Args.public_albums args)
             (Args.include_hidden args) (Args.repair_existing args) true.

(** The arguments of a run with [--dry-run] not set. *)
Definition live_args (args : Args.t) : Args.t :=
  Args.Build (Args.uploads args) (Args.db args) (Args.subdir args)
             (Args.album_mode args) (Args.public_albums args)
             (Args.include_hidden args) (Args.repair_existing args) false.

(** Two contexts hold the same in-memory caches and counters. *)
Record same_caches (c c' : RecoveryContext) : Prop := SameCaches {
  sc_album_cache : album_cache c = album_cache c';
  sc_slug_cache : slug_cache c = slug_cache c';
  sc_album_ids : album_ids c = album_ids c';
  sc_created : created_albums c = created_albums c';
  sc_draws : uuid_draws c = uuid_draws c';
  sc_public : public_albums c = public_albums c'
}.

(** The counters of the walk. *)
Definition counters (s : WalkState) : nat * nat * nat * nat * nat * nat :=
  (scanned s, skipped_non_image s, skipped_existing s, repaired_existing s,
   inserted_files s, failed_files s).

(** What ties the store of a live run to the store [db0] it started from,
    to the known keys and to the identifiers drawn since position
    [seed]. *)
Record live_inv (uuid4_at : nat -> string) (seed : nat) (db0 : Conn)
    (c : RecoveryContext) (keys : gset string) : Prop := LiveInv {
  li_dry : dry_run c = false;
  li_slugs : forall x,
    slug_exists (conn c) x = true ->
    slug_exists db0 x = true \/ x ∈ slug_cache c;
  li_slugs0 : forall x,
    slug_exists db0 x = true -> slug_exists (conn c) x = true;
  li_album_ids : forall r,
    r ∈ albums (conn c) ->
    a_id r ∈ List.map a_id (albums db0)
    \/ exists i, seed <= i < uuid_draws c /\ a_id r = uuid4_at i;
  li_file_ids : forall r,
    r ∈ files (conn c) ->
    f_id r ∈ List.map f_id (files db0)
    \/ exists i, seed <= i < uuid_draws c /\ f_id r = uuid4_at i;
  li_keys : forall r, r ∈ files (conn c) -> f_key r ∈ keys;
  li_seed : seed <= uuid_draws c
}.

(** A live context and a preview context that started from the same
    store [db0] and are at the same point of the same walk. *)
Record ctx_sim (uuid4_at : nat -> string) (seed : nat) (db0 : Conn)
    (keys : gset string) (cl cd : RecoveryContext) : Prop := CtxSim {
  cs_same : same_caches cl cd;
  cs_live : live_inv uuid4_at seed db0 cl keys;
  cs_preview : dry_run cd = true;
  cs_store : conn cd = db0
}.

Record walk_sim (uuid4_at : nat -> string) (seed : nat) (db0 : Conn)
    (sl sd : WalkState) : Prop := WalkSim {
  ws_ctx : ctx_sim uuid4_at seed db0 (existing_keys sl) (ctx sl) (ctx sd);
  ws_keys : existing_keys sl = existing_keys sd;
  ws_counters : counters sl = counters sd
}.


(** Every known key is the key of a stored item. *)
Definition keys_stored (s : WalkState) : Prop :=
  forall x, x ∈ existing_keys s -> x ∈ List.map f_key (files (conn (ctx s))).

(** Every cached path is the path of a stored container. *)
Definition paths_stored (c : RecoveryContext) : Prop :=
  forall x, x ∈ dom (album_cache c) -> x ∈ List.map a_path (albums (conn c)).

(** The decided container path, if it names a container, has its normal
    form in the path cache. *)
Definition chain_cached (c : RecoveryContext) (album_path : option string)
  : Prop :=
  match album_path with
  | Some q =>
      q <> "" -> q <> "/" -> normalize_album_path q ∈ dom (album_cache c)
  | None => True
  end.

Section Settled.
Variable guess_type : string -> option string.

(** The file [p] of the walk is dealt with in the state [s]: its key is
    defined and, if it is an image, its container path is decided and
    cached, and its key is known provided its size can be read. *)
Definition settled (args : Args.t) (fs : FileSystem) (uploads_dir : PurePath.t)
    (s : WalkState) (p : PurePath.t) : Prop :=
  exists key,
    normalize_rel_key p uploads_dir = Done key
    /\ (is_image_file guess_type p = true ->
        exists album_path,
          decide_album_path key (Args.album_mode args) = Done album_path
          /\ chain_cached (ctx s) album_path
          /\ (stat_size fs p <> None -> key ∈ existing_keys s)).

(** The file is an image whose key is among [keys]. *)
Definition cataloged (uploads_dir : PurePath.t) (keys : gset string)
    (p : PurePath.t) : bool :=
  match normalize_rel_key p uploads_dir with
  | Done key => is_image_file guess_type p && bool_decide (key ∈ keys)
  | _ => false
  end.

End Settled.


(** The state [s'] differs from the state [s] by nothing that an
    insertion or a creation would change. *)
Record quiet (s s' : WalkState) : Prop := Quiet {
  q_cache : album_cache (ctx s') = album_cache (ctx s);
  q_keys : existing_keys s' = existing_keys s;
  q_created : created_albums (ctx s') = created_albums (ctx s);
  q_inserted : inserted_files s' = inserted_files s;
  q_albums : albums (conn (ctx s')) = albums (conn (ctx s));
  q_file_keys : List.map f_key (files (conn (ctx s')))
                = List.map f_key (files (conn (ctx s)))
}.


(** ** Sample data for the scenarios *)

Definition sample_uuid (n : nat) : string := "uuid-" +:+ pretty n.
Definition sample_now (n : nat) : string := "2024-05-01T10:00:00+00:00".

(** A stand-in for the table of [mimetypes]: the type by extension. *)
Definition sample_guess_type (path : string) : option string :=
  let suffix := Py.lower (PurePath.suffix (PurePath.parse path)) in
  if mem suffix [".jpg"; ".jpeg"] then Some "image/jpeg"
  else if String.eqb suffix ".png" then Some "image/png"
  else if String.eqb suffix ".txt" then Some "text/plain"
  else None.

(** A cataloged photo with annotations, whose file has grown to 2048
    bytes since it was cataloged with 1024. *)
Definition annotated_row : file_row :=
  FileRow "f-1" "vacation/beach.jpg" "beach.jpg" 1024 "image/jpeg"
          (Some 800%Z) (Some 600%Z) None
          (Some "[sea]") (Some "At the beach") None (Some "[]") None None
          (Some "a-1") "2023-01-01T00:00:00+00:00" "2023-01-01T00:00:00+00:00".

Definition vacation_album : album_row :=
  AlbumRow "a-1" "vacation" "vacation" None None 0 None "/vacation"
           "2023-01-01T00:00:00+00:00" "2023-01-01T00:00:00+00:00".

Definition sample_fs : FileSystem :=
  MkFs ["srv"]
       (FsDir "" [FsDir "srv" [FsDir "uploads"
          [FsDir "vacation" [FsFile "beach.jpg" (Some 2048%Z)];
           FsDir "2024" [FsDir "03" [FsFile "x.jpg" (Some 10%Z)]]]]]).

Definition beach_path : PurePath.t :=
  PurePath.Build "/" ["srv"; "uploads"; "vacation"; "beach.jpg"].

Definition sharded_path : PurePath.t :=
  PurePath.Build "/" ["srv"; "uploads"; "2024"; "03"; "x.jpg"].

(** A cataloged upload whose album row has been lost. *)
Definition orphan_row : file_row :=
  FileRow "f-2" "2024/03/x.jpg" "x.jpg" 10 "image/jpeg"
          None None None (Some "[]") None None (Some "[]") None None
          (Some "ghost") "2023-01-01T00:00:00+00:00" "2023-01-01T00:00:00+00:00".

Definition sample_conn : Conn := MkConn [vacation_album] [annotated_row; orphan_row].

(** The context of a live run right after loading [sample_conn]. *)
Definition sample_ctx : RecoveryContext :=
  MkCtx sample_conn false false {["/vacation" := "a-1"]} {["vacation"]}
        {["a-1"]} 0 0 0.


(** [p] lies inside [base]: same root, and the components of [base] are
    the leading components of [p] ([p.is_relative_to(base)]). *)
Definition inside (p base : PurePath.t) : Prop :=
  PurePath.root p = PurePath.root base
  /\ exists rest, PurePath.parts p = (PurePath.parts base ++ rest)%list.

(** An uploads directory with a sibling whose name extends its own. *)
Definition sibling_fs : FileSystem :=
  MkFs ["srv"]
       (FsDir "" [FsDir "srv"
          [FsDir "uploads" [FsFile "a.jpg" (Some 1%Z)];
           FsDir "uploads-old" [FsFile "b.jpg" (Some 2%Z)]]]).

Definition sibling_args : Args.t :=
  Args.Build "/srv/uploads" "/srv/data/cloudimgs.db" "../uploads-old"
             "auto" false false false false.

Definition empty_conn : Conn := MkConn [] [].


(** An uploads directory whose only entry is an image that cannot be
    read (a dangling symbolic link). *)
Definition broken_fs : FileSystem :=
  MkFs ["srv"]
       (FsDir "" [FsDir "srv" [FsDir "uploads" [FsFile "broken.jpg" None]]]).

Definition broken_path : PurePath.t :=
  PurePath.Build "/" ["srv"; "uploads"; "broken.jpg"].

(** [--uploads /srv/uploads --album-mode auto], a live run. *)
Definition plain_args : Args.t :=
  Args.Build "/srv/uploads" "/srv/data/cloudimgs.db" "" "auto"
             false false false false.

(** The same with [--repair-existing]. *)
Definition repair_args : Args.t :=
  Args.Build "/srv/uploads" "/srv/data/cloudimgs.db" "" "auto"
             false false true false.

(** A tree with two albums to create, one of them nested. *)
Definition trips_fs : FileSystem :=
  MkFs ["srv"]
       (FsDir "" [FsDir "srv" [FsDir "uploads"
          [FsFile "cover.png" (Some 5%Z);
           FsFile "notes.txt" (Some 7%Z);
           FsDir "Trips" [FsFile "a.jpg" (Some 11%Z);
                          FsDir "Rome" [FsFile "b.jpg" (Some 13%Z);
                                        FsFile "c.jpg" (Some 17%Z)]];
           FsDir "trips" [FsFile "d.jpg" (Some 19%Z)];
           FsDir ".cache" [FsFile "thumb.jpg" (Some 1%Z)]]]]).


(** The context of a live run that has loaded the empty store. *)
Definition empty_ctx : RecoveryContext :=
  MkCtx empty_conn false false ∅ ∅ ∅ 0 0 0.


(** The result of the first live run over [trips_fs] on an empty store,
    for the scenarios that start from it. *)
Definition trips_result : RunResult :=
  Eval vm_compute in
    match recover sample_uuid sample_now sample_guess_type plain_args trips_fs
                  empty_conn (0, 0) with
    | Done r => r
    | _ => MkRun 1 [] empty_conn None None
    end.

(** ** Notions used by the further properties *)

(** The first character of a string. *)
Definition first_char (s : string) : option ascii :=
  match s with String c _ => Some c | EmptyString => None end.

(** The string has two hyphens in a row. *)
Fixpoint has_double_dash (s : string) : bool :=
  match s with
  | String a s' =>
      (Ascii.eqb a "-"
       && match s' with String b _ => Ascii.eqb b "-" | EmptyString => false end)
      || has_double_dash s'
  | EmptyString => false
  end.

(** The characters a slug is made of: word characters and hyphens. *)
Definition slug_char (c : ascii) : bool := Py.is_word c || Ascii.eqb c "-".

(** The first candidate of [ensure_unique_slug] when the base slug is
    known: [f"{base_slug}-{digest}"]. *)
Definition hashed (base_slug album_path : string) : string :=
  base_slug +:+ "-" +:+ path_digest album_path.

(** [r] is the last row of [rows] with the key [k] under [key]. *)
Definition last_with {A} (key : A -> string) (rows : list A) (k : string)
    (r : A) : Prop :=
  exists l1 l2,
    rows = (l1 ++ r :: l2)%list /\ key r = k /\ k ∉ List.map key l2.

(** The directory [n] holds the file [file] below the chain of
    sub-directories [dirs]. *)
Inductive has_file : fsnode -> list string -> string -> Prop :=
| has_file_here nm entries file sz :
    FsFile file sz ∈ entries -> has_file (FsDir nm entries) [] file
| has_file_below nm entries d es dirs file :
    FsDir d es ∈ entries ->
    has_file (FsDir d es) dirs file ->
    has_file (FsDir nm entries) (d :: dirs) file.

(** A name a directory entry can have: not empty, not [.], no slash. *)
Definition entry_name (x : string) : Prop :=
  x <> "" /\ x <> "." /\ no_char "/" x.

(** Every entry below [n] has such a name. *)
Fixpoint entry_names (n : fsnode) : Prop :=
  match n with
  | FsFile _ _ => True
  | FsDir _ entries =>
      (fix all (l : list fsnode) : Prop :=
         match l with
         | [] => True
         | e :: l' => entry_name (node_name e) /\ entry_names e /\ all l'
         end) entries
  end.

(** The events of a run that got past the pre-flight tests. *)
Definition run_events (dry_run committed : bool) : list event :=
  EvConnect
  :: (if dry_run then []
      else [EvBegin; if committed then EvCommit else EvRollback])
  ++ [EvClose].

(** How the counters of [s'] exceed those of [s] after a walk over
    [images] image files and [others] other files. *)
Record tally (repair : bool) (s s' : WalkState) (images others : nat)
  : Prop := Tally {
  tl_scanned : scanned s' = scanned s + images + others;
  tl_non_image : skipped_non_image s' = skipped_non_image s + others;
  tl_existing : skipped_existing s <= skipped_existing s';
  tl_inserted : inserted_files s <= inserted_files s';
  tl_repaired : repaired_existing s <= repaired_existing s';
  tl_failed : failed_files s <= failed_files s';
  tl_lower :
    (skipped_existing s' - skipped_existing s)
    + (inserted_files s' - inserted_files s) <= images;
  tl_upper :
    images <= (skipped_existing s' - skipped_existing s)
              + (inserted_files s' - inserted_files s)
              + (failed_files s' - failed_files s);
  tl_once :
    (repaired_existing s' - repaired_existing s)
    + (failed_files s' - failed_files s)
    + (inserted_files s' - inserted_files s) <= images;
  tl_plain :
    repair = false ->
    repaired_existing s' = repaired_existing s
    /\ images = (skipped_existing s' - skipped_existing s)
                + (inserted_files s' - inserted_files s)
                + (failed_files s' - failed_files s)
}.

(** The album row [r] sits directly under the album of its parent path:
    its path is the parent path, a slash and its name, and its
    [parent_id] is the identifier of a row of [rows] that has the parent
    path (none for a top-level album). *)
Definition child_of (rows : list album_row) (r : album_row) : Prop :=
  exists parent_path,
    a_path r = next_current parent_path (a_name r)
    /\ if Py.truthy parent_path
       then exists q,
              q ∈ rows /\ a_path q = parent_path
              /\ a_parent_id r = Some (a_id q)
       else a_parent_id r = None.

(** An album row as [ensure_album_chain] writes it. *)
Definition built_album (public : bool) (rows : list album_row)
    (r : album_row) : Prop :=
  child_of rows r
  /\ a_password r = None
  /\ a_cover_file_id r = None
  /\ a_is_public r = (if public then 1 else 0)%Z
  /\ a_created_at r = a_updated_at r
  /\ Py.startswith (a_slug r) (slugify (a_name r)) = true.

(** Every entry of the path cache is backed by a stored album row. *)
Definition cache_backed (c : RecoveryContext) : Prop :=
  forall p i,
    album_cache c !! p = Some i ->
    exists q, q ∈ albums (conn c) /\ a_path q = p /\ a_id q = i.

(** The loop state of [ensure_album_chain]: [parent_id] is the identifier
    of a stored album at the path [current], or none before the first
    segment. *)
Definition parent_ok (c : RecoveryContext) (parent_id : option string)
    (current : string) : Prop :=
  if Py.truthy current
  then exists q,
         q ∈ albums (conn c) /\ a_path q = current
         /\ parent_id = Some (a_id q)
  else parent_id = None.

(** The album side of a live run that started from the rows [rows0]. *)
Record album_inv (public : bool) (rows0 : list album_row)
    (c : RecoveryContext) : Prop := AlbumInv {
  ai_live : dry_run c = false;
  ai_public : public_albums c = public;
  ai_backed : cache_backed c;
  ai_rows : exists new,
    albums (conn c) = (rows0 ++ new)%list
    /\ Forall (built_album public (albums (conn c))) new
}.

(** The container an item with the key [key] belongs to under [mode]:
    none, or a row of [rows] at the normal form of the decided path. *)
Definition attached (mode : string) (rows : list album_row) (key : string)
    (album_id : option string) : Prop :=
  exists album_path,
    decide_album_path key mode = Done album_path
    /\ match album_path with
       | Some q =>
           if negb (Py.truthy q) || String.eqb q "/" then album_id = None
           else exists a,
                  a ∈ rows /\ a_path a = normalize_album_path q
                  /\ album_id = Some (a_id a)
       | None => album_id = None
       end.

(** Two versions of the row of one item: what a repair has no business
    with is the same in both. *)
Definition same_item (r r' : file_row) : Prop :=
  passthrough r' = passthrough r /\ identity_columns r' = identity_columns r.

Section Inserted.
Variable guess_type : string -> option string.

(** A file row as [recover] inserts it for one of the files [paths]. *)
Definition inserted_row (fs : FileSystem) (uploads_dir : PurePath.t)
    (mode : string) (rows : list album_row) (paths : list PurePath.t)
    (r : file_row) : Prop :=
  exists p,
    p ∈ paths
    /\ is_image_file guess_type p = true
    /\ normalize_rel_key p uploads_dir = Done (f_key r)
    /\ f_original_name r = PurePath.name p
    /\ stat_size fs p = Some (f_size r)
    /\ f_mime_type r = guess_mime guess_type p
    /\ passthrough r = (Some "[]", None, None, Some "[]", None, None)
    /\ (f_width r, f_height r, f_thumbhash r) = (None, None, None)
    /\ f_created_at r = f_updated_at r
    /\ attached mode rows (f_key r) (f_album_id r).

(** The file side of a run that started from the store [db0] and has
    dealt with the files [paths]. *)
Definition file_inv (args : Args.t) (fs : FileSystem)
    (uploads_dir : PurePath.t) (db0 : Conn) (paths : list PurePath.t)
    (cn : Conn) : Prop :=
  exists old new,
    files cn = (old ++ new)%list
    /\ Forall2 same_item (files db0) old
    /\ (Args.repair_existing args = false -> old = files db0)
    /\ Forall (fun r => f_id r ∉ List.map f_id (files db0)) new
    /\ Forall (inserted_row fs uploads_dir (Args.album_mode args)
                 (albums cn) paths) new.

End Inserted.

(** The uploads directory of the sample trees. *)
Definition uploads_path : PurePath.t := PurePath.Build "/" ["srv"; "uploads"].

(** The annotated photo after the repair for its size. *)
Definition repaired_photo : file_row :=
  repaired_row (repair_target (snapshot_of annotated_row) (Some "a-1"))
    (PurePath.name beach_path) 2048
    (guess_mime sample_guess_type beach_path)
    "2024-05-01T10:00:00+00:00" annotated_row.

(** * Properties *)

(** ** Facts about the string primitives *)

Lemma is_decimal_spec c : Py.is_decimal c = true <-> ascii_digit c.
Proof.
  unfold ascii_digit.
  destruct c as [[] [] [] [] [] [] [] []]; vm_compute;
    (split; [ intros H; first [ discriminate H | tauto ]
            | intros H; first [ reflexivity | exfalso; intuition congruence ] ]).
Qed.

Lemma all_chars_Forall p s :
  Py.all_chars p s = true <-> Forall (fun c => p c = true) (list_ascii_of_string s).
Proof.
  induction s as [|c s IH]; simpl.
  - split; auto.
  - rewrite andb_true_iff, IH. split.
    + intros [? ?]. by constructor.
    + intros H. by inversion H.
Qed.

Lemma fullmatch_d4_spec s : fullmatch_d4 s = true <-> digit_token 4 s.
Proof.
  unfold fullmatch_d4, digit_token.
  rewrite andb_true_iff, Nat.eqb_eq, all_chars_Forall.
  split; intros [? H]; split; auto;
    eapply Forall_impl; try exact H; intros c; apply is_decimal_spec.
Qed.

Lemma fullmatch_d1_2_spec s :
  fullmatch_d1_2 s = true <-> digit_token 1 s \/ digit_token 2 s.
Proof.
  unfold fullmatch_d1_2, digit_token.
  rewrite andb_true_iff, orb_true_iff, !Nat.eqb_eq, all_chars_Forall.
  assert (E : Forall (fun c => Py.is_decimal c = true) (list_ascii_of_string s)
              <-> Forall ascii_digit (list_ascii_of_string s)).
  { split; intros H; eapply Forall_impl; try exact H; intros c; apply is_decimal_spec. }
  rewrite E. tauto.
Qed.

Lemma looks_like_sharded_upload_spec key :
  looks_like_sharded_upload key = true <-> looksOpaque key.
Proof.
  unfold looks_like_sharded_upload, looksOpaque.
  destruct (Py.split "/" key) as [|a [|b [|c rest]]] eqn:E; simpl.
  - split; [discriminate | intros (?&?&?&?&?&_); discriminate].
  - split; [discriminate | intros (?&?&?&?&?&_); discriminate].
  - split; [discriminate | intros (?&?&?&?&?&_); discriminate].
  - destruct (fullmatch_d4 a) eqn:Ea; simpl.
    + destruct (fullmatch_d1_2 b) eqn:Eb; simpl.
      * split; [intros _ | done].
        exists a, b, c, rest. split; [done|].
        split; [by apply fullmatch_d4_spec | by apply fullmatch_d1_2_spec].
      * split; [discriminate|]. intros (a'&b'&c'&r'&Heq&_&Hb).
        inversion Heq; subst. apply fullmatch_d1_2_spec in Hb. congruence.
    + split; [discriminate|]. intros (a'&b'&c'&r'&Heq&Ha&_).
      inversion Heq; subst. apply fullmatch_d4_spec in Ha. congruence.
Qed.

Example sha1_abc :
  Sha1.hexdigest (encode_utf8 "abc") = "a9993e364706816aba3e25717850c26c9cd0d89d".
Proof. vm_compute. reflexivity. Qed.
Example sha1_empty :
  Sha1.hexdigest [] = "da39a3ee5e6b4b0d3255bfef95601890afd80709".
Proof. vm_compute. reflexivity. Qed.
Example sha1_long :
  Sha1.hexdigest (encode_utf8 "abcdbcdecdefdefgefghfghighijhijkijkljklmklmnlmnomnopnopq")
  = "84983e441c3bd26ebaae4aa1f95129e5e54670f1".
Proof. vm_compute. reflexivity. Qed.
Example slugify_ex : slugify "  My Album!! (2024) " = "my-album-2024".
Proof. vm_compute. reflexivity. Qed.

(** ** Splitting and joining *)

Lemma no_char_cons c a s : no_char c (String a s) <-> a <> c /\ no_char c s.
Proof.
  unfold no_char; simpl. split.
  - intros H. by inversion H.
  - intros [? ?]. by constructor.
Qed.

Lemma no_char_app c s1 s2 :
  no_char c (s1 +:+ s2) <-> no_char c s1 /\ no_char c s2.
Proof.
  induction s1 as [|a s1 IH].
  - simpl. split; [intros H; split; [constructor | done] | tauto].
  - change (String a s1 +:+ s2) with (String a (s1 +:+ s2)).
    rewrite !no_char_cons, IH. tauto.
Qed.

Lemma split_no_sep sep x : no_char sep x -> Py.split sep x = [x].
Proof.
  induction x as [|a x IH]; simpl; [done|].
  rewrite no_char_cons. intros [Ha Hx].
  destruct (Ascii.eqb_spec a sep); [done|]. by rewrite IH.
Qed.

Lemma split_app_sep sep x s :
  no_char sep x ->
  Py.split sep (x +:+ String sep s) = x :: Py.split sep s.
Proof.
  induction x as [|a x IH]; simpl.
  - intros _. by rewrite Ascii.eqb_refl.
  - rewrite no_char_cons. intros [Ha Hx].
    destruct (Ascii.eqb_spec a sep); [done|]. by rewrite IH.
Qed.

Lemma join_cons2 sep x y l :
  Py.join sep (x :: y :: l) = x +:+ sep +:+ Py.join sep (y :: l).
Proof. reflexivity. Qed.

Lemma split_join sep l :
  l <> [] -> Forall (no_char sep) l ->
  Py.split sep (Py.join (String sep "") l) = l.
Proof.
  induction l as [|x l IH]; [done|]. intros _ H.
  inversion H as [|? ? Hx Hl]; subst.
  destruct l as [|y l].
  - by apply split_no_sep.
  - rewrite join_cons2.
    change (String sep "" +:+ Py.join (String sep "") (y :: l))
      with (String sep (Py.join (String sep "") (y :: l))).
    rewrite split_app_sep by done. f_equal. apply IH; done.
Qed.

Lemma lstrip_id p s :
  match s with String c _ => p c = false | EmptyString => True end ->
  Py.lstrip p s = s.
Proof. destruct s as [|c s]; simpl; [done|]. by intros ->. Qed.

Lemma rstrip_id p s :
  match last_char s with Some c => p c = false | None => True end ->
  Py.rstrip p s = s.
Proof.
  induction s as [|c s IH]; simpl; [done|].
  destruct s as [|c' s'].
  - simpl. intros ->. done.
  - intros H. rewrite IH by done. done.
Qed.

Lemma last_char_app s1 s2 :
  s2 <> "" -> last_char (s1 +:+ s2) = last_char s2.
Proof.
  intros H. induction s1 as [|c s1 IH]; simpl; [done|].
  destruct (s1 +:+ s2) eqn:E; [|done].
  destruct s1; simpl in E; [done | discriminate].
Qed.

Lemma replace_id a b s : no_char a s -> Py.replace a b s = s.
Proof.
  induction s as [|c s IH]; simpl; [done|].
  rewrite no_char_cons. intros [Hc Hs].
  destruct (Ascii.eqb_spec c a); [done|]. by rewrite IH.
Qed.

(** ** The parent directory of a key built from proper components *)

Lemma proper_no_slash x : proper_component x -> no_char "/" x.
Proof.
  intros (_&_&H). unfold no_char. eapply Forall_impl; [exact H|].
  simpl. tauto.
Qed.

Lemma proper_no_backslash x : proper_component x -> no_char "\" x.
Proof.
  intros (_&_&H). unfold no_char. eapply Forall_impl; [exact H|].
  simpl. tauto.
Qed.

Lemma proper_is_component x :
  proper_component x -> PurePath.is_component x = true.
Proof.
  intros (H1&H2&_). unfold PurePath.is_component.
  apply andb_true_iff; split; apply negb_true_iff, String.eqb_neq; done.
Qed.

Lemma filter_all {A} (p : A -> bool) (l : list A) :
  Forall (fun x => p x = true) l -> List.filter p l = l.
Proof.
  induction 1 as [|x l Hx _ IH]; simpl; [done|]. by rewrite Hx, IH.
Qed.

Lemma join_head sep x l :
  x <> "" ->
  exists c s, x = String c (match x with String _ t => t | _ => "" end)
              /\ Py.join sep (x :: l) = String c s.
Proof.
  intros Hx. destruct x as [|c t]; [done|].
  destruct l as [|y l]; simpl; eauto.
Qed.

Lemma str_length_app (s1 s2 : string) :
  String.length (s1 +:+ s2) = String.length s1 + String.length s2.
Proof. induction s1 as [|c s1 IH]; simpl; [done | by f_equal]. Qed.

Lemma app_cons_str c (s1 s2 : string) :
  String c s1 +:+ s2 = String c (s1 +:+ s2).
Proof. reflexivity. Qed.

Lemma app_assoc_str (s1 s2 s3 : string) :
  (s1 +:+ s2) +:+ s3 = s1 +:+ (s2 +:+ s3).
Proof.
  induction s1 as [|c s1 IH]; [done|]. rewrite !app_cons_str. by f_equal.
Qed.

Lemma app_nil_r_str (s : string) : s +:+ "" = s.
Proof. induction s as [|c s IH]; [done|]. rewrite app_cons_str. by f_equal. Qed.

Lemma Forall_last_elem {A} (P : A -> Prop) (l : list A) (d : A) :
  l <> [] -> Forall P l -> P (List.last l d).
Proof.
  intros Hl H. rewrite (app_removelast_last d Hl) in H.
  by apply Forall_app in H as [_ Hz%Forall_inv].
Qed.

Lemma join_last sep l :
  l <> [] -> List.last l "" <> "" ->
  Py.join sep l <> "" /\ last_char (Py.join sep l) = last_char (List.last l "").
Proof.
  induction l as [|x l IH]; [done|]. intros _ Hl.
  destruct l as [|y l]; [done|].
  destruct IH as [IH1 IH2]; [done | exact Hl |].
  rewrite join_cons2. split.
  - intros E. apply (f_equal String.length) in E.
    rewrite !str_length_app in E.
    destruct (Py.join sep (y :: l)); [done | simpl in E; lia].
  - rewrite <- app_assoc_str.
    rewrite last_char_app by done. exact IH2.
Qed.

Lemma no_char_last c s :
  no_char c s -> s <> "" -> exists a, last_char s = Some a /\ a <> c.
Proof.
  induction s as [|a s IH]; [done|]. rewrite no_char_cons.
  intros [Ha Hs] _. destruct s as [|b s]; [simpl; eauto|].
  destruct IH as (a'&E&Hne); [done..|]. exists a'. split; [|done].
  exact E.
Qed.

Lemma no_char_join c sep l :
  no_char c sep -> Forall (no_char c) l -> no_char c (Py.join sep l).
Proof.
  intros Hsep. induction 1 as [|x l Hx Hl IH]; [constructor|].
  destruct l as [|y l]; [done|].
  rewrite join_cons2, !no_char_app. auto.
Qed.

Lemma join_not_dot l :
  l <> [] -> Forall proper_component l -> Py.join "/" l <> ".".
Proof.
  intros Hl H. destruct l as [|x l]; [done|].
  inversion H as [|? ? Hx _]; subst.
  destruct l as [|y l]; [apply Hx|].
  rewrite join_cons2. destruct Hx as (H1&_&_).
  intros E. apply (f_equal String.length) in E.
  rewrite !str_length_app in E. destruct x; [done|]. simpl in E. lia.
Qed.

Lemma parse_components l :
  l <> [] -> Forall proper_component l ->
  PurePath.parse (Py.join "/" l) = PurePath.Build "" l.
Proof.
  intros Hl H. unfold PurePath.parse.
  rewrite split_join; [|done|eapply Forall_impl; [exact H|apply proper_no_slash]].
  rewrite filter_all by (eapply Forall_impl; [exact H|apply proper_is_component]).
  destruct l as [|x l]; [done|].
  inversion H as [|? ? Hx _]; subst.
  destruct (join_head "/" x l) as (c&s&Ex&->); [apply Hx|].
  apply proper_no_slash in Hx. rewrite Ex, no_char_cons in Hx.
  simpl. unfold Py.is_slash. destruct (Ascii.eqb_spec c "/"); [tauto|done].
Qed.

Lemma parent_dir_components dirs file :
  Forall proper_component (dirs ++ [file]) ->
  parent_dir (Py.join "/" (dirs ++ [file]))
  = match dirs with [] => "." | _ => Py.join "/" dirs end.
Proof.
  intros H. unfold parent_dir.
  rewrite parse_components by (done || by destruct dirs).
  unfold PurePath.parent; simpl. rewrite removelast_last.
  apply Forall_app in H as [Hd _].
  unfold PurePath.to_string; simpl.
  destruct dirs as [|d dirs]; [done|].
  apply replace_id, no_char_join.
  - repeat constructor. done.
  - eapply Forall_impl; [exact Hd|apply proper_no_backslash].
Qed.

Lemma attach_by_dir_components dirs file :
  Forall proper_component (dirs ++ [file]) ->
  attach_by_dir (Py.join "/" (dirs ++ [file]))
  = match dirs with [] => None | _ => Some ("/" +:+ Py.join "/" dirs) end.
Proof.
  intros H. unfold attach_by_dir. rewrite parent_dir_components by done.
  apply Forall_app in H as [Hd _].
  destruct dirs as [|d dirs]; [done|].
  destruct (String.eqb_spec (Py.join "/" (d :: dirs)) ".") as [E|_].
  { by apply join_not_dot in E. }
  do 2 f_equal. unfold Py.strip.
  assert (Hfirst : Py.lstrip Py.is_slash (Py.join "/" (d :: dirs))
                   = Py.join "/" (d :: dirs)).
  { inversion Hd as [|? ? Hx _]; subst.
    destruct (join_head "/" d dirs) as (c&s&Ex&->); [apply Hx|].
    apply proper_no_slash in Hx. rewrite Ex, no_char_cons in Hx.
    apply lstrip_id. unfold Py.is_slash.
    destruct (Ascii.eqb_spec c "/"); [tauto|done]. }
  rewrite Hfirst. apply rstrip_id.
  assert (Hlast : proper_component (List.last (d :: dirs) "")).
  { by apply Forall_last_elem. }
  destruct (join_last "/" (d :: dirs)) as [_ ->]; [done|apply Hlast|].
  destruct (no_char_last "/" _ (proper_no_slash _ Hlast)) as (a&->&Ha); [apply Hlast|].
  unfold Py.is_slash. destruct (Ascii.eqb_spec a "/"); [tauto|done].
Qed.

(** ** Container-path decision *)

Lemma decide_none key : decide_album_path key "none" = Done None.
Proof. unfold decide_album_path. by destruct (String.eqb _ "."). Qed.

Lemma decide_by_dir key :
  decide_album_path key "by-dir" = Done (attach_by_dir key).
Proof.
  unfold decide_album_path, attach_by_dir. by destruct (String.eqb _ ".").
Qed.

Lemma decide_auto key :
  decide_album_path key "auto"
  = Done (if looks_like_sharded_upload key then None else attach_by_dir key).
Proof.
  unfold decide_album_path, attach_by_dir.
  destruct (String.eqb _ "."); simpl; by destruct (looks_like_sharded_upload key).
Qed.


(** ** Slug allocation *)

Lemma slug_exists_spec conn s :
  slug_exists conn s = true <-> s ∈ List.map a_slug (albums conn).
Proof.
  unfold slug_exists. rewrite existsb_exists, list_elem_of_In, in_map_iff.
  split.
  - intros (r&Hr&E%String.eqb_eq). eauto.
  - intros (r&E&Hr). exists r. split; [done|]. by apply String.eqb_eq.
Qed.

Lemma is_free_spec conn slug_cache s :
  is_free conn slug_cache s = true <-> s ∉ occupied conn slug_cache.
Proof.
  unfold is_free, occupied.
  rewrite andb_true_iff, !negb_true_iff, bool_decide_eq_false.
  rewrite not_elem_of_union, not_elem_of_list_to_set.
  rewrite <- slug_exists_spec, not_true_iff_false. tauto.
Qed.

Lemma is_busy_spec conn slug_cache s :
  is_free conn slug_cache s = false <-> s ∈ occupied conn slug_cache.
Proof.
  rewrite <- not_true_iff_false, is_free_spec.
  destruct (decide (s ∈ occupied conn slug_cache)); tauto.
Qed.

Lemma probe_step fuel conn base_slug candidate counter slug_cache :
  probe (S fuel) conn base_slug candidate counter slug_cache
  = if is_free conn slug_cache candidate
    then Done (candidate, {[candidate]} ∪ slug_cache)
    else probe fuel conn base_slug (numbered base_slug (counter + 1))
               (counter + 1) slug_cache.
Proof. reflexivity. Qed.

(** The loop returns the first free candidate, provided the fuel reaches
    it. *)
Lemma probe_first_free conn base_slug slug_cache j :
  forall fuel candidate counter,
    j < fuel ->
    is_free conn slug_cache (candidate_at base_slug candidate counter j) = true ->
    (forall i, i < j ->
       is_free conn slug_cache (candidate_at base_slug candidate counter i) = false) ->
    probe fuel conn base_slug candidate counter slug_cache
    = Done (candidate_at base_slug candidate counter j,
            {[candidate_at base_slug candidate counter j]} ∪ slug_cache).
Proof.
  induction j as [|j IH]; intros fuel candidate counter Hlt Hfree Hbusy.
  - destruct fuel as [|fuel]; [lia|]. rewrite probe_step.
    simpl in Hfree. by rewrite Hfree.
  - destruct fuel as [|fuel]; [lia|]. rewrite probe_step.
    assert (H0 := Hbusy 0 ltac:(lia)). simpl in H0. rewrite H0.
    apply IH; [lia|exact Hfree|].
    intros i Hi. apply (Hbusy (S i)). lia.
Qed.

(** A least index below [m] at which a decidable property holds. *)
Lemma least_index (P : nat -> bool) m :
  (exists j, j < m /\ P j = true) ->
  exists j, j < m /\ P j = true /\ forall i, i < j -> P i = false.
Proof.
  induction m as [|m IH]; intros (j&Hj&HP); [lia|].
  destruct (existsb P (seq 0 m)) eqn:Eb.
  - apply existsb_exists in Eb as (k&Hk%in_seq&HPk).
    destruct IH as (k'&?&?&?); [exists k; split; [lia|done]|].
    exists k'. repeat split; auto with lia.
  - assert (Hno : ~ exists k, k < m /\ P k = true).
    { intros (k&Hk&HPk). apply not_true_iff_false in Eb. apply Eb.
      apply existsb_exists. exists k. split; [apply in_seq; lia|done]. }
    assert (j = m) as ->.
    { destruct (decide (j < m)); [|lia]. exfalso. apply Hno. eauto. }
    exists m. repeat split; [lia|done|].
    intros i Hi. destruct (P i) eqn:E; [|done]. exfalso. apply Hno. eauto.
Qed.

Lemma candidate_at_succ base_slug j :
  forall candidate counter,
    candidate_at base_slug candidate counter (S j)
    = numbered base_slug (counter + N.of_nat (S j)).
Proof.
  induction j as [|j IH]; intros candidate counter.
  - simpl. do 2 f_equal.
  - change (candidate_at base_slug candidate counter (S (S j)))
      with (candidate_at base_slug (numbered base_slug (counter + 1))
              (counter + 1) (S j)).
    rewrite IH. f_equal. lia.
Qed.

Lemma numbered_inj base_slug j k :
  numbered base_slug j = numbered base_slug k -> j = k.
Proof.
  unfold numbered. intros E.
  apply (inj (String.app base_slug)) in E.
  apply (inj (String.app "-")) in E.
  by apply (inj pretty) in E.
Qed.

Lemma numbered_ne_base base_slug k : numbered base_slug k <> base_slug.
Proof.
  unfold numbered. intros E. apply (f_equal String.length) in E.
  rewrite !str_length_app in E. simpl in E. lia.
Qed.


(** Pigeonhole: a duplicate-free list inside a finite set is no longer
    than the set is large. *)
Lemma NoDup_within_size (l : list string) (X : gset string) :
  NoDup l -> (forall x, x ∈ l -> x ∈ X) -> length l <= size X.
Proof.
  intros Hnd Hin. unfold size, set_size. simpl.
  apply submseteq_length, NoDup_submseteq; [done|].
  intros x Hx. apply elem_of_elements. auto.
Qed.

(** The base slug followed by the first [n] numbered candidates. *)
Lemma numbered_run_NoDup base_slug n :
  NoDup (base_slug ::
         List.map (fun j => numbered base_slug (1 + N.of_nat (S j))) (seq 0 n)).
Proof.
  apply NoDup_cons. split.
  - rewrite list_elem_of_In, in_map_iff. intros (j&E&_).
    by apply numbered_ne_base in E.
  - apply (NoDup_fmap_2_strong _); [|apply NoDup_seq].
    intros i j _ _ E%numbered_inj. lia.
Qed.

(** Among the first [n + 1] candidates of a call, [n] the number of
    occupied slugs, one is free. *)
Lemma free_candidate_exists conn base_slug album_path slug_cache :
  exists j,
    j < S (size (occupied conn slug_cache))
    /\ is_free conn slug_cache
         (candidate_at base_slug
            (first_candidate base_slug album_path slug_cache) 1 j) = true.
Proof.
  set (n := size (occupied conn slug_cache)).
  set (c0 := first_candidate base_slug album_path slug_cache).
  destruct (existsb (fun j => is_free conn slug_cache
                                (candidate_at base_slug c0 1 j)) (seq 0 (S n)))
    eqn:Eb.
  { apply existsb_exists in Eb as (j&Hj%in_seq&Hfree).
    exists j. split; [lia|done]. }
  exfalso.
  assert (Hbusy : forall j, j < S n ->
            candidate_at base_slug c0 1 j ∈ occupied conn slug_cache).
  { intros j Hj. apply is_busy_spec.
    destruct (is_free conn slug_cache (candidate_at base_slug c0 1 j)) eqn:E;
      [|done].
    apply not_true_iff_false in Eb. exfalso. apply Eb.
    apply existsb_exists. exists j. split; [apply in_seq; lia|done]. }
  assert (Hlen := NoDup_within_size _ (occupied conn slug_cache)
                    (numbered_run_NoDup base_slug n)).
  simpl in Hlen. rewrite length_map, length_seq in Hlen.
  fold n in Hlen. enough (S n <= n) by lia. apply Hlen.
  intros x [->|Hx]%elem_of_cons.
  - assert (H0 := Hbusy 0 ltac:(lia)). simpl in H0. subst c0.
    unfold first_candidate in H0. case_bool_decide as Hin; [|done].
    unfold occupied. set_solver.
  - apply list_elem_of_In, in_map_iff in Hx as (j&<-&Hj%in_seq).
    rewrite <- (candidate_at_succ base_slug j c0 1). apply Hbusy. lia.
Qed.

(** More fuel than an iteration count that suffices changes nothing. *)
Lemma probe_more_fuel conn base_slug slug_cache fuel :
  forall candidate counter r fuel',
    probe fuel conn base_slug candidate counter slug_cache = Done r ->
    fuel <= fuel' ->
    probe fuel' conn base_slug candidate counter slug_cache = Done r.
Proof.
  induction fuel as [|fuel IH]; intros candidate counter r fuel' H Hle;
    [done|].
  destruct fuel' as [|fuel']; [lia|].
  rewrite probe_step in *.
  destruct (is_free conn slug_cache candidate); [done|].
  apply IH; [done|lia].
Qed.

(** [probe] never raises. *)
Lemma probe_no_raise conn base_slug slug_cache fuel :
  forall candidate counter e,
    probe fuel conn base_slug candidate counter slug_cache <> Raised e.
Proof.
  induction fuel as [|fuel IH]; intros candidate counter e; [done|].
  rewrite probe_step. destruct (is_free conn slug_cache candidate); [done|].
  apply IH.
Qed.

(** What a call of [ensure_unique_slug] returns. *)
Lemma ensure_unique_slug_spec conn base_slug album_path slug_cache :
  exists s j,
    ensure_unique_slug conn base_slug album_path slug_cache
    = Done (s, {[s]} ∪ slug_cache)
    /\ (s ∉ occupied conn slug_cache)
    /\ j <= size (occupied conn slug_cache)
    /\ s = candidate_at base_slug
             (first_candidate base_slug album_path slug_cache) 1 j.
Proof.
  destruct (least_index
              (fun j => is_free conn slug_cache
                 (candidate_at base_slug
                    (first_candidate base_slug album_path slug_cache) 1 j))
              (S (size (occupied conn slug_cache)))
              (free_candidate_exists conn base_slug album_path slug_cache))
    as (j&Hj&Hfree&Hbusy).
  eexists _, j. split; [|split; [|split; [|reflexivity]]].
  - unfold ensure_unique_slug, ensure_unique_slug_fuel.
    by apply probe_first_free.
  - by apply is_free_spec.
  - lia.
Qed.

(** C10, as the code has it.  [ensure_unique_slug] terminates: with one
    more iteration than there are occupied slugs (and with any larger
    fuel) the loop returns a slug that is free in the persisted store and
    in the known-slug set, and registers it.  The numbered candidates
    base-2, base-3, ... are pairwise distinct and differ from the base
    slug; nothing is said of the hash-disambiguated first candidate. *)
Theorem ensure_unique_slug_total (conn : Conn) (base_slug album_path : string)
    (slug_cache : gset string) :
  exists s,
    (forall fuel,
       S (size (occupied conn slug_cache)) <= fuel ->
       ensure_unique_slug_fuel fuel conn base_slug album_path slug_cache
       = Done (s, {[s]} ∪ slug_cache))
    /\ slug_exists conn s = false
    /\ (s ∉ slug_cache)
    /\ (forall j k, numbered base_slug j = numbered base_slug k -> j = k)
    /\ (forall k, numbered base_slug k <> base_slug).
Proof.
  destruct (ensure_unique_slug_spec conn base_slug album_path slug_cache)
    as (s&j&Hrun&Hfree&_&_).
  exists s. split; [|split; [|split; [|split]]].
  - intros fuel Hfuel. eapply probe_more_fuel; [exact Hrun|done].
  - apply is_free_spec in Hfree. unfold is_free in Hfree.
    apply andb_true_iff in Hfree as [H _]. by apply negb_true_iff in H.
  - unfold occupied in Hfree. set_solver.
  - apply numbered_inj.
  - apply numbered_ne_base.
Qed.


(** The list of examined candidates, position by position. *)
Lemma probed_lookup conn base_slug slug_cache j :
  forall fuel candidate counter,
    j < fuel ->
    (forall i, i < j ->
       is_free conn slug_cache (candidate_at base_slug candidate counter i) = false) ->
    probed fuel conn base_slug candidate counter slug_cache !! j
    = Some (candidate_at base_slug candidate counter j).
Proof.
  induction j as [|j IH]; intros fuel candidate counter Hlt Hbusy;
    (destruct fuel as [|fuel]; [lia|]); simpl; [done|].
  assert (H0 := Hbusy 0 ltac:(lia)). simpl in H0. rewrite H0.
  apply IH; [lia|]. intros i Hi. apply (Hbusy (S i)). lia.
Qed.

(** The slug returned is the last candidate examined. *)
Lemma probed_last conn base_slug slug_cache fuel :
  forall candidate counter s sc,
    probe fuel conn base_slug candidate counter slug_cache = Done (s, sc) ->
    List.last (probed fuel conn base_slug candidate counter slug_cache) "" = s.
Proof.
  induction fuel as [|fuel IH]; intros candidate counter s sc H; [done|].
  rewrite probe_step in H. simpl.
  destruct (is_free conn slug_cache candidate) eqn:E.
  - by inversion H.
  - assert (IH' := IH _ _ _ _ H).
    destruct (probed fuel conn base_slug _ _ slug_cache) eqn:Ep; [|done].
    destruct fuel; [done|]. simpl in Ep. discriminate.
Qed.


(** ** Per-file repair *)

Section Repair.
Variable now_at : nat -> string.
Variable guess_type : string -> option string.

(** What a repair does, in one equation. *)
Lemma repair_existing_file_eq fs c existing full_path rel_key target :
  repair_existing_file now_at guess_type fs c existing full_path rel_key target
  = match stat_size fs full_path with
    | None => Raised OSError
    | Some sz =>
        let t := repair_target existing target in
        let updated :=
          needs_update c existing t sz (PurePath.name full_path)
                       (guess_mime guess_type full_path) in
        if updated && negb (dry_run c)
        then Done (with_conn (read_clock c)
                     (update_file (conn c) (ExistingFileRow.id existing) t
                        (PurePath.name full_path) sz
                        (guess_mime guess_type full_path)
                        (now_at (clock_reads c))),
                   true)
        else Done (c, updated)
    end.
Proof.
  unfold repair_existing_file. destruct (stat_size fs full_path); [|done].
  simpl. destruct (needs_update _ _ _ _ _ _); simpl; [|done].
  by destruct (dry_run c).
Qed.

Lemma update_file_rows cn i a nm sz mime ts :
  Forall2 (fun r r' =>
             r' = r
             \/ (f_id r = i /\ r' = repaired_row a nm sz mime ts r))
          (files cn) (files (update_file cn i a nm sz mime ts)).
Proof.
  unfold update_file; simpl. induction (files cn) as [|r l IH]; simpl;
    constructor; [|done].
  destruct (String.eqb_spec (f_id r) i); auto.
Qed.

(** C5.  When no container is decided, the repair rewrites a stored row
    only with the container id of the item's own snapshot: every row after
    the repair is the row before it, or the row of the repaired item with
    [album_id] set to the snapshot's [album_id]; for a row that had an
    assignment (a non-empty id) and is the one the snapshot was taken
    from, the stored assignment itself is what stays. *)
Theorem repair_unattached_keeps_assignment (fs : FileSystem)
    (c : RecoveryContext) (existing : ExistingFileRow.t)
    (full_path : PurePath.t) (rel_key : string) :
  match repair_existing_file now_at guess_type fs c existing full_path
          rel_key None with
  | Done (c', updated) =>
      albums (conn c') = albums (conn c)
      /\ Forall2 (fun r r' =>
                    r' = r
                    \/ (f_id r = ExistingFileRow.id existing
                        /\ f_album_id r' = ExistingFileRow.album_id existing
                        /\ (existing = snapshot_of r ->
                            opt_truthy (f_album_id r) = true ->
                            f_album_id r' = f_album_id r)))
                 (files (conn c)) (files (conn c'))
  | Raised _ => stat_size fs full_path = None
  | Diverged => False
  end.
Proof.
  rewrite repair_existing_file_eq.
  destruct (stat_size fs full_path) as [sz|]; [|done]. simpl.
  destruct (needs_update _ _ _ _ _ _ && negb (dry_run c)).
  - split; [done|]. simpl.
    eapply Forall2_impl; [apply update_file_rows|].
    intros r r' [->|[Hid ->]]; [by left|right].
    split; [done|]. split; [done|]. intros -> Ht. simpl.
    destruct (f_album_id r) as [a|]; [|done]. simpl in Ht. by rewrite Ht.
  - split; [done|]. apply Forall2_same_length_lookup_2; [done|].
    intros i x y Hx Hy. left. congruence.
Qed.

(** C6, as the code has it.  An item whose stored container id is
    non-empty and unknown is updated by the repair whenever the file can be
    read: in a live run its row gets the decided container id when there
    is one, and keeps the stored (dangling) id when there is none. *)
Theorem repair_dangling (fs : FileSystem) (c : RecoveryContext)
    (existing : ExistingFileRow.t) (full_path : PurePath.t) (rel_key : string)
    (target : option string) (a : string) (sz : Z) :
  ExistingFileRow.album_id existing = Some a ->
  a <> "" ->
  a ∉ album_ids c ->
  stat_size fs full_path = Some sz ->
  exists c',
    repair_existing_file now_at guess_type fs c existing full_path rel_key
      target = Done (c', true)
    /\ (dry_run c = true -> c' = c)
    /\ (dry_run c = false ->
        conn c'
        = update_file (conn c) (ExistingFileRow.id existing)
            (match target with Some t => Some t | None => Some a end)
            (PurePath.name full_path) sz (guess_mime guess_type full_path)
            (now_at (clock_reads c))).
Proof.
  intros Ha Hne Hnotin Hstat. rewrite repair_existing_file_eq, Hstat. simpl.
  assert (Hneeds : forall t nm mime,
            needs_update c existing t sz nm mime = true).
  { intros t nm mime. unfold needs_update.
    apply orb_true_iff. right. unfold album_id_valid. rewrite Ha. simpl.
    apply andb_true_iff. split.
    - by apply negb_true_iff, String.eqb_neq.
    - by apply negb_true_iff, bool_decide_eq_false. }
  rewrite Hneeds. destruct (dry_run c) eqn:Ed; simpl.
  - exists c. repeat split; done.
  - eexists. split; [reflexivity|]. split; [done|]. intros _. simpl.
    unfold repair_target. rewrite Ha. by destruct target.
Qed.

(** C7.  A repair leaves the album table alone and, in every row of the
    file table, the pass-through columns and the identifying columns; the
    rows it rewrites are those of the repaired item.  When the stored size
    differs from the size on disk the repair of a live run does update, and
    the row then carries the size on disk. *)
Theorem repair_frame (fs : FileSystem) (c : RecoveryContext)
    (existing : ExistingFileRow.t) (full_path : PurePath.t) (rel_key : string)
    (target : option string) :
  match repair_existing_file now_at guess_type fs c existing full_path
          rel_key target with
  | Done (c', updated) =>
      albums (conn c') = albums (conn c)
      /\ List.map passthrough (files (conn c'))
         = List.map passthrough (files (conn c))
      /\ List.map identity_columns (files (conn c'))
         = List.map identity_columns (files (conn c))
      /\ Forall2 (fun r r' => r' = r \/ f_id r = ExistingFileRow.id existing)
                 (files (conn c)) (files (conn c'))
      /\ (forall sz,
            stat_size fs full_path = Some sz ->
            ExistingFileRow.size existing <> sz ->
            updated = true
            /\ (dry_run c = false ->
                Forall2 (fun r r' =>
                           if String.eqb (f_id r) (ExistingFileRow.id existing)
                           then f_size r' = sz
                                /\ f_tags r' = f_tags r
                                /\ f_caption r' = f_caption r
                           else r' = r)
                        (files (conn c)) (files (conn c'))))
  | Raised _ => stat_size fs full_path = None
  | Diverged => False
  end.
Proof.
  rewrite repair_existing_file_eq.
  destruct (stat_size fs full_path) as [sz|]; [|done]. simpl.
  set (t := repair_target existing target).
  set (nm := PurePath.name full_path).
  set (mime := guess_mime guess_type full_path).
  assert (Hsize : ExistingFileRow.size existing <> sz ->
                  needs_update c existing t sz nm mime = true).
  { intros Hne. unfold needs_update.
    rewrite !orb_true_iff. left. left. left. left. right.
    by apply negb_true_iff, Z.eqb_neq. }
  destruct (needs_update c existing t sz nm mime) eqn:En; simpl.
  - destruct (dry_run c) eqn:Ed; simpl.
    + do 3 (split; [done|]). split.
      * apply Forall2_same_length_lookup_2; [done|].
        intros i x y Hx Hy. left. congruence.
      * intros sz' _ _. split; [done|]. discriminate.
    + split; [done|]. split; [|split; [|split]].
      * rewrite map_map. apply map_ext. intros r.
        by destruct (String.eqb (f_id r) (ExistingFileRow.id existing)).
      * rewrite map_map. apply map_ext. intros r.
        by destruct (String.eqb (f_id r) (ExistingFileRow.id existing)).
      * eapply Forall2_impl; [apply update_file_rows|].
        intros r r' [->|[Hid _]]; auto.
      * intros sz' [= <-] Hne. split; [done|]. intros _.
        induction (files (conn c)) as [|r l IH]; simpl; constructor; [|done].
        by destruct (String.eqb (f_id r) (ExistingFileRow.id existing)).
  - do 3 (split; [done|]). split.
    + apply Forall2_same_length_lookup_2; [done|].
      intros i x y Hx Hy. left. congruence.
    + intros sz' [= <-] Hne. discriminate (Hsize Hne).
Qed.

End Repair.


(** ** The pre-flight test on the scan sub-directory *)

Lemma prefix_app (s t : string) : String.prefix s (s +:+ t) = true.
Proof.
  induction s as [|c s IH]; [by destruct t|].
  rewrite app_cons_str. simpl. destruct (ascii_dec c c); [done|congruence].
Qed.

Lemma prefix_eq_app (s t u : string) :
  t = s +:+ u -> String.prefix s t = true.
Proof. intros ->. apply prefix_app. Qed.

Lemma join_app sep (l1 l2 : list string) :
  l1 <> [] -> l2 <> [] ->
  Py.join sep (l1 ++ l2) = Py.join sep l1 +:+ sep +:+ Py.join sep l2.
Proof.
  intros H1 H2. induction l1 as [|x l1 IH]; [done|].
  destruct l1 as [|y l1].
  - simpl. by destruct l2.
  - change (Py.join sep ((x :: y :: l1) ++ l2)%list)
      with (x +:+ sep +:+ Py.join sep ((y :: l1) ++ l2)%list).
    rewrite IH by done. rewrite join_cons2. by rewrite !app_assoc_str.
Qed.

Lemma resolve_absolute cwd p :
  Py.truthy (PurePath.root cwd) = true ->
  Py.truthy (PurePath.root (PurePath.resolve cwd p)) = true.
Proof.
  intros H. unfold PurePath.resolve.
  destruct (Py.truthy (PurePath.root p)) eqn:E; simpl; done.
Qed.

Lemma to_string_absolute p :
  Py.truthy (PurePath.root p) = true ->
  PurePath.to_string p = PurePath.root p +:+ Py.join "/" (PurePath.parts p).
Proof.
  unfold PurePath.to_string. by destruct (PurePath.root p).
Qed.

Lemma inside_startswith p base :
  Py.truthy (PurePath.root base) = true ->
  inside p base ->
  Py.startswith (PurePath.to_string p) (PurePath.to_string base) = true.
Proof.
  intros Hb [Hroot (rest&Hparts)].
  rewrite !to_string_absolute by congruence.
  rewrite Hroot, Hparts. unfold Py.startswith.
  destruct rest as [|x rest].
  { rewrite app_nil_r. apply prefix_eq_app with (u := ""). by rewrite app_nil_r_str. }
  destruct (PurePath.parts base) as [|b bs] eqn:Eb.
  - apply prefix_eq_app with (u := Py.join "/" (x :: rest)).
    change (Py.join "/" []) with "". by rewrite app_nil_r_str.
  - rewrite join_app by done.
    apply prefix_eq_app with (u := "/" +:+ Py.join "/" (x :: rest)).
    by rewrite app_assoc_str.
Qed.

Lemma uploads_dir_absolute args fs :
  Py.truthy (PurePath.root (uploads_dir_of args fs)) = true.
Proof. by apply resolve_absolute. Qed.

(** A scan root inside the uploads directory passes the test. *)
Lemma subdir_inside_passes args fs :
  inside (scan_root_of args fs) (uploads_dir_of args fs) ->
  subdir_check args fs = true.
Proof.
  intros H. unfold subdir_check.
  destruct (Py.truthy (Args.subdir args)); [|done].
  apply inside_startswith; [apply uploads_dir_absolute|done].
Qed.


(** ** The segment loop of the hierarchy builder *)

Section Chain.
Variable uuid4_at : nat -> string.
Variable now_at : nat -> string.

Lemma ensure_unique_slug_alloc cn base_slug album_path slug_cache :
  ensure_unique_slug cn base_slug album_path slug_cache
  = Done (alloc_slug cn base_slug album_path slug_cache,
          {[alloc_slug cn base_slug album_path slug_cache]} ∪ slug_cache)
  /\ alloc_slug cn base_slug album_path slug_cache ∉ occupied cn slug_cache.
Proof.
  destruct (ensure_unique_slug_spec cn base_slug album_path slug_cache)
    as (s&j&Hrun&Hfree&_&_).
  unfold alloc_slug. rewrite Hrun. done.
Qed.

Lemma alloc_slug_not_stored cn base_slug album_path slug_cache :
  slug_exists cn (alloc_slug cn base_slug album_path slug_cache) = false.
Proof.
  destruct (ensure_unique_slug_alloc cn base_slug album_path slug_cache)
    as [_ H].
  apply is_free_spec in H. unfold is_free in H.
  apply andb_true_iff in H as [H _]. by apply negb_true_iff in H.
Qed.

(** One iteration of the loop, in one equation. *)
Lemma chain_step_eq c parent_id current segment :
  chain_step uuid4_at now_at c parent_id current segment
  = let cur := next_current current segment in
    if live_b (album_cache c) cur
    then Done (c, album_cache c !! cur, cur)
    else if dry_run c || negb (id_exists (conn c) (uuid4_at (uuid_draws c)))
    then Done (created uuid4_at now_at c parent_id cur segment,
               Some (uuid4_at (uuid_draws c)), cur)
    else Raised IntegrityError.
Proof.
  unfold chain_step, next_current, live_b. simpl.
  set (cur := if Py.truthy current then _ else _).
  destruct (match album_cache c !! cur with
            | Some e => Py.truthy e | None => false end); [done|].
  simpl.
  destruct (ensure_unique_slug_alloc (conn c) (slugify segment) cur
              (slug_cache c)) as [-> _].
  simpl. unfold persist_album, created. simpl.
  destruct (dry_run c) eqn:Ed; simpl.
  { unfold register_album; simpl. by rewrite Ed. }
  unfold insert_album. simpl. rewrite alloc_slug_not_stored, orb_false_r.
  fold (id_exists (conn c) (uuid4_at (uuid_draws c))).
  destruct (id_exists (conn c) (uuid4_at (uuid_draws c))); simpl; [done|].
  unfold register_album; simpl. by rewrite Ed.
Qed.

Lemma next_current_nonempty current segment :
  next_current current segment <> "".
Proof.
  unfold next_current, Py.truthy. destruct current; simpl; discriminate.
Qed.

Lemma created_lookup c parent_id current segment :
  album_cache (created uuid4_at now_at c parent_id current segment) !! current
  = Some (uuid4_at (uuid_draws c)).
Proof. unfold created; simpl. apply lookup_insert_eq. Qed.

(** The outcome of one iteration. *)
Lemma chain_step_done c parent_id current segment c' parent_id' current' :
  chain_step uuid4_at now_at c parent_id current segment
  = Done (c', parent_id', current') ->
  current' = next_current current segment
  /\ album_cache c' !! current' = parent_id'
  /\ is_Some parent_id'
  /\ (c' = c /\ live c current'
      \/ c' = created uuid4_at now_at c parent_id current' segment
         /\ ctx_step uuid4_at now_at c c').
Proof.
  rewrite chain_step_eq. simpl.
  destruct (live_b (album_cache c) (next_current current segment)) eqn:El.
  - intros [= <- <- <-]. split; [done|]. split; [done|]. split.
    + unfold live_b in El. destruct (album_cache c !! _); [eauto|done].
    + left. done.
  - destruct (dry_run c || negb (id_exists (conn c) (uuid4_at (uuid_draws c))))
      eqn:Eok; [|done].
    intros [= <- <- <-]. split; [done|]. split; [apply created_lookup|].
    split; [eauto|]. right. split; [done|].
    apply step_create.
    + apply next_current_nonempty.
    + unfold live. by rewrite El.
    + intros Ed. rewrite Ed in Eok. simpl in Eok. by apply negb_true_iff.
Qed.

Lemma chain_step_not_diverged c parent_id current segment :
  chain_step uuid4_at now_at c parent_id current segment <> Diverged.
Proof.
  rewrite chain_step_eq. simpl.
  destruct (live_b _ _); [done|]. by destruct (_ || _).
Qed.

End Chain.


Section ChainLoop.
Variable uuid4_at : nat -> string.
Variable now_at : nat -> string.

Lemma step_dom c c' :
  ctx_step uuid4_at now_at c c' ->
  dom (album_cache c) ⊆ dom (album_cache c').
Proof.
  destruct 1; simpl; try done. rewrite dom_insert_L. set_solver.
Qed.

Lemma steps_dom c c' :
  rtc (ctx_step uuid4_at now_at) c c' ->
  dom (album_cache c) ⊆ dom (album_cache c').
Proof.
  induction 1 as [|c1 c2 c3 H12 _ IH]; [done|].
  etrans; [by apply step_dom|done].
Qed.

Lemma chain_step_steps c parent_id current segment c' parent_id' current' :
  chain_step uuid4_at now_at c parent_id current segment
  = Done (c', parent_id', current') ->
  rtc (ctx_step uuid4_at now_at) c c'.
Proof.
  intros H. apply chain_step_done in H as (_&_&_&[[-> _]|[_ Hs]]).
  - apply rtc_refl.
  - by apply rtc_once.
Qed.

(** The loop over the segments: the contexts it goes through, the value of
    [current] it ends with, and the cache entries it leaves behind. *)
Lemma chain_loop_done segments :
  forall c parent_id current c' parent_id' current',
    chain_loop uuid4_at now_at c parent_id current segments
    = Done (c', parent_id', current') ->
    rtc (ctx_step uuid4_at now_at) c c'
    /\ current' = fold_left next_current segments current
    /\ match segments with
       | [] => c' = c /\ parent_id' = parent_id
       | _ => album_cache c' !! current' = parent_id' /\ is_Some parent_id'
       end
    /\ (forall k, 0 < k <= length segments ->
          fold_left next_current (take k segments) current
          ∈ dom (album_cache c')).
Proof.
  induction segments as [|segment rest IH];
    intros c parent_id current c' parent_id' current' H.
  - simpl in H. injection H as <- <- <-.
    split; [apply rtc_refl|]. split; [done|]. split; [done|].
    simpl. intros k Hk. lia.
  - simpl in H.
    destruct (chain_step uuid4_at now_at c parent_id current segment)
      as [[[c1 p1] cur1]| |] eqn:E1; simpl in H; try done.
    assert (Hs1 := chain_step_steps _ _ _ _ _ _ _ E1).
    apply chain_step_done in E1 as (Hcur1&Hlook1&Hsome1&_).
    apply IH in H as (Hs&Hcur&Hlast&Hpre).
    split; [by etrans|]. subst cur1. split; [done|]. split.
    + destruct rest as [|s2 rest'].
      * destruct Hlast as [-> ->]. simpl in Hcur. by subst current'.
      * done.
    + intros k Hk. destruct k as [|k]; [lia|]. simpl.
      destruct k as [|k].
      * rewrite take_0. simpl. apply (steps_dom _ _ Hs).
        apply elem_of_dom. by rewrite Hlook1.
      * apply (Hpre (S k)). simpl in Hk. lia.
Qed.

Lemma chain_loop_not_diverged segments :
  forall c parent_id current,
    chain_loop uuid4_at now_at c parent_id current segments <> Diverged.
Proof.
  induction segments as [|segment rest IH]; intros c parent_id current;
    [done|].
  simpl.
  destruct (chain_step uuid4_at now_at c parent_id current segment)
    as [[[c1 p1] cur1]| |] eqn:E1; simpl; [apply IH|done|].
  by apply chain_step_not_diverged in E1.
Qed.

End ChainLoop.


(** ** Normalised album paths *)

Lemma split_pieces sep s : Forall (no_char sep) (Py.split sep s).
Proof.
  induction s as [|c s IH]; simpl.
  - repeat constructor.
  - destruct (Ascii.eqb_spec c sep).
    + constructor; [constructor|done].
    + destruct (Py.split sep s) as [|w ws]; [repeat constructor; done|].
      inversion IH; subst. constructor; [|done].
      apply no_char_cons. done.
Qed.

Lemma path_segments_ok p : Forall segment_ok (path_segments p).
Proof.
  unfold path_segments. apply List.Forall_forall. intros x Hx.
  apply filter_In in Hx as [Hin Ht]. split.
  - unfold Py.truthy in Ht. apply negb_true_iff in Ht.
    by apply String.eqb_neq.
  - clear Ht. revert x Hin. apply List.Forall_forall, split_pieces.
Qed.

Lemma join_tail x l : Py.join "/" (x :: l) = x +:+ tail_str l.
Proof.
  revert x. induction l as [|y l IH]; intros x.
  - simpl. by rewrite app_nil_r_str.
  - rewrite join_cons2, IH. done.
Qed.

Lemma next_current_truthy current segment :
  current <> "" ->
  next_current current segment = current +:+ "/" +:+ segment.
Proof. unfold next_current, Py.truthy. by destruct current. Qed.

Lemma fold_next_current l :
  forall current,
    current <> "" ->
    fold_left next_current l current = current +:+ tail_str l.
Proof.
  induction l as [|x l IH]; intros current Hc; simpl.
  - by rewrite app_nil_r_str.
  - rewrite IH by apply next_current_nonempty.
    rewrite next_current_truthy by done.
    by rewrite !app_assoc_str.
Qed.

(** [current] after the loop has gone through the segments [l]. *)
Lemma fold_next_current_start l :
  l <> [] -> fold_left next_current l "" = "/" +:+ Py.join "/" l.
Proof.
  destruct l as [|x l]; [done|]. intros _.
  change (fold_left next_current (x :: l) "")
    with (fold_left next_current l (next_current "" x)).
  rewrite fold_next_current by apply next_current_nonempty.
  rewrite join_tail.
  change (next_current "" x) with ("/" +:+ x).
  by rewrite app_assoc_str.
Qed.

Lemma segment_ok_first_last l :
  l <> [] -> Forall segment_ok l ->
  Py.strip Py.is_slash ("/" +:+ Py.join "/" l) = Py.join "/" l.
Proof.
  intros Hl H. unfold Py.strip.
  change (Py.lstrip Py.is_slash ("/" +:+ Py.join "/" l))
    with (Py.lstrip Py.is_slash (Py.join "/" l)).
  destruct l as [|x l]; [done|].
  assert (Hx : segment_ok x) by (by inversion H).
  assert (Hfirst : Py.lstrip Py.is_slash (Py.join "/" (x :: l))
                   = Py.join "/" (x :: l)).
  { destruct (join_head "/" x l) as (c&s&Ex&->); [apply Hx|].
    destruct Hx as [_ Hx]. rewrite Ex, no_char_cons in Hx.
    apply lstrip_id. unfold Py.is_slash.
    destruct (Ascii.eqb_spec c "/"); [tauto|done]. }
  rewrite Hfirst. apply rstrip_id.
  assert (Hlast : segment_ok (List.last (x :: l) "")).
  { by apply Forall_last_elem. }
  destruct (join_last "/" (x :: l)) as [_ ->]; [done|apply Hlast|].
  destruct (no_char_last "/" _ (proj2 Hlast)) as (a&->&Ha); [apply Hlast|].
  unfold Py.is_slash. destruct (Ascii.eqb_spec a "/"); [tauto|done].
Qed.

(** The segments the loop of [ensure_album_chain] iterates over. *)
Lemma loop_segments p :
  Py.split "/" (Py.strip Py.is_slash (normalize_album_path p))
  = match path_segments p with [] => [""] | l => l end.
Proof.
  unfold normalize_album_path.
  assert (H := path_segments_ok p).
  destruct (path_segments p) as [|x l] eqn:E; [done|].
  rewrite segment_ok_first_last by done.
  apply split_join; [done|].
  eapply Forall_impl; [exact H|]. by intros y [_ Hy].
Qed.

(** The loop ends with [current] equal to the normalised path. *)
Lemma loop_current p :
  fold_left next_current
    (Py.split "/" (Py.strip Py.is_slash (normalize_album_path p))) ""
  = normalize_album_path p.
Proof.
  rewrite loop_segments. unfold normalize_album_path.
  destruct (path_segments p) as [|x l] eqn:E; [done|].
  by apply fold_next_current_start.
Qed.

(** A path joined from proper segments is its own normal form. *)
Lemma path_segments_joined l :
  l <> [] -> Forall segment_ok l ->
  path_segments ("/" +:+ Py.join "/" l) = l.
Proof.
  intros Hl H. unfold path_segments.
  rewrite segment_ok_first_last by done.
  rewrite split_join; [|done|eapply Forall_impl; [exact H|by intros y [_ Hy]]].
  apply filter_all. eapply Forall_impl; [exact H|].
  intros y [Hy _]. unfold Py.truthy.
  by apply negb_true_iff, String.eqb_neq.
Qed.

Lemma normalize_joined l :
  l <> [] -> Forall segment_ok l ->
  normalize_album_path ("/" +:+ Py.join "/" l) = "/" +:+ Py.join "/" l.
Proof.
  intros Hl H. unfold normalize_album_path. by rewrite path_segments_joined.
Qed.


(** ** The hierarchy builder *)

Section EnsureChain.
Variable uuid4_at : nat -> string.
Variable now_at : nat -> string.

Lemma ensure_album_chain_root c p :
  p = "" \/ p = "/" ->
  ensure_album_chain uuid4_at now_at c p = Done (c, None).
Proof. by intros [-> | ->]. Qed.

Lemma root_test_false p :
  p <> "" -> p <> "/" -> negb (Py.truthy p) || String.eqb p "/" = false.
Proof.
  intros H1 H2. apply orb_false_iff. split.
  - apply negb_false_iff. unfold Py.truthy.
    by apply negb_true_iff, String.eqb_neq.
  - by apply String.eqb_neq.
Qed.

Lemma root_test_true p :
  negb (Py.truthy p) || String.eqb p "/" = true -> p = "" \/ p = "/".
Proof.
  intros [H|H]%orb_true_iff.
  - left. unfold Py.truthy in H. rewrite negb_involutive in H.
    by apply String.eqb_eq.
  - right. by apply String.eqb_eq.
Qed.

(** A path whose normal form is in the path cache is answered from the
    cache, and the context stays as it is. *)
Lemma ensure_album_chain_hit c p e :
  p <> "" -> p <> "/" ->
  album_cache c !! normalize_album_path p = Some e ->
  ensure_album_chain uuid4_at now_at c p = Done (c, Some e).
Proof.
  intros H1 H2 He. unfold ensure_album_chain.
  rewrite root_test_false by done. by rewrite He.
Qed.

Lemma ensure_album_chain_done c p c' r :
  ensure_album_chain uuid4_at now_at c p = Done (c', r) ->
  rtc (ctx_step uuid4_at now_at) c c'
  /\ ((p = "" \/ p = "/") /\ c' = c /\ r = None
      \/ p <> "" /\ p <> "/"
         /\ album_cache c' !! normalize_album_path p = r
         /\ is_Some r
         /\ (normalize_album_path p ∈ dom (album_cache c) -> c' = c)
         /\ (normalize_album_path p ∉ dom (album_cache c) ->
             forall k, 0 < k <= length (path_segments p) ->
               "/" +:+ Py.join "/" (take k (path_segments p))
               ∈ dom (album_cache c'))).
Proof.
  unfold ensure_album_chain.
  destruct (negb (Py.truthy p) || String.eqb p "/") eqn:Er.
  { intros [= <- <-]. split; [apply rtc_refl|]. left.
    split; [by apply root_test_true|done]. }
  assert (p <> "" /\ p <> "/") as [H1 H2].
  { apply orb_false_iff in Er as [Ea Eb]. split.
    - intros ->. done.
    - by apply String.eqb_neq. }
  destruct (album_cache c !! normalize_album_path p) as [hit|] eqn:Eh.
  { intros [= <- <-]. split; [apply rtc_refl|]. right.
    do 2 (split; [done|]). split; [done|]. split; [eauto|].
    split; [done|]. intros Hn. exfalso. apply Hn.
    apply elem_of_dom. eauto. }
  destruct (chain_loop uuid4_at now_at c None "" _)
    as [[[c1 p1] cur1]| |] eqn:El; simpl; try done.
  intros [= <- <-].
  apply chain_loop_done in El as (Hs&Hcur&Hlast&Hpre).
  rewrite loop_current in Hcur. subst cur1.
  split; [done|]. right. do 2 (split; [done|]).
  assert (Hsome : album_cache c1 !! normalize_album_path p = p1 /\ is_Some p1).
  { rewrite loop_segments in Hlast.
    destruct (path_segments p) as [|x l]; exact Hlast. }
  destruct Hsome as [Hlook Hsome].
  split; [done|]. split; [by rewrite Hlook|]. split.
  - intros Hin. apply elem_of_dom in Hin as [e He]. congruence.
  - intros _ k Hk. rewrite loop_segments in Hpre.
    destruct (path_segments p) as [|x l] eqn:Ep; [simpl in Hk; lia|].
    specialize (Hpre k Hk).
    rewrite fold_next_current_start in Hpre; [done|].
    destruct k; [lia|done].
Qed.

Lemma ensure_album_chain_not_diverged c p :
  ensure_album_chain uuid4_at now_at c p <> Diverged.
Proof.
  unfold ensure_album_chain.
  destruct (negb (Py.truthy p) || String.eqb p "/"); [done|].
  destruct (album_cache c !! normalize_album_path p); [done|].
  destruct (chain_loop uuid4_at now_at c None "" _)
    as [[[c1 p1] cur1]| |] eqn:El; simpl; try done.
  by apply chain_loop_not_diverged in El.
Qed.

End EnsureChain.


(** ** Containers are created once *)

Section Extends.
Variable uuid4_at : nat -> string.
Variable now_at : nat -> string.
Hypothesis uuid_ok : uuid_nonempty uuid4_at.

Lemma extends_refl c : extends c c [].
Proof.
  constructor.
  - done.
  - done.
  - simpl. lia.
  - constructor.
  - intros x Hx. by apply elem_of_nil in Hx.
  - intros x Hx. by apply elem_of_nil in Hx.
  - done.
  - intros x. rewrite elem_of_nil. tauto.
  - destruct (dry_run c); by rewrite app_nil_r.
  - done.
  - done.
  - done.
  - done.
Qed.

Lemma live_stable c c' new x :
  extends c c' new -> live c x -> live c' x.
Proof.
  intros H. unfold live, live_b.
  destruct (album_cache c !! x) as [e|] eqn:E; [|done]. intros He.
  rewrite (ext_stable _ _ _ H x e E); [done|].
  intros ->. done.
Qed.

Lemma extends_trans c1 c2 c3 new1 new2 :
  extends c1 c2 new1 -> extends c2 c3 new2 ->
  extends c1 c3 (new1 ++ new2).
Proof.
  intros H1 H2. constructor.
  - rewrite (ext_dry _ _ _ H2). apply H1.
  - rewrite (ext_public _ _ _ H2). apply H1.
  - rewrite (ext_created _ _ _ H2), (ext_created _ _ _ H1), length_app. lia.
  - apply NoDup_app. split; [apply H1|]. split; [|apply H2].
    intros x Hx1 Hx2. apply (ext_fresh _ _ _ H2 x Hx2).
    by apply (ext_live _ _ _ H1).
  - intros x [Hx|Hx]%elem_of_app.
    + by apply (ext_fresh _ _ _ H1).
    + intros Hl. apply (ext_fresh _ _ _ H2 x Hx).
      by apply (live_stable _ _ _ _ H1).
  - intros x [Hx|Hx]%elem_of_app.
    + apply (live_stable _ _ _ _ H2). by apply (ext_live _ _ _ H1).
    + by apply (ext_live _ _ _ H2).
  - intros x e He Hne. apply (ext_stable _ _ _ H2); [|done].
    by apply (ext_stable _ _ _ H1).
  - intros x. rewrite (ext_dom _ _ _ H2), (ext_dom _ _ _ H1), elem_of_app.
    tauto.
  - rewrite (ext_paths _ _ _ H2), (ext_paths _ _ _ H1), (ext_dry _ _ _ H1).
    destruct (dry_run c1); by rewrite <- ?app_assoc.
  - intros Hd. rewrite (ext_preview _ _ _ H2), (ext_preview _ _ _ H1); try done.
    by rewrite (ext_dry _ _ _ H1).
  - etrans; [apply H1|apply H2].
  - etrans; [apply H1|apply H2].
  - etrans; [apply H1|apply H2].
Qed.

Lemma extends_created c parent_id current segment :
  ~ live c current ->
  extends c (created uuid4_at now_at c parent_id current segment) [current].
Proof using uuid_ok.
  intros Hnl. constructor; simpl.
  - done.
  - done.
  - lia.
  - apply NoDup_singleton.
  - by intros x ->%list_elem_of_singleton.
  - intros x ->%list_elem_of_singleton. unfold live, live_b. simpl.
    rewrite lookup_insert_eq. unfold Py.truthy.
    by apply negb_true_iff, String.eqb_neq.
  - intros x e He Hne. rewrite lookup_insert_ne; [done|].
    intros <-. apply Hnl. unfold live, live_b. rewrite He.
    unfold Py.truthy. by apply negb_true_iff, String.eqb_neq.
  - intros x. rewrite dom_insert_L, elem_of_union, elem_of_singleton,
      list_elem_of_singleton. tauto.
  - destruct (dry_run c); simpl; [by rewrite app_nil_r|].
    by rewrite map_app.
  - by intros ->.
  - set_solver.
  - set_solver.
  - lia.
Qed.

Lemma extends_same_albums c c' :
  dry_run c' = dry_run c ->
  public_albums c' = public_albums c ->
  album_cache c' = album_cache c ->
  slug_cache c' = slug_cache c ->
  album_ids c' = album_ids c ->
  created_albums c' = created_albums c ->
  uuid_draws c <= uuid_draws c' ->
  albums (conn c') = albums (conn c) ->
  (dry_run c = true -> conn c' = conn c) ->
  extends c c' [].
Proof.
  intros Hd Hp Hc Hs Hi Hn Hu Ha Hpre. constructor.
  - done.
  - done.
  - rewrite Hn. simpl. lia.
  - constructor.
  - intros x Hx. by apply elem_of_nil in Hx.
  - intros x Hx. by apply elem_of_nil in Hx.
  - intros x e. by rewrite Hc.
  - intros x. rewrite Hc, elem_of_nil. tauto.
  - rewrite Ha. destruct (dry_run c); by rewrite app_nil_r.
  - done.
  - by rewrite Hs.
  - by rewrite Hi.
  - done.
Qed.

Lemma step_extends c c' :
  ctx_step uuid4_at now_at c c' -> exists new, extends c c' new.
Proof using uuid_ok.
  destruct 1 as [c parent_id current segment Hne Hnl Hid
                |c i a nm sz mime Hd|c row cn Hd Hins|c|c].
  - eexists. by apply extends_created.
  - exists []. apply extends_same_albums; simpl; try done. congruence.
  - exists []. apply extends_same_albums; simpl; try done.
    + unfold insert_file in Hins.
      destruct (_ || _); [done|]. by injection Hins as <-.
    + congruence.
  - exists []. apply extends_same_albums; simpl; auto.
  - exists []. apply extends_same_albums; simpl; auto.
Qed.

Lemma steps_extends c c' :
  rtc (ctx_step uuid4_at now_at) c c' -> exists new, extends c c' new.
Proof using uuid_ok.
  induction 1 as [c|c1 c2 c3 H12 _ [new2 IH]].
  - exists []. apply extends_refl.
  - destruct (step_extends _ _ H12) as [new1 H1].
    exists (new1 ++ new2)%list. by eapply extends_trans.
Qed.

End Extends.


(** ** The walk, as a sequence of context steps *)

Section WalkSteps.
Variable uuid4_at : nat -> string.
Variable now_at : nat -> string.
Variable guess_type : string -> option string.

Lemma step_dry c c' :
  ctx_step uuid4_at now_at c c' -> dry_run c' = dry_run c.
Proof. by destruct 1. Qed.

Lemma steps_dry c c' :
  rtc (ctx_step uuid4_at now_at) c c' -> dry_run c' = dry_run c.
Proof.
  induction 1 as [|c1 c2 c3 H12 _ IH]; [done|].
  rewrite IH. by apply step_dry.
Qed.

Lemma repair_steps fs c existing full_path rel_key target c' b :
  repair_existing_file now_at guess_type fs c existing full_path rel_key target
  = Done (c', b) ->
  rtc (ctx_step uuid4_at now_at) c c'.
Proof.
  rewrite repair_existing_file_eq.
  destruct (stat_size fs full_path) as [sz|]; [|done]. simpl.
  destruct (needs_update _ _ _ _ _ _); simpl.
  - destruct (dry_run c) eqn:Ed; simpl; intros [= <- <-].
    + apply rtc_refl.
    + apply rtc_once. by apply step_update.
  - intros [= <- <-]. apply rtc_refl.
Qed.

Lemma repair_not_diverged fs c existing full_path rel_key target :
  repair_existing_file now_at guess_type fs c existing full_path rel_key target
  <> Diverged.
Proof.
  rewrite repair_existing_file_eq.
  destruct (stat_size fs full_path) as [sz|]; [|done]. simpl.
  by destruct (_ && _).
Qed.

Lemma handle_existing_done args fs existing_files s full_path rel_key aid s' :
  handle_existing now_at guess_type args fs existing_files s full_path
    rel_key aid = Done s' ->
  rtc (ctx_step uuid4_at now_at) (ctx s) (ctx s')
  /\ existing_keys s' = existing_keys s
  /\ inserted_files s' = inserted_files s
  /\ scanned s' = scanned s
  /\ skipped_non_image s' = skipped_non_image s
  /\ skipped_existing s' = S (skipped_existing s).
Proof.
  unfold handle_existing.
  destruct (Args.repair_existing args).
  - destruct (existing_files !! rel_key) as [existing|].
    + simpl.
      destruct (repair_existing_file now_at guess_type fs (ctx s) existing
                  full_path rel_key aid) as [[c b]| |] eqn:Er; try done.
      * apply repair_steps in Er.
        destruct b; intros [= <-]; simpl; done.
      * intros [= <-]. simpl. split; [apply rtc_refl|done].
    + intros [= <-]. simpl. split; [apply rtc_refl|done].
  - intros [= <-]. simpl. split; [apply rtc_refl|done].
Qed.

Lemma handle_existing_not_diverged args fs existing_files s full_path
    rel_key aid :
  handle_existing now_at guess_type args fs existing_files s full_path
    rel_key aid <> Diverged.
Proof.
  unfold handle_existing.
  destruct (Args.repair_existing args); [|done].
  destruct (existing_files !! rel_key) as [existing|]; [|done].
  simpl.
  destruct (repair_existing_file now_at guess_type fs (ctx s) existing
              full_path rel_key aid) as [[c []]| |] eqn:Er; try done.
  by apply repair_not_diverged in Er.
Qed.

Lemma handle_new_steps args fs s full_path rel_key aid :
  dry_run (ctx s) = Args.dry_run args ->
  rtc (ctx_step uuid4_at now_at) (ctx s)
      (ctx (handle_new uuid4_at now_at guess_type args fs s full_path
              rel_key aid)).
Proof.
  intros Hd. unfold handle_new.
  destruct (stat_size fs full_path) as [sz|]; [|apply rtc_refl]. simpl.
  assert (Hs : rtc (ctx_step uuid4_at now_at) (ctx s)
                   (read_clock (draw_uuid (ctx s)))).
  { eapply rtc_l; [apply step_draw|]. apply rtc_once, step_clock. }
  destruct (Args.dry_run args) eqn:Ea; [exact Hs|].
  destruct (insert_file _ _) as [cn|] eqn:Ei; simpl; [|exact Hs].
  eapply rtc_r; [exact Hs|].
  eapply (step_insert _ _ (read_clock (draw_uuid (ctx s))) _ cn); [exact Hd|exact Ei].
Qed.

Lemma album_id_for_done c album_path c' aid :
  album_id_for uuid4_at now_at c album_path = Done (c', aid) ->
  rtc (ctx_step uuid4_at now_at) c c'
  /\ (c' = c /\ aid = None
      /\ (album_path = None \/ album_path = Some "" \/ album_path = Some "/")
      \/ exists p, album_path = Some p /\ p <> "" /\ p <> "/"
           /\ ensure_album_chain uuid4_at now_at c p = Done (c', aid)).
Proof.
  unfold album_id_for. destruct album_path as [p|].
  - destruct (Py.truthy p) eqn:Et.
    + intros H. split; [by apply ensure_album_chain_done in H as [H _]|].
      destruct (String.eqb_spec p "/") as [->|Hne].
      * simpl in H. injection H as <- <-. left. auto.
      * right. exists p. repeat split; try done.
        intros ->. done.
    + intros [= <- <-]. split; [apply rtc_refl|]. left.
      unfold Py.truthy in Et. apply negb_false_iff, String.eqb_eq in Et.
      subst. auto.
  - intros [= <- <-]. split; [apply rtc_refl|]. left. auto.
Qed.

Lemma album_id_for_not_diverged c album_path :
  album_id_for uuid4_at now_at c album_path <> Diverged.
Proof.
  unfold album_id_for. destruct album_path as [p|]; [|done].
  destruct (Py.truthy p); [|done]. apply ensure_album_chain_not_diverged.
Qed.

Lemma process_file_steps args fs uploads_dir existing_files s full_path s' :
  dry_run (ctx s) = Args.dry_run args ->
  process_file uuid4_at now_at guess_type args fs uploads_dir existing_files
    s full_path = Done s' ->
  rtc (ctx_step uuid4_at now_at) (ctx s) (ctx s').
Proof.
  intros Hd. unfold process_file.
  destruct (normalize_rel_key full_path uploads_dir) as [rel_key| |];
    simpl; try done.
  destruct (negb (is_image_file guess_type full_path)).
  { intros [= <-]. apply rtc_refl. }
  destruct (decide_album_path rel_key (Args.album_mode args))
    as [album_path| |]; simpl; try done.
  destruct (album_id_for uuid4_at now_at (ctx s) album_path)
    as [[c aid]| |] eqn:Echain; simpl; try done.
  assert (Hchain : rtc (ctx_step uuid4_at now_at) (ctx s) c).
  { by apply album_id_for_done in Echain as [Echain _]. }
  case_bool_decide as Hkey.
  - intros H. apply handle_existing_done in H as [H _]. simpl in H.
    by etrans.
  - intros [= <-]. etrans; [exact Hchain|].
    apply (handle_new_steps args fs (with_ctx (count_scanned s) c)).
    simpl. rewrite <- Hd. by apply steps_dry.
Qed.

Lemma walk_steps args fs uploads_dir existing_files paths :
  forall s s',
    dry_run (ctx s) = Args.dry_run args ->
    walk uuid4_at now_at guess_type args fs uploads_dir existing_files s paths
    = Done s' ->
    rtc (ctx_step uuid4_at now_at) (ctx s) (ctx s').
Proof.
  induction paths as [|p rest IH]; intros s s' Hd; simpl.
  - intros [= <-]. apply rtc_refl.
  - destruct (process_file _ _ _ _ _ _ _ s p) as [s1| |] eqn:E1; simpl;
      try done.
    intros H. apply process_file_steps in E1; [|done].
    etrans; [exact E1|]. apply IH; [|done].
    rewrite <- Hd. by apply steps_dry.
Qed.

End WalkSteps.


(** ** At-most-once hierarchy creation *)

Section AtMostOnce.
Variable uuid4_at : nat -> string.
Variable now_at : nat -> string.
Variable guess_type : string -> option string.

Lemma ensure_album_chain_again c p c1 r :
  ensure_album_chain uuid4_at now_at c p = Done (c1, r) ->
  ensure_album_chain uuid4_at now_at c1 p = Done (c1, r).
Proof.
  intros H. apply ensure_album_chain_done in H as [_ H].
  destruct H as [(Hroot&->&->)|(H1&H2&Hlook&[e He]&_)].
  - by apply ensure_album_chain_root.
  - subst r. rewrite He. by apply ensure_album_chain_hit.
Qed.

Lemma joined_not_root l :
  l <> [] -> Forall segment_ok l ->
  "/" +:+ Py.join "/" l <> "" /\ "/" +:+ Py.join "/" l <> "/".
Proof.
  intros Hl H. split; [done|].
  destruct l as [|x l]; [done|]. rewrite join_tail.
  inversion H as [|? ? [Hx _] _]; subst.
  destruct x; [done|]. discriminate.
Qed.

Lemma ensure_album_chain_prefix c p c1 r k :
  ensure_album_chain uuid4_at now_at c p = Done (c1, r) ->
  normalize_album_path p ∉ dom (album_cache c) ->
  0 < k <= length (path_segments p) ->
  exists e,
    ensure_album_chain uuid4_at now_at c1
      ("/" +:+ Py.join "/" (take k (path_segments p)))
    = Done (c1, Some e).
Proof.
  intros H Hmiss Hk. apply ensure_album_chain_done in H as [_ H].
  destruct H as [(Hroot&->&->)|(H1&H2&_&_&_&Hpre)].
  { exfalso. destruct Hroot as [-> | ->]; simpl in Hk; lia. }
  specialize (Hpre Hmiss k Hk).
  assert (Hne : take k (path_segments p) <> []).
  { destruct k; [lia|]. destruct (path_segments p); [simpl in Hk; lia|done]. }
  assert (Hok : Forall segment_ok (take k (path_segments p))).
  { apply Forall_take, path_segments_ok. }
  apply elem_of_dom in Hpre as [e He]. exists e.
  destruct (joined_not_root _ Hne Hok) as [Ha Hb].
  apply ensure_album_chain_hit; [done|done|].
  by rewrite normalize_joined.
Qed.

(** C3.  An empty or root path yields no container and leaves the context
    alone.  A call repeated on the context a first call returned gives the
    same result and changes nothing; so does a call for any path whose
    normal form is in the path cache, in particular for every prefix of
    a chain that a call has built.  In a whole run the created-count
    grows by the length of a duplicate-free list of paths, none of which
    had a live cache entry before and all of which have one after; in a
    live run these are the paths of the rows added to the album table. *)
Theorem ensure_album_chain_at_most_once :
  uuid_nonempty uuid4_at ->
  (forall c,
     ensure_album_chain uuid4_at now_at c "" = Done (c, None)
     /\ ensure_album_chain uuid4_at now_at c "/" = Done (c, None))
  /\ (forall c p c1 r,
        ensure_album_chain uuid4_at now_at c p = Done (c1, r) ->
        ensure_album_chain uuid4_at now_at c1 p = Done (c1, r))
  /\ (forall c q e,
        q <> "" -> q <> "/" ->
        album_cache c !! normalize_album_path q = Some e ->
        ensure_album_chain uuid4_at now_at c q = Done (c, Some e))
  /\ (forall c p c1 r k,
        ensure_album_chain uuid4_at now_at c p = Done (c1, r) ->
        normalize_album_path p ∉ dom (album_cache c) ->
        0 < k <= length (path_segments p) ->
        exists e,
          ensure_album_chain uuid4_at now_at c1
            ("/" +:+ Py.join "/" (take k (path_segments p)))
          = Done (c1, Some e))
  /\ (forall args fs uploads_dir existing_files s paths s',
        dry_run (ctx s) = Args.dry_run args ->
        walk uuid4_at now_at guess_type args fs uploads_dir existing_files
             s paths = Done s' ->
        exists new,
          NoDup new
          /\ created_albums (ctx s') = created_albums (ctx s) + length new
          /\ List.map a_path (albums (conn (ctx s')))
             = (List.map a_path (albums (conn (ctx s)))
                ++ if Args.dry_run args then [] else new)%list
          /\ forall x, x ∈ new -> ~ live (ctx s) x /\ live (ctx s') x).
Proof.
  intros Hne. split; [|split; [|split; [|split]]].
  - intros c. split; by apply ensure_album_chain_root; auto.
  - apply ensure_album_chain_again.
  - intros c q e. apply ensure_album_chain_hit.
  - apply ensure_album_chain_prefix.
  - intros args fs uploads_dir existing_files s paths s' Hd Hw.
    apply walk_steps in Hw; [|done].
    destruct (steps_extends _ _ Hne _ _ Hw) as [new Hext].
    exists new. split; [apply Hext|]. split; [apply Hext|]. split.
    + rewrite (ext_paths _ _ _ Hext). by rewrite Hd.
    + intros x Hx. split; [by apply (ext_fresh _ _ _ Hext)|].
      by apply (ext_live _ _ _ Hext).
Qed.

End AtMostOnce.


(** ** The script always terminates *)

Section Total.
Variable uuid4_at : nat -> string.
Variable now_at : nat -> string.
Variable guess_type : string -> option string.

Lemma process_file_not_diverged args fs uploads_dir existing_files s full_path :
  process_file uuid4_at now_at guess_type args fs uploads_dir existing_files
    s full_path <> Diverged.
Proof.
  unfold process_file.
  destruct (normalize_rel_key full_path uploads_dir) as [rel_key| |] eqn:En;
    simpl; try done.
  { destruct (negb (is_image_file guess_type full_path)); [done|].
    destruct (decide_album_path rel_key (Args.album_mode args))
      as [album_path| |] eqn:Ed; simpl; try done.
    - destruct (album_id_for uuid4_at now_at (ctx s) album_path)
        as [[c aid]| |] eqn:Echain; simpl; try done.
      + case_bool_decide; [apply handle_existing_not_diverged|done].
      + by apply album_id_for_not_diverged in Echain.
    - unfold decide_album_path in Ed.
      repeat (destruct (String.eqb _ _) in Ed; try done).
      by destruct (looks_like_sharded_upload rel_key). }
  unfold normalize_rel_key in En. by destruct (PurePath.relative_to _ _).
Qed.

Lemma walk_not_diverged args fs uploads_dir existing_files paths :
  forall s,
    walk uuid4_at now_at guess_type args fs uploads_dir existing_files s paths
    <> Diverged.
Proof.
  induction paths as [|p rest IH]; intros s; simpl; [done|].
  destruct (process_file _ _ _ _ _ _ _ s p) as [s1| |] eqn:E1; simpl;
    [apply IH|done|].
  by apply process_file_not_diverged in E1.
Qed.

(** [recover] returns an exit status on every input. *)
Lemma recover_total args fs db0 seed :
  exists r, recover uuid4_at now_at guess_type args fs db0 seed = Done r.
Proof.
  unfold recover.
  destruct (negb (subdir_check args fs)); [eauto|].
  destruct (negb (is_dir fs (uploads_dir_of args fs))); [eauto|].
  destruct (negb (is_dir fs (scan_root_of args fs))); [eauto|].
  destruct (initial_state args db0 seed) as [s0 existing_files].
  destruct (walk _ _ _ _ _ _ _ s0 _) as [s| |] eqn:Ew; [eauto|eauto|].
  by apply walk_not_diverged in Ew.
Qed.

End Total.


(** ** The loaded snapshot *)

Lemma fold_load_album_cache rows :
  forall acc p,
    let res := fold_left load_album rows acc in
    (p ∈ dom res.1.1 <->
     p ∈ dom acc.1.1 \/ exists r, r ∈ rows /\ a_path r = p /\ p <> "")
    /\ (forall i, res.1.1 !! p = Some i ->
          acc.1.1 !! p = Some i \/ exists r, r ∈ rows /\ a_path r = p /\ a_id r = i).
Proof.
  induction rows as [|row rest IH]; intros [[ac sc] ids] p; simpl.
  - split; [|auto]. split; [auto|]. intros [H|(r&Hr&_)]; [done|].
    by apply elem_of_nil in Hr.
  - specialize (IH (load_album (ac, sc, ids) row) p). simpl in IH.
    destruct IH as [IHd IHv]. unfold Py.truthy in *.
    destruct (String.eqb_spec (a_path row) "") as [E|E]; simpl in *.
    + split.
      * rewrite IHd. split.
        -- intros [H|(r&Hr&Hp&Hne)]; [by left|right].
           exists r. split; [by apply elem_of_cons; right|done].
        -- intros [H|(r&[->|Hr]%elem_of_cons&Hp&Hne)]; [by left| |].
           ++ congruence.
           ++ right. eauto.
      * intros i Hi. destruct (IHv i Hi) as [H|(r&Hr&Hp&Hid)]; [by left|].
        right. exists r. split; [by apply elem_of_cons; right|done].
    + split.
      * rewrite IHd, dom_insert_L, elem_of_union, elem_of_singleton. split.
        -- intros [[->|H]|(r&Hr&Hp&Hne)].
           ++ right. exists row. split; [by apply elem_of_cons; left|done].
           ++ by left.
           ++ right. exists r. split; [by apply elem_of_cons; right|done].
        -- intros [H|(r&[->|Hr]%elem_of_cons&Hp&Hne)].
           ++ left. by right.
           ++ left. by left.
           ++ right. eauto.
      * intros i Hi. destruct (IHv i Hi) as [H|(r&Hr&Hp&Hid)].
        -- destruct (decide (a_path row = p)) as [<-|Hn].
           ++ rewrite lookup_insert_eq in H. injection H as <-.
              right. exists row. split; [by apply elem_of_cons; left|done].
           ++ rewrite lookup_insert_ne in H by done. by left.
        -- right. exists r. split; [by apply elem_of_cons; right|done].
Qed.

Lemma fold_load_file_keys rows :
  forall acc x,
    x ∈ (fold_left load_file rows acc).1 <->
    x ∈ acc.1 \/ x ∈ List.map f_key rows.
Proof.
  induction rows as [|row rest IH]; intros [keys fm] x; simpl.
  - rewrite elem_of_nil. tauto.
  - rewrite IH. simpl. rewrite elem_of_union, elem_of_singleton, elem_of_cons.
    tauto.
Qed.

Lemma load_existing_state_eq db :
  load_existing_state db
  = ((fold_left load_album (albums db) (∅, ∅, ∅)).1.1,
     (fold_left load_album (albums db) (∅, ∅, ∅)).1.2,
     (fold_left load_file (files db) (∅, ∅)).1,
     (fold_left load_file (files db) (∅, ∅)).2,
     (fold_left load_album (albums db) (∅, ∅, ∅)).2).
Proof.
  unfold load_existing_state.
  destruct (fold_left load_album _ _) as [[ac sc] ids].
  by destruct (fold_left load_file _ _) as [keys fm].
Qed.

(** The state a run starts from, field by field. *)
Lemma initial_state_eq args db seed :
  initial_state args db seed
  = (MkWalk (MkCtx db (Args.dry_run args) (Args.public_albums args)
               (fold_left load_album (albums db) (∅, ∅, ∅)).1.1
               (fold_left load_album (albums db) (∅, ∅, ∅)).1.2
               (fold_left load_album (albums db) (∅, ∅, ∅)).2
               0 seed.1 seed.2)
            (fold_left load_file (files db) (∅, ∅)).1 0 0 0 0 0 0,
     (fold_left load_file (files db) (∅, ∅)).2).
Proof. unfold initial_state. by rewrite load_existing_state_eq. Qed.

Lemma loaded_cache_dom args db seed p :
  p ∈ dom (album_cache (ctx (initial_state args db seed).1)) <->
  exists r, r ∈ albums db /\ a_path r = p /\ p <> "".
Proof.
  rewrite initial_state_eq. simpl.
  destruct (fold_load_album_cache (albums db) (∅, ∅, ∅) p) as [H _].
  simpl in H. rewrite H, dom_empty_L, elem_of_empty. tauto.
Qed.

Lemma loaded_cache_value args db seed p i :
  album_cache (ctx (initial_state args db seed).1) !! p = Some i ->
  exists r, r ∈ albums db /\ a_path r = p /\ a_id r = i.
Proof.
  rewrite initial_state_eq. simpl. intros Hi.
  destruct (fold_load_album_cache (albums db) (∅, ∅, ∅) p) as [_ H].
  destruct (H i Hi) as [H0|H0]; [|done]. simpl in H0.
  by rewrite lookup_empty in H0.
Qed.

Lemma loaded_keys args db seed x :
  x ∈ existing_keys (initial_state args db seed).1 <->
  x ∈ List.map f_key (files db).
Proof.
  rewrite initial_state_eq. simpl. rewrite fold_load_file_keys. simpl.
  rewrite elem_of_empty. tauto.
Qed.

Lemma initial_state_fields args db seed :
  let s0 := (initial_state args db seed).1 in
  conn (ctx s0) = db /\ dry_run (ctx s0) = Args.dry_run args
  /\ created_albums (ctx s0) = 0 /\ uuid_draws (ctx s0) = seed.1
  /\ inserted_files s0 = 0 /\ skipped_existing s0 = 0
  /\ repaired_existing s0 = 0 /\ scanned s0 = 0
  /\ skipped_non_image s0 = 0 /\ failed_files s0 = 0.
Proof. rewrite initial_state_eq. simpl. repeat split. Qed.


(** ** Uniqueness of paths and slugs *)

Lemma id_exists_spec cn i :
  id_exists cn i = false <-> i ∉ List.map a_id (albums cn).
Proof.
  unfold id_exists. rewrite <- not_true_iff_false, existsb_exists.
  rewrite list_elem_of_In, in_map_iff. split.
  - intros Hn (r&E&Hr). apply Hn. exists r. split; [done|].
    by apply String.eqb_eq.
  - intros Hn (r&Hr&E%String.eqb_eq). apply Hn. eauto.
Qed.

Lemma slug_exists_spec_false cn s :
  slug_exists cn s = false -> s ∉ List.map a_slug (albums cn).
Proof.
  intros H Hin. apply slug_exists_spec in Hin. congruence.
Qed.

Lemma NoDup_snoc {A} (l : list A) (x : A) :
  NoDup l -> x ∉ l -> NoDup (l ++ [x]).
Proof.
  intros Hl Hx. apply NoDup_app. split; [done|]. split.
  - intros y Hy ->%list_elem_of_singleton. done.
  - apply NoDup_singleton.
Qed.

Lemma allocate_many_spec requests :
  forall slug_cache,
  exists slugs slug_cache',
    allocate_many requests slug_cache = Done (slugs, slug_cache')
    /\ NoDup slugs
    /\ slug_cache ⊆ slug_cache'
    /\ forall s, s ∈ slugs -> (s ∉ slug_cache) /\ s ∈ slug_cache'.
Proof.
  induction requests as [|[[cn base_slug] album_path] rest IH];
    intros slug_cache; simpl.
  - exists [], slug_cache. split; [done|]. split; [constructor|].
    split; [done|]. intros s Hs. by apply elem_of_nil in Hs.
  - destruct (ensure_unique_slug_alloc cn base_slug album_path slug_cache)
      as [-> Hfree].
    set (s0 := alloc_slug cn base_slug album_path slug_cache) in *.
    simpl.
    destruct (IH ({[s0]} ∪ slug_cache)) as (slugs&sc'&->&Hnd&Hsub&Hall).
    simpl. exists (s0 :: slugs), sc'. split; [done|].
    assert (Hs0 : s0 ∉ slug_cache).
    { intros Hin. apply Hfree. unfold occupied. apply elem_of_union. by left. }
    split; [|split].
    + apply NoDup_cons. split; [|done]. intros Hin.
      destruct (Hall _ Hin) as [Hn _]. apply Hn, elem_of_union. left.
      by apply elem_of_singleton.
    + etrans; [|exact Hsub]. apply union_subseteq_r.
    + intros s [->|Hs]%elem_of_cons.
      * split; [done|]. apply Hsub, elem_of_union. left.
        by apply elem_of_singleton.
      * destruct (Hall _ Hs) as [Hn Hin]. split; [|done].
        intros Hc. apply Hn, elem_of_union. by right.
Qed.

Section Uniqueness.
Variable uuid4_at : nat -> string.
Variable now_at : nat -> string.
Variable guess_type : string -> option string.
Hypothesis uuid_ok : uuid_nonempty uuid4_at.

Lemma inv_created c parent_id current segment :
  ctx_inv c ->
  current <> "" ->
  ~ live c current ->
  (dry_run c = false -> id_exists (conn c) (uuid4_at (uuid_draws c)) = false) ->
  ctx_inv (created uuid4_at now_at c parent_id current segment).
Proof using uuid_ok.
  intros [[Hp Hs Hi Hne] Hc] Hcne Hnl Hid.
  assert (Hext := extends_created uuid4_at now_at uuid_ok c parent_id
                    current segment Hnl).
  assert (Hcur : current ∉ List.map a_path (albums (conn c))).
  { intros Hin. apply list_elem_of_In, in_map_iff in Hin as (r&E&Hr).
    apply Hnl. rewrite <- E. apply Hc; [by apply list_elem_of_In|].
    by rewrite E. }
  assert (Hold : forall r, r ∈ albums (conn c) -> a_path r <> "" ->
            live (created uuid4_at now_at c parent_id current segment)
                 (a_path r)).
  { intros r Hr Hr'. apply (live_stable _ _ _ _ Hext). by apply Hc. }
  split.
  - unfold created; simpl. destruct (dry_run c) eqn:Ed; [done|]. simpl.
    constructor; simpl; rewrite ?map_app; simpl.
    + by apply NoDup_snoc.
    + apply NoDup_snoc; [done|]. apply slug_exists_spec_false.
      apply alloc_slug_not_stored.
    + apply NoDup_snoc; [done|]. apply id_exists_spec. by apply Hid.
    + apply Forall_app. split; [done|]. constructor; [apply uuid_ok|done].
  - intros r Hr Hr'.
    assert (r ∈ albums (conn c) \/ a_path r = current) as [H|H].
    { revert Hr. unfold created; simpl. destruct (dry_run c); [by left|].
      simpl. intros [H|H%list_elem_of_singleton]%elem_of_app; [by left|].
      right. by subst r. }
    + by apply Hold.
    + rewrite H. apply (ext_live _ _ _ Hext). by apply list_elem_of_singleton.
Qed.

Lemma inv_step c c' :
  ctx_step uuid4_at now_at c c' -> ctx_inv c -> ctx_inv c'.
Proof using uuid_ok.
  destruct 1 as [c parent_id current segment Hne Hnl Hid
                |c i a nm sz mime Hd|c row cn Hd Hins|c|c]; intros Hinv.
  - by apply inv_created.
  - destruct Hinv as [[Hp Hs Hi Hn] Hc]. by repeat split.
  - assert (Ha : albums cn = albums (conn c)).
    { unfold insert_file in Hins. destruct (_ || _); [done|].
      by injection Hins as <-. }
    destruct Hinv as [[Hp Hs Hi Hn] Hc].
    split; [split|]; simpl; rewrite ?Ha; try done.
  - destruct Hinv as [[Hp Hs Hi Hn] Hc]. by repeat split.
  - destruct Hinv as [[Hp Hs Hi Hn] Hc]. by repeat split.
Qed.

Lemma inv_steps c c' :
  rtc (ctx_step uuid4_at now_at) c c' -> ctx_inv c -> ctx_inv c'.
Proof using uuid_ok.
  induction 1 as [|c1 c2 c3 H12 _ IH]; [done|].
  intros H. by apply IH, (inv_step _ _ H12).
Qed.

Lemma initial_inv args db seed :
  store_wf db -> ctx_inv (ctx (initial_state args db seed).1).
Proof.
  intros Hwf. split.
  - by rewrite (proj1 (initial_state_fields args db seed)).
  - rewrite (proj1 (initial_state_fields args db seed)).
    intros r Hr Hne.
    assert (Hd : a_path r ∈ dom (album_cache (ctx (initial_state args db seed).1))).
    { apply loaded_cache_dom. eauto. }
    apply elem_of_dom in Hd as [i Hi]. unfold live, live_b. rewrite Hi.
    apply loaded_cache_value in Hi as (r'&Hr'&_&<-).
    unfold Py.truthy. apply negb_true_iff, String.eqb_neq.
    revert r' Hr'. apply Forall_forall, Hwf.
Qed.

(** A run leaves the album table well-formed. *)
Lemma recover_preserves_wf args fs db0 seed res :
  store_wf db0 ->
  recover uuid4_at now_at guess_type args fs db0 seed = Done res ->
  store_wf (store res).
Proof using uuid_ok.
  intros Hwf. unfold recover.
  destruct (negb (subdir_check args fs)); [by intros [= <-]|].
  destruct (negb (is_dir fs (uploads_dir_of args fs))); [by intros [= <-]|].
  destruct (negb (is_dir fs (scan_root_of args fs))); [by intros [= <-]|].
  assert (Hinv := initial_inv args db0 seed Hwf).
  assert (Hdry := proj1 (proj2 (initial_state_fields args db0 seed))).
  destruct (initial_state args db0 seed) as [s0 existing_files].
  simpl in Hinv, Hdry.
  destruct (walk _ _ _ _ _ _ _ s0 _) as [s| |] eqn:Ew;
    [|by intros [= <-]|done].
  intros [= <-]. simpl. apply walk_steps in Ew; [|done].
  by apply (inv_steps _ _ Ew).
Qed.

Lemma recover_many_wf runs :
  forall db0,
    store_wf db0 ->
    exists db,
      recover_many uuid4_at now_at guess_type runs db0 = Done db
      /\ store_wf db.
Proof using uuid_ok.
  induction runs as [|[[args fs] seed] rest IH]; intros db0 Hwf; simpl.
  - eauto.
  - destruct (recover_total uuid4_at now_at guess_type args fs db0 seed)
      as [r Hr].
    rewrite Hr. simpl. apply IH. by eapply recover_preserves_wf.
Qed.

End Uniqueness.

(** C4.  Provided [uuid4] never returns the empty string: whatever runs
    are made one after the other on a store whose album table is
    well-formed (unique paths, unique slugs, unique non-empty
    identifiers), each run ends and the table is well-formed after the
    last; a call of [ensure_unique_slug] returns a slug that is neither
    persisted nor known and has added it to the known-slug set on
    return; and the slugs returned by any calls that share the known-slug
    set of one run are pairwise distinct, whatever the store holds at each
    call. *)
Theorem uniqueness_invariant (uuid4_at now_at : nat -> string)
    (guess_type : string -> option string) :
  uuid_nonempty uuid4_at ->
  (forall db0 runs,
     store_wf db0 ->
     exists db,
       recover_many uuid4_at now_at guess_type runs db0 = Done db
       /\ store_wf db)
  /\ (forall cn base_slug album_path slug_cache,
        exists s,
          ensure_unique_slug cn base_slug album_path slug_cache
          = Done (s, {[s]} ∪ slug_cache)
          /\ (s ∉ slug_cache) /\ slug_exists cn s = false)
  /\ (forall requests slug_cache,
        exists slugs slug_cache',
          allocate_many requests slug_cache = Done (slugs, slug_cache')
          /\ NoDup slugs
          /\ forall s, s ∈ slugs -> (s ∉ slug_cache) /\ s ∈ slug_cache').
Proof.
  intros Hne. split; [|split].
  - intros db0 runs Hwf. by apply recover_many_wf.
  - intros cn base_slug album_path slug_cache.
    destruct (ensure_unique_slug_alloc cn base_slug album_path slug_cache)
      as [Hrun Hfree].
    eexists. split; [exact Hrun|]. split.
    + intros Hin. apply Hfree. unfold occupied. apply elem_of_union. by left.
    + apply alloc_slug_not_stored.
  - intros requests slug_cache.
    destruct (allocate_many_spec requests slug_cache)
      as (slugs&sc'&Hrun&Hnd&_&Hall).
    eauto.
Qed.



(** ** What a committed live run leaves behind *)

Lemma update_file_keys cn i a nm sz mime ts :
  List.map f_key (files (update_file cn i a nm sz mime ts))
  = List.map f_key (files cn).
Proof.
  unfold update_file; simpl. rewrite map_map. apply map_ext.
  intros r. by destruct (String.eqb (f_id r) i).
Qed.

Section Stored.
Variable uuid4_at : nat -> string.
Variable now_at : nat -> string.
Variable guess_type : string -> option string.

Lemma step_paths_stored c c' :
  ctx_step uuid4_at now_at c c' ->
  dry_run c = false -> paths_stored c -> paths_stored c'.
Proof.
  destruct 1 as [c parent_id current segment Hne Hnl Hid
                |c i a nm sz mime Hd|c row cn Hd Hins|c|c];
    intros Hdry Hp; try done.
  - intros x. unfold created; simpl. rewrite Hdry. simpl.
    rewrite dom_insert_L, map_app, elem_of_union, elem_of_singleton,
      elem_of_app. simpl.
    intros [->|Hx]; [right; by apply list_elem_of_singleton|left; by apply Hp].
  - intros x Hx. simpl.
    assert (Ha : albums cn = albums (conn c)).
    { unfold insert_file in Hins. destruct (_ || _); [done|].
      by injection Hins as <-. }
    rewrite Ha. by apply Hp.
Qed.

Lemma steps_paths_stored c c' :
  rtc (ctx_step uuid4_at now_at) c c' ->
  dry_run c = false -> paths_stored c -> paths_stored c'.
Proof.
  induction 1 as [|c1 c2 c3 H12 _ IH]; [done|]. intros Hd Hp.
  apply IH.
  - by rewrite (step_dry _ _ _ _ H12).
  - by apply (step_paths_stored _ _ H12).
Qed.

(** The branch for a cataloged key touches neither the caches nor the
    album table, and keeps the keys of the file table. *)
Lemma handle_existing_frame args fs existing_files s full_path rel_key aid s' :
  handle_existing now_at guess_type args fs existing_files s full_path
    rel_key aid = Done s' ->
  album_cache (ctx s') = album_cache (ctx s)
  /\ created_albums (ctx s') = created_albums (ctx s)
  /\ dry_run (ctx s') = dry_run (ctx s)
  /\ albums (conn (ctx s')) = albums (conn (ctx s))
  /\ List.map f_key (files (conn (ctx s')))
     = List.map f_key (files (conn (ctx s))).
Proof.
  unfold handle_existing.
  destruct (Args.repair_existing args); [|by intros [= <-]].
  destruct (existing_files !! rel_key) as [existing|]; [|by intros [= <-]].
  simpl. rewrite repair_existing_file_eq.
  destruct (stat_size fs full_path) as [sz|]; [|by intros [= <-]].
  simpl. destruct (needs_update _ _ _ _ _ _ && negb (dry_run (ctx s))).
  - intros [= <-]. do 4 (split; [done|]).
    exact (update_file_keys (conn (ctx s)) _ _ _ _ _ _).
  - destruct (needs_update _ _ _ _ _ _); by intros [= <-].
Qed.

End Stored.

(** ** The hierarchy builder leaves the file table alone *)

Section ChainFiles.
Variable uuid4_at : nat -> string.
Variable now_at : nat -> string.

Lemma created_files c parent_id current segment :
  files (conn (created uuid4_at now_at c parent_id current segment))
  = files (conn c).
Proof. unfold created; simpl. by destruct (dry_run c). Qed.

Lemma chain_loop_files segments :
  forall c parent_id current c' parent_id' current',
    chain_loop uuid4_at now_at c parent_id current segments
    = Done (c', parent_id', current') ->
    files (conn c') = files (conn c).
Proof.
  induction segments as [|segment rest IH];
    intros c parent_id current c' parent_id' current'; simpl.
  - by intros [= <- <- <-].
  - destruct (chain_step uuid4_at now_at c parent_id current segment)
      as [[[c1 p1] cur1]| |] eqn:E1; simpl; try done.
    intros H. apply IH in H. rewrite H.
    apply chain_step_done in E1 as (_&_&_&[[-> _]|[-> _]]); [done|].
    apply created_files.
Qed.

Lemma ensure_album_chain_files c p c' r :
  ensure_album_chain uuid4_at now_at c p = Done (c', r) ->
  files (conn c') = files (conn c).
Proof.
  unfold ensure_album_chain.
  destruct (negb (Py.truthy p) || String.eqb p "/"); [by intros [= <- <-]|].
  destruct (album_cache c !! normalize_album_path p); [by intros [= <- <-]|].
  destruct (chain_loop uuid4_at now_at c None "" _)
    as [[[c1 p1] cur1]| |] eqn:El; simpl; try done.
  intros [= <- <-]. by apply chain_loop_files in El.
Qed.

Lemma album_id_for_files c album_path c' aid :
  album_id_for uuid4_at now_at c album_path = Done (c', aid) ->
  files (conn c') = files (conn c).
Proof.
  unfold album_id_for. destruct album_path as [p|]; [|by intros [= <- <-]].
  destruct (Py.truthy p); [|by intros [= <- <-]].
  apply ensure_album_chain_files.
Qed.

(** After the decided path has been resolved, its normal form is in the
    path cache. *)
Lemma album_id_for_cached c album_path c' aid :
  album_id_for uuid4_at now_at c album_path = Done (c', aid) ->
  chain_cached c' album_path.
Proof.
  intros H. apply album_id_for_done in H as [_ H].
  destruct H as [(_&_&[-> | [-> | ->]])|(p&->&H1&H2&H)]; simpl; try done.
  intros _ _. apply ensure_album_chain_done in H as [_ H].
  destruct H as [([?|?]&_)|(_&_&Hl&[e He]&_)]; [done|done|].
  apply elem_of_dom. exists e. by rewrite Hl.
Qed.

End ChainFiles.

(** ** A preview and a live run, side by side *)

Lemma probe_agree cn1 cn2 base_slug slug_cache fuel :
  (forall x, is_free cn1 slug_cache x = is_free cn2 slug_cache x) ->
  forall candidate counter,
    probe fuel cn1 base_slug candidate counter slug_cache
    = probe fuel cn2 base_slug candidate counter slug_cache.
Proof.
  intros Hfree. induction fuel as [|fuel IH]; intros candidate counter;
    [done|].
  rewrite !probe_step, Hfree. by rewrite IH.
Qed.

Lemma ensure_unique_slug_agree cn1 cn2 base_slug album_path slug_cache :
  occupied cn1 slug_cache = occupied cn2 slug_cache ->
  ensure_unique_slug cn1 base_slug album_path slug_cache
  = ensure_unique_slug cn2 base_slug album_path slug_cache.
Proof.
  intros Ho. unfold ensure_unique_slug, ensure_unique_slug_fuel. rewrite Ho.
  apply probe_agree. intros x.
  destruct (is_free cn1 slug_cache x) eqn:E1.
  - symmetry. apply is_free_spec. rewrite <- Ho. by apply is_free_spec.
  - symmetry. apply is_busy_spec. rewrite <- Ho. by apply is_busy_spec.
Qed.

Lemma occupied_elem cn slug_cache x :
  x ∈ occupied cn slug_cache <-> x ∈ slug_cache \/ slug_exists cn x = true.
Proof.
  unfold occupied. rewrite elem_of_union, elem_of_list_to_set.
  by rewrite slug_exists_spec.
Qed.

Section Preview.
Variable uuid4_at : nat -> string.
Variable now_at : nat -> string.
Variable guess_type : string -> option string.
Variable seed : nat.
Variable db0 : Conn.
Hypothesis fresh : uuid_fresh uuid4_at seed db0.

Lemma sim_occupied keys cl cd :
  ctx_sim uuid4_at seed db0 keys cl cd ->
  occupied (conn cl) (slug_cache cl) = occupied (conn cd) (slug_cache cd).
Proof.
  intros [Hs Hl Hp Hc]. apply set_eq. intros x.
  rewrite !occupied_elem, Hc, <- (sc_slug_cache _ _ Hs). split.
  - intros [H|H]; [by left|]. destruct (li_slugs _ _ _ _ _ Hl x H); auto.
  - intros [H|H]; [by left|]. right. by apply (li_slugs0 _ _ _ _ _ Hl).
Qed.

Lemma sim_alloc_slug keys cl cd base_slug album_path :
  ctx_sim uuid4_at seed db0 keys cl cd ->
  alloc_slug (conn cl) base_slug album_path (slug_cache cl)
  = alloc_slug (conn cd) base_slug album_path (slug_cache cd).
Proof.
  intros H. unfold alloc_slug.
  rewrite (ensure_unique_slug_agree (conn cl) (conn cd) _ _ _
             (eq_trans (sim_occupied _ _ _ H)
                (f_equal _ (eq_sym (sc_slug_cache _ _ (cs_same _ _ _ _ _ _ H)))))).
  by rewrite (sc_slug_cache _ _ (cs_same _ _ _ _ _ _ H)).
Qed.

(** An identifier drawn now is not in the album table of the live run. *)
Lemma sim_fresh_album_id keys cl cd :
  ctx_sim uuid4_at seed db0 keys cl cd ->
  id_exists (conn cl) (uuid4_at (uuid_draws cl)) = false.
Proof using fresh.
  intros [Hs Hl Hp Hc]. apply id_exists_spec.
  intros Hin. apply list_elem_of_In, in_map_iff in Hin as (r&E&Hr).
  apply list_elem_of_In in Hr.
  assert (Hseed := li_seed _ _ _ _ _ Hl).
  destruct (li_album_ids _ _ _ _ _ Hl r Hr) as [H0|(i&Hi&Ei)].
  - rewrite E in H0. by apply (fresh_albums _ _ _ fresh _ Hseed).
  - rewrite E in Ei.
    apply (fresh_inj _ _ _ fresh) in Ei; [lia|lia|lia].
Qed.


Lemma slug_exists_snoc cn files' row x :
  slug_exists (MkConn (albums cn ++ [row]) files') x
  = slug_exists cn x || String.eqb (a_slug row) x.
Proof.
  unfold slug_exists; simpl. rewrite existsb_app. simpl.
  by rewrite orb_false_r.
Qed.

Lemma sim_created keys cl cd parent_id current segment :
  ctx_sim uuid4_at seed db0 keys cl cd ->
  ctx_sim uuid4_at seed db0 keys
    (created uuid4_at now_at cl parent_id current segment)
    (created uuid4_at now_at cd parent_id current segment).
Proof.
  intros H. assert (Ha := sim_alloc_slug _ _ _ (slugify segment) current H).
  destruct H as [Hs Hl Hp Hc]. destruct Hs as [Hs1 Hs2 Hs3 Hs4 Hs5 Hs6].
  assert (Hd := li_dry _ _ _ _ _ Hl).
  constructor.
  - constructor; unfold created; simpl; congruence.
  - unfold created. rewrite Hd. constructor; simpl.
    + done.
    + intros x. rewrite slug_exists_snoc. simpl.
      intros [Hx|Hx%String.eqb_eq]%orb_true_iff.
      * destruct (li_slugs _ _ _ _ _ Hl x Hx) as [H0|H0]; [by left|].
        right. apply elem_of_union. by right.
      * right. apply elem_of_union. left. by apply elem_of_singleton.
    + intros x Hx. rewrite slug_exists_snoc.
      by rewrite (li_slugs0 _ _ _ _ _ Hl x Hx).
    + intros r [Hr|Hr%list_elem_of_singleton]%elem_of_app.
      * destruct (li_album_ids _ _ _ _ _ Hl r Hr) as [H0|(i&Hi&Ei)];
          [by left|].
        right. exists i. split; [lia|done].
      * right. exists (uuid_draws cl). subst r. simpl.
        assert (Hseed := li_seed _ _ _ _ _ Hl). split; [lia|done].
    + intros r Hr.
      destruct (li_file_ids _ _ _ _ _ Hl r Hr) as [H0|(i&Hi&Ei)]; [by left|].
      right. exists i. split; [lia|done].
    + apply Hl.
    + assert (Hseed := li_seed _ _ _ _ _ Hl). lia.
  - unfold created; simpl. done.
  - unfold created; simpl. by rewrite Hp.
Qed.

Lemma sim_chain_step keys cl cd parent_id current segment :
  ctx_sim uuid4_at seed db0 keys cl cd ->
  exists cl' cd' parent_id' current',
    chain_step uuid4_at now_at cl parent_id current segment
    = Done (cl', parent_id', current')
    /\ chain_step uuid4_at now_at cd parent_id current segment
       = Done (cd', parent_id', current')
    /\ ctx_sim uuid4_at seed db0 keys cl' cd'.
Proof using fresh.
  intros H. rewrite !chain_step_eq. simpl.
  assert (Hid := sim_fresh_album_id _ _ _ H).
  assert (Hc := sc_album_cache _ _ (cs_same _ _ _ _ _ _ H)).
  assert (Hu := sc_draws _ _ (cs_same _ _ _ _ _ _ H)).
  rewrite <- Hc.
  destruct (live_b (album_cache cl) (next_current current segment)).
  - eauto 10.
  - rewrite Hid, (cs_preview _ _ _ _ _ _ H), orb_true_r. simpl.
    rewrite <- Hu. do 4 eexists. split; [done|]. split; [done|].
    by apply sim_created.
Qed.

Lemma sim_chain_loop keys segments :
  forall cl cd parent_id current,
    ctx_sim uuid4_at seed db0 keys cl cd ->
    exists cl' cd' parent_id' current',
      chain_loop uuid4_at now_at cl parent_id current segments
      = Done (cl', parent_id', current')
      /\ chain_loop uuid4_at now_at cd parent_id current segments
         = Done (cd', parent_id', current')
      /\ ctx_sim uuid4_at seed db0 keys cl' cd'.
Proof using fresh.
  induction segments as [|segment rest IH]; intros cl cd parent_id current H;
    simpl.
  - eauto 10.
  - destruct (sim_chain_step keys cl cd parent_id current segment H)
      as (cl1&cd1&p1&cur1&->&->&H1).
    simpl. by apply IH.
Qed.

Lemma sim_ensure_album_chain keys cl cd p :
  ctx_sim uuid4_at seed db0 keys cl cd ->
  exists cl' cd' r,
    ensure_album_chain uuid4_at now_at cl p = Done (cl', r)
    /\ ensure_album_chain uuid4_at now_at cd p = Done (cd', r)
    /\ ctx_sim uuid4_at seed db0 keys cl' cd'.
Proof using fresh.
  intros H. unfold ensure_album_chain.
  destruct (negb (Py.truthy p) || String.eqb p "/"); [eauto 10|].
  assert (Hc := sc_album_cache _ _ (cs_same _ _ _ _ _ _ H)).
  rewrite <- Hc.
  destruct (album_cache cl !! normalize_album_path p); [eauto 10|].
  destruct (sim_chain_loop keys
              (Py.split "/" (Py.strip Py.is_slash (normalize_album_path p)))
              cl cd None "" H) as (cl1&cd1&p1&cur1&->&->&H1).
  simpl. rewrite (sc_album_cache _ _ (cs_same _ _ _ _ _ _ H1)). eauto 10.
Qed.

Lemma sim_album_id_for keys cl cd album_path :
  ctx_sim uuid4_at seed db0 keys cl cd ->
  exists cl' cd' aid,
    album_id_for uuid4_at now_at cl album_path = Done (cl', aid)
    /\ album_id_for uuid4_at now_at cd album_path = Done (cd', aid)
    /\ ctx_sim uuid4_at seed db0 keys cl' cd'.
Proof using fresh.
  intros H. unfold album_id_for. destruct album_path as [p|]; [|eauto 10].
  destruct (Py.truthy p); [|eauto 10]. by apply sim_ensure_album_chain.
Qed.


Lemma update_file_elem cn i a nm sz mime ts r' :
  r' ∈ files (update_file cn i a nm sz mime ts) ->
  exists r, r ∈ files cn /\ f_id r' = f_id r /\ f_key r' = f_key r.
Proof.
  unfold update_file; simpl. intros Hin.
  apply list_elem_of_In, in_map_iff in Hin as (r&E&Hr).
  exists r. split; [by apply list_elem_of_In|].
  destruct (String.eqb (f_id r) i); by subst r'.
Qed.

Lemma sim_keys_mono keys keys' cl cd :
  keys ⊆ keys' ->
  ctx_sim uuid4_at seed db0 keys cl cd ->
  ctx_sim uuid4_at seed db0 keys' cl cd.
Proof.
  intros Hsub [Hs Hl Hp Hc]. constructor; try done.
  destruct Hl. constructor; try done.
  intros r Hr. by apply Hsub, li_keys0.
Qed.

Lemma needs_update_agree cl cd existing target sz nm mime :
  same_caches cl cd ->
  needs_update cl existing target sz nm mime
  = needs_update cd existing target sz nm mime.
Proof.
  intros Hs. unfold needs_update, album_id_valid.
  by rewrite (sc_album_ids _ _ Hs).
Qed.

Lemma sim_repair keys fs cl cd existing full_path rel_key target :
  ctx_sim uuid4_at seed db0 keys cl cd ->
  match repair_existing_file now_at guess_type fs cl existing full_path
          rel_key target,
        repair_existing_file now_at guess_type fs cd existing full_path
          rel_key target with
  | Done (cl', bl), Done (cd', bd) =>
      bl = bd /\ ctx_sim uuid4_at seed db0 keys cl' cd'
  | Raised _, Raised _ => True
  | _, _ => False
  end.
Proof.
  intros H. rewrite !repair_existing_file_eq.
  destruct (stat_size fs full_path) as [sz|]; [|done]. simpl.
  rewrite <- (needs_update_agree cl cd) by apply H.
  rewrite (cs_preview _ _ _ _ _ _ H), andb_false_r.
  rewrite (li_dry _ _ _ _ _ (cs_live _ _ _ _ _ _ H)), andb_true_r.
  destruct (needs_update cl existing _ sz _ _); [|done].
  split; [done|]. destruct H as [[Hs1 Hs2 Hs3 Hs4 Hs5 Hs6] Hl Hp Hc].
  constructor; [by constructor| |done|done].
  destruct Hl. constructor; simpl; try done.
  - intros r' (r&Hr&Ei&_)%update_file_elem. rewrite Ei. by apply li_file_ids0.
  - intros r' (r&Hr&_&Ek)%update_file_elem. rewrite Ek. by apply li_keys0.
Qed.

Lemma sim_handle_existing args fs existing_files sl sd full_path rel_key aid :
  walk_sim uuid4_at seed db0 sl sd ->
  match handle_existing now_at guess_type (live_args args) fs existing_files
          sl full_path rel_key aid,
        handle_existing now_at guess_type (preview_args args) fs
          existing_files sd full_path rel_key aid with
  | Done sl', Done sd' => walk_sim uuid4_at seed db0 sl' sd'
  | _, _ => False
  end.
Proof.
  intros [Hc Hk Hn]. unfold handle_existing. simpl.
  unfold counters in Hn. injection Hn as Hn1 Hn2 Hn3 Hn4 Hn5 Hn6.
  assert (Hbase : walk_sim uuid4_at seed db0 (count_existing sl)
                    (count_existing sd)).
  { constructor; simpl; [done|done|]. unfold counters; simpl. congruence. }
  destruct (Args.repair_existing args); [|done].
  destruct (existing_files !! rel_key) as [existing|]; [|done].
  assert (Hr := sim_repair (existing_keys sl) fs (ctx sl) (ctx sd) existing
                  full_path rel_key aid Hc).
  simpl.
  destruct (repair_existing_file now_at guess_type fs (ctx sl) existing
              full_path rel_key aid) as [[cl' bl]| |];
    destruct (repair_existing_file now_at guess_type fs (ctx sd) existing
                full_path rel_key aid) as [[cd' bd]| |]; try done.
  - destruct Hr as [<- Hsim].
    destruct bl; constructor; simpl; try done; unfold counters; simpl;
      congruence.
  - constructor; simpl; try done. unfold counters; simpl. congruence.
Qed.

(** An identifier drawn now is not in the file table of the live run. *)
Lemma sim_fresh_file_id keys cl cd :
  ctx_sim uuid4_at seed db0 keys cl cd ->
  existsb (fun x => String.eqb (f_id x) (uuid4_at (uuid_draws cl)))
          (files (conn cl)) = false.
Proof using fresh.
  intros [Hs Hl Hp Hc]. apply not_true_iff_false.
  intros (r&Hr&E%String.eqb_eq)%existsb_exists.
  apply list_elem_of_In in Hr.
  assert (Hseed := li_seed _ _ _ _ _ Hl).
  destruct (li_file_ids _ _ _ _ _ Hl r Hr) as [H0|(i&Hi&Ei)].
  - rewrite E in H0. by apply (fresh_files _ _ _ fresh _ Hseed).
  - rewrite E in Ei.
    apply (fresh_inj _ _ _ fresh) in Ei; [lia|lia|lia].
Qed.

Lemma sim_new_key keys cl cd rel_key :
  ctx_sim uuid4_at seed db0 keys cl cd ->
  rel_key ∉ keys ->
  existsb (fun x => String.eqb (f_key x) rel_key) (files (conn cl)) = false.
Proof.
  intros [Hs Hl Hp Hc] Hk. apply not_true_iff_false.
  intros (r&Hr&E%String.eqb_eq)%existsb_exists.
  apply list_elem_of_In in Hr. apply Hk. rewrite <- E.
  by apply (li_keys _ _ _ _ _ Hl).
Qed.

Lemma sim_handle_new args fs sl sd full_path rel_key aid :
  walk_sim uuid4_at seed db0 sl sd ->
  rel_key ∉ existing_keys sl ->
  walk_sim uuid4_at seed db0
    (handle_new uuid4_at now_at guess_type (live_args args) fs sl full_path
       rel_key aid)
    (handle_new uuid4_at now_at guess_type (preview_args args) fs sd full_path
       rel_key aid).
Proof using fresh.
  intros [Hc Hk Hn] Hnew. unfold handle_new. simpl.
  unfold counters in Hn. injection Hn as Hn1 Hn2 Hn3 Hn4 Hn5 Hn6.
  destruct (stat_size fs full_path) as [sz|].
  2:{ constructor; simpl; try done. unfold counters; simpl. congruence. }
  unfold insert_file. simpl.
  rewrite (sim_fresh_file_id _ _ _ Hc), (sim_new_key _ _ _ _ Hc Hnew). simpl.
  constructor; simpl; [|congruence|unfold counters; simpl; congruence].
  destruct Hc as [[Hs1 Hs2 Hs3 Hs4 Hs5 Hs6] Hl Hp Hst].
  constructor; [constructor; simpl; congruence| |done|done].
  assert (Hseed := li_seed _ _ _ _ _ Hl).
  constructor; simpl.
  - apply Hl.
  - apply Hl.
  - apply Hl.
  - intros r Hr.
    destruct (li_album_ids _ _ _ _ _ Hl r Hr) as [H0|(i&Hi&Ei)]; [by left|].
    right. exists i. split; [lia|done].
  - intros r [Hr|Hr%list_elem_of_singleton]%elem_of_app.
    + destruct (li_file_ids _ _ _ _ _ Hl r Hr) as [H0|(i&Hi&Ei)]; [by left|].
      right. exists i. split; [lia|done].
    + right. exists (uuid_draws (ctx sl)). subst r. simpl. split; [lia|done].
  - intros r [Hr|Hr%list_elem_of_singleton]%elem_of_app.
    + apply elem_of_union. right. by apply (li_keys _ _ _ _ _ Hl).
    + subst r. simpl. apply elem_of_union. left. by apply elem_of_singleton.
  - lia.
Qed.


Lemma sim_process_file args fs uploads_dir existing_files sl sd full_path :
  walk_sim uuid4_at seed db0 sl sd ->
  match process_file uuid4_at now_at guess_type (live_args args) fs
          uploads_dir existing_files sl full_path,
        process_file uuid4_at now_at guess_type (preview_args args) fs
          uploads_dir existing_files sd full_path with
  | Done sl', Done sd' => walk_sim uuid4_at seed db0 sl' sd'
  | Raised _, Raised _ => True
  | _, _ => False
  end.
Proof using fresh.
  intros H. unfold process_file.
  destruct (normalize_rel_key full_path uploads_dir) as [rel_key| |] eqn:En;
    simpl; try done.
  2:{ unfold normalize_rel_key in En. by destruct (PurePath.relative_to _ _). }
  assert (Hscan : walk_sim uuid4_at seed db0 (count_scanned sl)
                    (count_scanned sd)).
  { destruct H as [Hc Hk Hn]. unfold counters in Hn.
    injection Hn as Hn1 Hn2 Hn3 Hn4 Hn5 Hn6.
    constructor; simpl; [done|done|]. unfold counters; simpl. congruence. }
  destruct (negb (is_image_file guess_type full_path)).
  { destruct Hscan as [Hc Hk Hn]. unfold counters in Hn. simpl in *.
    injection Hn as Hn1 Hn2 Hn3 Hn4 Hn5 Hn6.
    constructor; simpl; [done|done|]. unfold counters; simpl. congruence. }
  destruct (decide_album_path rel_key (Args.album_mode args))
    as [album_path| |] eqn:Ed; simpl; try done.
  2:{ unfold decide_album_path in Ed.
      repeat (destruct (String.eqb _ _) in Ed; try done).
      by destruct (looks_like_sharded_upload rel_key). }
  destruct Hscan as [Hc Hk Hn]. simpl in Hc, Hk.
  destruct (sim_album_id_for _ _ _ album_path Hc) as (cl'&cd'&aid&->&->&Hsim).
  simpl. rewrite <- Hk.
  assert (Hw : walk_sim uuid4_at seed db0 (with_ctx (count_scanned sl) cl')
                 (with_ctx (count_scanned sd) cd')).
  { constructor; simpl; [done|done|].
    unfold counters in *; simpl in *. congruence. }
  case_bool_decide as Hkey.
  - assert (Hx := sim_handle_existing args fs existing_files _ _ full_path
                    rel_key aid Hw).
    simpl in Hx |- *.
    destruct (handle_existing now_at guess_type (live_args args) _ _ _ _ _ _)
      as [sl1| |]; [|exfalso; exact Hx..].
    destruct (handle_existing now_at guess_type (preview_args args) _ _ _ _ _ _)
      as [sd1| |]; [exact Hx|exfalso; exact Hx..].
  - assert (Hx := sim_handle_new args fs _ _ full_path rel_key aid Hw Hkey).
    simpl in Hx |- *. exact Hx.
Qed.

Lemma sim_walk args fs uploads_dir existing_files paths :
  forall sl sd,
    walk_sim uuid4_at seed db0 sl sd ->
    match walk uuid4_at now_at guess_type (live_args args) fs uploads_dir
            existing_files sl paths,
          walk uuid4_at now_at guess_type (preview_args args) fs uploads_dir
            existing_files sd paths with
    | Done sl', Done sd' => walk_sim uuid4_at seed db0 sl' sd'
    | Raised _, Raised _ => True
    | _, _ => False
    end.
Proof using fresh.
  induction paths as [|p rest IH]; intros sl sd H; simpl; [done|].
  assert (Hp := sim_process_file args fs uploads_dir existing_files sl sd p H).
  destruct (process_file _ _ _ (live_args args) _ _ _ sl p) as [sl1| |];
    destruct (process_file _ _ _ (preview_args args) _ _ _ sd p) as [sd1| |];
    simpl; try done.
  by apply IH.
Qed.


Lemma live_album_id_for keys cl cd album_path c aid :
  ctx_sim uuid4_at seed db0 keys cl cd ->
  album_id_for uuid4_at now_at cl album_path = Done (c, aid) ->
  exists cd', ctx_sim uuid4_at seed db0 keys c cd'.
Proof using fresh.
  intros H.
  destruct (sim_album_id_for keys cl cd album_path H)
    as (cl'&cd'&aid'&->&_&Hs).
  intros [= <- <-]. eauto.
Qed.

(** In a live run with fresh identifiers the insertion of a new key
    succeeds whenever the size of the file can be read. *)
Lemma live_handle_new args fs sl sd full_path rel_key aid :
  walk_sim uuid4_at seed db0 sl sd ->
  rel_key ∉ existing_keys sl ->
  let s' := handle_new uuid4_at now_at guess_type (live_args args) fs sl
              full_path rel_key aid in
  album_cache (ctx s') = album_cache (ctx sl)
  /\ match stat_size fs full_path with
     | Some _ =>
         existing_keys s' = {[rel_key]} ∪ existing_keys sl
         /\ List.map f_key (files (conn (ctx s')))
            = (List.map f_key (files (conn (ctx sl))) ++ [rel_key])%list
     | None =>
         existing_keys s' = existing_keys sl
         /\ files (conn (ctx s')) = files (conn (ctx sl))
     end.
Proof using fresh.
  intros [Hc Hk Hn] Hnew. unfold handle_new. simpl.
  destruct (stat_size fs full_path) as [sz|]; [|done].
  unfold insert_file. simpl.
  rewrite (sim_fresh_file_id _ _ _ Hc), (sim_new_key _ _ _ _ Hc Hnew). simpl.
  split; [done|]. split; [done|]. by rewrite map_app.
Qed.

Lemma live_process_file args fs uploads_dir existing_files sl sd p sl' :
  walk_sim uuid4_at seed db0 sl sd ->
  keys_stored sl ->
  paths_stored (ctx sl) ->
  process_file uuid4_at now_at guess_type (live_args args) fs uploads_dir
    existing_files sl p = Done sl' ->
  (exists sd', walk_sim uuid4_at seed db0 sl' sd')
  /\ keys_stored sl'
  /\ paths_stored (ctx sl')
  /\ existing_keys sl ⊆ existing_keys sl'
  /\ dom (album_cache (ctx sl)) ⊆ dom (album_cache (ctx sl'))
  /\ settled guess_type args fs uploads_dir sl' p.
Proof using fresh.
  intros Hsim Hks Hps Hrun.
  assert (Hdry : dry_run (ctx sl) = Args.dry_run (live_args args)).
  { apply (li_dry _ _ _ _ _ (cs_live _ _ _ _ _ _ (ws_ctx _ _ _ _ _ Hsim))). }
  assert (Hsteps := process_file_steps _ _ _ _ _ _ _ _ _ _ Hdry Hrun).
  split.
  { assert (Hp := sim_process_file args fs uploads_dir existing_files sl sd p
                    Hsim).
    rewrite Hrun in Hp.
    destruct (process_file _ _ _ (preview_args args) _ _ _ sd p) as [sd'| |];
      [eauto|done|done]. }
  assert (Hcases : keys_stored sl'
                   /\ existing_keys sl ⊆ existing_keys sl'
                   /\ settled guess_type args fs uploads_dir sl' p).
  2:{ destruct Hcases as (H1&H2&H3). split; [done|].
      split; [by apply (steps_paths_stored _ _ _ _ Hsteps)|].
      split; [done|]. split; [by apply (steps_dom _ _ _ _ Hsteps)|done]. }
  clear Hsteps. unfold process_file in Hrun.
  destruct (normalize_rel_key p uploads_dir) as [key| |] eqn:En;
    simpl in Hrun; try done.
  destruct (is_image_file guess_type p) eqn:Ei; simpl in Hrun.
  2:{ injection Hrun as <-. split; [done|]. split; [done|].
      exists key. split; [done|]. by rewrite Ei. }
  destruct (decide_album_path key (Args.album_mode args))
    as [album_path| |] eqn:Ed; simpl in Hrun; try done.
  destruct (album_id_for uuid4_at now_at (ctx sl) album_path)
    as [[c aid]| |] eqn:Ech; simpl in Hrun; try done.
  assert (Hfiles := album_id_for_files _ _ _ _ _ _ Ech).
  assert (Hcached := album_id_for_cached _ _ _ _ _ _ Ech).
  destruct Hsim as [Hc Hk Hn].
  destruct (sim_album_id_for _ _ _ album_path Hc) as (cl'&cd'&aid'&E1&_&Hs).
  rewrite Ech in E1. injection E1 as <- <-.
  assert (Hw : walk_sim uuid4_at seed db0 (with_ctx (count_scanned sl) c)
                 (with_ctx (count_scanned sd) cd')).
  { constructor; simpl; [done|done|].
    unfold counters in *; simpl in *. congruence. }
  case_bool_decide as Hkey.
  - assert (Hd := handle_existing_done uuid4_at _ _ _ _ _ _ _ _ _ _ Hrun).
    destruct Hd as (_&Hkeys&_).
    apply handle_existing_frame in Hrun as (Hcache&_&_&_&Hfk).
    simpl in Hkeys, Hcache, Hfk.
    split; [|split].
    + intros x Hx. rewrite Hfk, Hfiles. apply Hks. by rewrite <- Hkeys.
    + by rewrite Hkeys.
    + exists key. split; [done|]. intros _. exists album_path.
      split; [done|]. split.
      * unfold chain_cached in *. by rewrite Hcache.
      * intros _. by rewrite Hkeys.
  - injection Hrun as <-.
    assert (Hh := live_handle_new args fs _ _ p key aid Hw Hkey).
    simpl in Hh. destruct Hh as [Hcache Hstat].
    destruct (stat_size fs p) as [sz|] eqn:Es.
    + destruct Hstat as [Hkeys Hfk]. split; [|split].
      * intros x. rewrite Hkeys, Hfk, Hfiles, elem_of_union, elem_of_app,
          elem_of_singleton, list_elem_of_singleton.
        intros [->|Hx]; [by right|left; by apply Hks].
      * rewrite Hkeys. apply union_subseteq_r.
      * exists key. split; [done|]. intros _. exists album_path.
        split; [done|]. split.
        -- unfold chain_cached in *. by rewrite Hcache.
        -- intros _. rewrite Hkeys. apply elem_of_union. left.
           by apply elem_of_singleton.
    + destruct Hstat as [Hkeys Hf]. split; [|split].
      * intros x Hx. rewrite Hf, Hfiles. apply Hks. by rewrite <- Hkeys.
      * by rewrite Hkeys.
      * exists key. split; [done|]. intros _. exists album_path.
        split; [done|]. split; [|done].
        unfold chain_cached in *. by rewrite Hcache.
Qed.

Lemma settled_mono args fs uploads_dir s s' p :
  existing_keys s ⊆ existing_keys s' ->
  dom (album_cache (ctx s)) ⊆ dom (album_cache (ctx s')) ->
  settled guess_type args fs uploads_dir s p ->
  settled guess_type args fs uploads_dir s' p.
Proof.
  intros Hk Hd (key&Hn&H). exists key. split; [done|].
  intros Hi. destruct (H Hi) as (ap&Hdec&Hc&Hs). exists ap.
  split; [done|]. split.
  - destruct ap as [q|]; [|done]. simpl in *. intros H1 H2.
    by apply Hd, Hc.
  - intros Hst. by apply Hk, Hs.
Qed.

Lemma live_walk args fs uploads_dir existing_files paths :
  forall sl sd sl',
    walk_sim uuid4_at seed db0 sl sd ->
    keys_stored sl ->
    paths_stored (ctx sl) ->
    walk uuid4_at now_at guess_type (live_args args) fs uploads_dir
      existing_files sl paths = Done sl' ->
    keys_stored sl'
    /\ paths_stored (ctx sl')
    /\ existing_keys sl ⊆ existing_keys sl'
    /\ dom (album_cache (ctx sl)) ⊆ dom (album_cache (ctx sl'))
    /\ Forall (settled guess_type args fs uploads_dir sl') paths.
Proof using fresh.
  induction paths as [|p rest IH]; intros sl sd sl' Hsim Hks Hps; simpl.
  - intros [= <-]. repeat split; done.
  - destruct (process_file _ _ _ _ _ _ _ sl p) as [s1| |] eqn:E1; simpl;
      try done.
    intros Hrest.
    destruct (live_process_file _ _ _ _ _ _ _ _ Hsim Hks Hps E1)
      as ((sd1&Hsim1)&Hks1&Hps1&Hk1&Hd1&Hset1).
    destruct (IH _ _ _ Hsim1 Hks1 Hps1 Hrest) as (Hks'&Hps'&Hk'&Hd'&Hall).
    split; [done|]. split; [done|]. split; [by etrans|].
    split; [by etrans|]. constructor; [|done].
    by apply (settled_mono _ _ _ s1).
Qed.

End Preview.


Lemma initial_walk_sim uuid4_at args db0 seed :
  walk_sim uuid4_at seed.1 db0
    (initial_state (live_args args) db0 seed).1
    (initial_state (preview_args args) db0 seed).1.
Proof.
  rewrite !initial_state_eq. simpl.
  constructor; simpl; [|done|done].
  constructor; simpl; [by constructor| |done|done].
  constructor; simpl; auto.
  - intros r Hr. left. apply list_elem_of_In, in_map.
    by apply list_elem_of_In.
  - intros r Hr. left. apply list_elem_of_In, in_map.
    by apply list_elem_of_In.
  - intros r Hr. apply fold_load_file_keys. right.
    apply list_elem_of_In, in_map. by apply list_elem_of_In.
Qed.

Lemma initial_existing_files args args' db seed :
  (initial_state args db seed).2 = (initial_state args' db seed).2.
Proof. by rewrite !initial_state_eq. Qed.





(** ** A run over a tree that is already cataloged *)

Section SecondRun.
Variable uuid4_at : nat -> string.
Variable now_at : nat -> string.
Variable guess_type : string -> option string.

Lemma quiet_refl s : quiet s s.
Proof. by constructor. Qed.

Lemma quiet_trans s1 s2 s3 : quiet s1 s2 -> quiet s2 s3 -> quiet s1 s3.
Proof. intros [] []. constructor; congruence. Qed.

Lemma album_id_for_cached_hit c album_path :
  chain_cached c album_path ->
  exists aid, album_id_for uuid4_at now_at c album_path = Done (c, aid).
Proof.
  unfold album_id_for, chain_cached. destruct album_path as [q|]; [|eauto].
  intros H. destruct (Py.truthy q) eqn:Et; [|eauto].
  destruct (String.eqb_spec q "/") as [->|Hne]; [eauto|].
  assert (Hq : q <> "") by (intros ->; done).
  apply elem_of_dom in H as [e He]; [|done|done].
  exists (Some e). by apply ensure_album_chain_hit.
Qed.

Lemma handle_existing_total args fs existing_files s full_path rel_key aid :
  exists s',
    handle_existing now_at guess_type args fs existing_files s full_path
      rel_key aid = Done s'.
Proof.
  unfold handle_existing.
  destruct (Args.repair_existing args); [|eauto].
  destruct (existing_files !! rel_key) as [existing|]; [|eauto].
  simpl. rewrite repair_existing_file_eq.
  destruct (stat_size fs full_path) as [sz|]; [|eauto]. simpl.
  destruct (needs_update _ _ _ _ _ _ && negb (dry_run (ctx s))); [eauto|].
  destruct (needs_update _ _ _ _ _ _); eauto.
Qed.

Lemma quiet_process_file args fs uploads_dir existing_files s p :
  settled guess_type args fs uploads_dir s p ->
  exists s',
    process_file uuid4_at now_at guess_type args fs uploads_dir existing_files
      s p = Done s'
    /\ quiet s s'
    /\ skipped_existing s'
       = skipped_existing s
         + (if cataloged guess_type uploads_dir (existing_keys s) p
            then 1 else 0).
Proof.
  intros (key&Hn&H). unfold process_file, cataloged. rewrite Hn. simpl.
  destruct (is_image_file guess_type p) eqn:Ei; simpl.
  2:{ eexists. split; [done|]. split; [by constructor|]. simpl. lia. }
  destruct (H eq_refl) as (ap&Hd&Hc&Hs). rewrite Hd. simpl.
  destruct (album_id_for_cached_hit (ctx s) ap Hc) as [aid ->]. simpl.
  case_bool_decide as Hkey.
  - destruct (handle_existing_total args fs existing_files
                (with_ctx (count_scanned s) (ctx s)) p key aid) as [s' Hs'].
    exists s'. split; [done|].
    assert (Hd' := handle_existing_done uuid4_at _ _ _ _ _ _ _ _ _ _ Hs').
    destruct Hd' as (_&Hk&Hi&_&_&Hse).
    apply handle_existing_frame in Hs' as (Hca&Hcr&_&Hal&Hfk).
    simpl in *. split; [by constructor|]. lia.
  - assert (Hst : stat_size fs p = None).
    { destruct (stat_size fs p) eqn:E; [|done]. exfalso. by apply Hkey, Hs. }
    unfold handle_new. rewrite Hst. eexists. split; [done|].
    split; [by constructor|]. simpl. lia.
Qed.

Lemma settled_quiet args fs uploads_dir s s' p :
  quiet s s' ->
  settled guess_type args fs uploads_dir s p ->
  settled guess_type args fs uploads_dir s' p.
Proof.
  intros [Hc Hk _ _ _ _]. apply settled_mono.
  - by rewrite Hk.
  - by rewrite Hc.
Qed.

Lemma quiet_walk args fs uploads_dir existing_files paths :
  forall s,
    Forall (settled guess_type args fs uploads_dir s) paths ->
    exists s',
      walk uuid4_at now_at guess_type args fs uploads_dir existing_files
        s paths = Done s'
      /\ quiet s s'
      /\ skipped_existing s'
         = skipped_existing s
           + length (List.filter
                       (cataloged guess_type uploads_dir (existing_keys s))
                       paths).
Proof.
  induction paths as [|p rest IH]; intros s Hall; simpl.
  - exists s. split; [done|]. split; [apply quiet_refl|lia].
  - inversion Hall as [|? ? Hp Hrest]; subst.
    destruct (quiet_process_file args fs uploads_dir existing_files s p Hp)
      as (s1&->&Hq1&Hc1).
    simpl.
    destruct (IH s1) as (s'&->&Hq&Hc).
    { eapply Forall_impl; [exact Hrest|]. intros x. by apply settled_quiet. }
    exists s'. split; [done|]. split; [by eapply quiet_trans|].
    rewrite Hc, Hc1, (q_keys _ _ Hq1).
    destruct (cataloged guess_type uploads_dir (existing_keys s) p); simpl; lia.
Qed.

End SecondRun.


(** ** Idempotence of the reconciliation *)

Lemma live_args_id args : Args.dry_run args = false -> live_args args = args.
Proof. destruct args. simpl. by intros ->. Qed.

Lemma normalize_album_path_nonempty q : normalize_album_path q <> "".
Proof. unfold normalize_album_path. discriminate. Qed.



(** * Scenarios *)


(** ** Slug allocation on a crowded store *)

Example path_digest_sky : path_digest "/sky" = "106881".
Proof. vm_compute. reflexivity. Qed.

Lemma crowded_numbered k :
  (2 <= k <= 106881)%N -> numbered "sky" k ∈ crowded_cache.
Proof.
  intros Hk. unfold crowded_cache. apply elem_of_list_to_set.
  apply elem_of_cons. right. apply list_elem_of_In, in_map_iff.
  exists (N.to_nat k). split; [by rewrite N2Nat.id|]. apply in_seq. lia.
Qed.

Lemma crowded_first_candidate :
  first_candidate "sky" "/sky" crowded_cache = "sky-106881".
Proof.
  unfold first_candidate. rewrite bool_decide_eq_true_2.
  - by rewrite path_digest_sky.
  - unfold crowded_cache. apply elem_of_list_to_set, elem_of_cons. by left.
Qed.

(** C10, the clause on distinct candidates.  With [sky] and [sky-2] to
    [sky-106881] taken, the call for the base slug [sky] of the album
    [/sky] examines [sky-106881] first (the SHA-1 of the path starts with
    the hexadecimal digits 106881) and again as its 106881st candidate:
    the candidates it examines are not pairwise distinct. *)
Lemma probed_candidates_repeat :
  let l := probed (N.to_nat 106882) (MkConn [] []) "sky"
             (first_candidate "sky" "/sky" crowded_cache) 1 crowded_cache in
  l !! 0 = Some "sky-106881"
  /\ l !! N.to_nat 106880 = Some "sky-106881"
  /\ ~ NoDup l.
Proof.
  intros l.
  assert (Hbusy : forall i, i < N.to_nat 106881 ->
            is_free (MkConn [] []) crowded_cache
              (candidate_at "sky" "sky-106881" 1 i) = false).
  { intros i Hi. unfold is_free. apply andb_false_iff. right.
    apply negb_false_iff, bool_decide_eq_true.
    destruct i as [|i].
    - simpl. apply (crowded_numbered 106881). lia.
    - rewrite candidate_at_succ. apply crowded_numbered. lia. }
  assert (H0 : l !! 0 = Some "sky-106881").
  { subst l. rewrite crowded_first_candidate.
    rewrite probed_lookup; [done|lia|]. intros i Hi. lia. }
  assert (H1 : l !! N.to_nat 106880 = Some "sky-106881").
  { subst l. rewrite crowded_first_candidate.
    rewrite probed_lookup; [|lia|intros i Hi; apply Hbusy; lia].
    replace (N.to_nat 106880) with (S (N.to_nat 106879)) by lia.
    rewrite candidate_at_succ.
    replace (1 + N.of_nat (S (N.to_nat 106879)))%N with 106881%N by lia.
    vm_compute. reflexivity. }
  split; [exact H0|]. split; [exact H1|].
  intros Hnd. assert (E := NoDup_lookup _ _ _ _ Hnd H0 H1). lia.
Qed.

(** ** Repair of an item whose album row is lost *)

(** C6, the clause on detaching.  The upload [2024/03/x.jpg] references
    the unknown album [ghost]; under [auto] no container is decided for
    it, and the repair of a live run rewrites its row with [ghost] still in
    place: the item is neither reassigned nor detached. *)
Lemma dangling_reference_survives :
  decide_album_path "2024/03/x.jpg" "auto" = Done None
  /\ ("ghost" ∉ album_ids sample_ctx)
  /\ exists c',
       repair_existing_file sample_now sample_guess_type sample_fs sample_ctx
         (snapshot_of orphan_row) sharded_path "2024/03/x.jpg" None
       = Done (c', true)
       /\ List.map f_album_id (files (conn c')) = [Some "a-1"; Some "ghost"].
Proof.
  split; [reflexivity|]. split; [vm_compute; set_solver|].
  eexists. split; [vm_compute; reflexivity|]. reflexivity.
Qed.

Lemma repair_dangling_witness :
  exists c',
    repair_existing_file sample_now sample_guess_type sample_fs sample_ctx
      (snapshot_of orphan_row) sharded_path "2024/03/x.jpg" (Some "a-1")
    = Done (c', true)
    /\ (dry_run sample_ctx = true -> c' = sample_ctx)
    /\ (dry_run sample_ctx = false ->
        conn c'
        = update_file (conn sample_ctx)
            (ExistingFileRow.id (snapshot_of orphan_row)) (Some "a-1")
            (PurePath.name sharded_path) 10
            (guess_mime sample_guess_type sharded_path)
            (sample_now (clock_reads sample_ctx))).
Proof.
  apply (repair_dangling sample_now sample_guess_type sample_fs sample_ctx
           (snapshot_of orphan_row) sharded_path "2024/03/x.jpg"
           (Some "a-1") "ghost" 10).
  - reflexivity.
  - discriminate.
  - unfold sample_ctx; simpl. set_solver.
  - reflexivity.
Defined.

(** The annotated photo, repaired for its size: the size is updated, the
    tags and the caption stay. *)
Example repair_keeps_annotations :
  exists c',
    repair_existing_file sample_now sample_guess_type sample_fs sample_ctx
      (snapshot_of annotated_row) beach_path "vacation/beach.jpg" (Some "a-1")
    = Done (c', true)
    /\ List.map (fun r => (f_size r, f_tags r, f_caption r)) (files (conn c'))
       = [(2048%Z, Some "[sea]", Some "At the beach"); (10%Z, Some "[]", None)].
Proof. eexists. split; [vm_compute; reflexivity|]. reflexivity. Qed.

(** ** A scan sub-directory beside the uploads directory *)

(** C9.  A scan root inside the uploads directory passes the pre-flight
    test.  The sub-directory [../uploads-old] of [/srv/uploads] resolves to
    [/srv/uploads-old], which is not inside [/srv/uploads]; its string
    starts with the string of the uploads directory, so the test lets it
    through: the run connects, opens the transaction, fails on the first
    file ([relative_to] raises) and exits with status 1 after a
    rollback. *)
Theorem subdir_beside_uploads_not_rejected :
  (forall args fs,
     inside (scan_root_of args fs) (uploads_dir_of args fs) ->
     subdir_check args fs = true)
  /\ scan_root_of sibling_args sibling_fs
     = PurePath.Build "/" ["srv"; "uploads-old"]
  /\ ~ inside (scan_root_of sibling_args sibling_fs)
              (uploads_dir_of sibling_args sibling_fs)
  /\ recover sample_uuid sample_now sample_guess_type sibling_args sibling_fs
             empty_conn (0, 0)
     = Done (MkRun 1 [EvConnect; EvBegin; EvRollback; EvClose] empty_conn
                   None None).
Proof.
  split; [exact subdir_inside_passes|]. split; [reflexivity|]. split.
  - intros [_ (rest&H)]. vm_compute in H. discriminate.
  - vm_compute. reflexivity.
Qed.

(** ** The sample identifier sequence *)

Lemma sample_uuid_nonempty : uuid_nonempty sample_uuid.
Proof. intros n. unfold sample_uuid. discriminate. Qed.

Lemma sample_uuid_inj i j : sample_uuid i = sample_uuid j -> i = j.
Proof.
  unfold sample_uuid. intros E.
  apply (inj (String.app "uuid-")) in E. by apply (inj pretty) in E.
Qed.

Lemma sample_uuid_fresh_empty seed : uuid_fresh sample_uuid seed empty_conn.
Proof.
  constructor.
  - intros i j _ _. apply sample_uuid_inj.
  - intros i _ H. by apply elem_of_nil in H.
  - intros i _ H. by apply elem_of_nil in H.
Qed.

Lemma sample_uuid_fresh_sample seed : uuid_fresh sample_uuid seed sample_conn.
Proof.
  constructor.
  - intros i j _ _. apply sample_uuid_inj.
  - intros i _ H. simpl in H. apply list_elem_of_singleton in H.
    unfold sample_uuid in H. discriminate.
  - intros i _ H. simpl in H.
    apply elem_of_cons in H as [H|H%list_elem_of_singleton];
      unfold sample_uuid in H; discriminate.
Qed.

(** ** Runs on sample trees *)

Example trips_walk :
  iter_files trips_fs (scan_root_of plain_args trips_fs) false
  = [PurePath.Build "/" ["srv"; "uploads"; "cover.png"];
     PurePath.Build "/" ["srv"; "uploads"; "notes.txt"];
     PurePath.Build "/" ["srv"; "uploads"; "Trips"; "a.jpg"];
     PurePath.Build "/" ["srv"; "uploads"; "Trips"; "Rome"; "b.jpg"];
     PurePath.Build "/" ["srv"; "uploads"; "Trips"; "Rome"; "c.jpg"];
     PurePath.Build "/" ["srv"; "uploads"; "trips"; "d.jpg"]].
Proof. vm_compute. reflexivity. Qed.

(** The first live run over [trips_fs] on an empty store: five items,
    three containers, and a hashed slug for the second [trips]. *)
Example trips_first_run :
  exists r,
    recover sample_uuid sample_now sample_guess_type plain_args trips_fs
            empty_conn (0, 0) = Done r
    /\ exit_status r = 0%Z
    /\ summary r = Some (MkSummary 6 5 0 3 1 0 0)
    /\ List.map (fun a => (a_path a, a_slug a, a_parent_id a)) (albums (store r))
       = [("/Trips", "trips", None);
          ("/Trips/Rome", "rome", Some "uuid-1");
          ("/trips", "trips-74fcce", None)]
    /\ List.map (fun f => (f_key f, f_album_id f)) (files (store r))
       = [("cover.png", None);
          ("Trips/a.jpg", Some "uuid-1");
          ("Trips/Rome/b.jpg", Some "uuid-3");
          ("Trips/Rome/c.jpg", Some "uuid-3");
          ("trips/d.jpg", Some "uuid-6")].
Proof. eexists. split; [vm_compute; reflexivity|]. repeat split. Qed.

Lemma trips_result_eq :
  recover sample_uuid sample_now sample_guess_type plain_args trips_fs
          empty_conn (0, 0) = Done trips_result.
Proof. vm_compute. reflexivity. Qed.


(** ** An image that cannot be read *)


(** ** The hierarchy builder on an empty store *)

Lemma ensure_album_chain_at_most_once_witness :
  uuid_nonempty sample_uuid
  /\ exists c1 r,
       ensure_album_chain sample_uuid sample_now empty_ctx "/Trips/Rome/"
       = Done (c1, r)
       /\ created_albums c1 = 2
       /\ ensure_album_chain sample_uuid sample_now c1 "/Trips/Rome/"
          = Done (c1, r)
       /\ exists e,
            ensure_album_chain sample_uuid sample_now c1 "/Trips"
            = Done (c1, Some e).
Proof.
  split; [exact sample_uuid_nonempty|].
  destruct (ensure_album_chain_at_most_once sample_uuid sample_now
              sample_guess_type sample_uuid_nonempty)
    as (_&Hagain&_&Hprefix&_).
  destruct (ensure_album_chain sample_uuid sample_now empty_ctx "/Trips/Rome/")
    as [[c1 r]| |] eqn:E.
  - exists c1, r. split; [reflexivity|]. split.
    + revert E. vm_compute. intros [= <- _]. reflexivity.
    + split; [exact (Hagain _ _ _ _ E)|].
      destruct (Hprefix empty_ctx "/Trips/Rome/" c1 r 1 E) as [e He].
      * unfold empty_ctx; simpl. rewrite dom_empty_L. apply not_elem_of_empty.
      * vm_compute. split; constructor. constructor.
      * exists e. exact He.
  - exfalso. revert E. vm_compute. discriminate.
  - exfalso. revert E. vm_compute. discriminate.
Defined.

(** ** Runs one after the other *)

Lemma sample_conn_wf : store_wf sample_conn.
Proof.
  constructor; simpl.
  - apply NoDup_singleton.
  - apply NoDup_singleton.
  - apply NoDup_singleton.
  - repeat constructor. discriminate.
Qed.

Lemma uniqueness_invariant_witness :
  uuid_nonempty sample_uuid
  /\ store_wf sample_conn
  /\ exists db,
       recover_many sample_uuid sample_now sample_guess_type
         [(plain_args, trips_fs, (0, 0)); (repair_args, sample_fs, (20, 20));
          (plain_args, trips_fs, (40, 40))] sample_conn = Done db
       /\ store_wf db.
Proof.
  split; [exact sample_uuid_nonempty|]. split; [exact sample_conn_wf|].
  destruct (uniqueness_invariant sample_uuid sample_now sample_guess_type
              sample_uuid_nonempty) as (Hruns&_&_).
  apply Hruns. exact sample_conn_wf.
Defined.

Example runs_in_sequence :
  exists db,
    recover_many sample_uuid sample_now sample_guess_type
      [(plain_args, trips_fs, (0, 0)); (repair_args, sample_fs, (20, 20));
       (plain_args, trips_fs, (40, 40))] sample_conn = Done db
    /\ List.map (fun a => (a_path a, a_slug a)) (albums db)
       = [("/vacation", "vacation"); ("/Trips", "trips"); ("/Trips/Rome", "rome");
          ("/trips", "trips-74fcce")].
Proof. eexists. split; [vm_compute; reflexivity|]. reflexivity. Qed.

(** ** A preview beside the live run *)


Example preview_and_live :
  exists rp rl,
    recover sample_uuid sample_now sample_guess_type
            (preview_args repair_args) sample_fs sample_conn (0, 0) = Done rp
    /\ recover sample_uuid sample_now sample_guess_type
               (live_args repair_args) sample_fs sample_conn (0, 0) = Done rl
    /\ summary rp = Some (MkSummary 2 0 2 0 0 2 0)
    /\ summary rl = Some (MkSummary 2 0 2 0 0 2 0)
    /\ files (store rp) = [annotated_row; orphan_row]
    /\ List.map (fun f => (f_key f, f_size f, f_album_id f, f_tags f))
                (files (store rl))
       = [("vacation/beach.jpg", 2048%Z, Some "a-1", Some "[sea]");
          ("2024/03/x.jpg", 10%Z, Some "ghost", Some "[]")].
Proof.
  do 2 eexists. split; [vm_compute; reflexivity|].
  split; [vm_compute; reflexivity|]. repeat split.
Qed.


(** * Further properties of the script *)

(** ** The slug of a name *)

Lemma all_chars_impl (p q : ascii -> bool) s :
  (forall c, p c = true -> q c = true) ->
  Py.all_chars p s = true -> Py.all_chars q s = true.
Proof.
  intros Hpq. induction s as [|c s IH]; simpl; [done|].
  intros [Hc Hs]%andb_true_iff. rewrite (Hpq _ Hc). simpl. auto.
Qed.

Lemma all_chars_last p s c :
  Py.all_chars p s = true -> last_char s = Some c -> p c = true.
Proof.
  induction s as [|a s IH]; simpl; [done|].
  intros [Ha Hs]%andb_true_iff. destruct s as [|b s]; [congruence|]. auto.
Qed.

Lemma all_chars_lstrip p q s :
  Py.all_chars p s = true -> Py.all_chars p (Py.lstrip q s) = true.
Proof.
  induction s as [|c s IH]; simpl; [done|].
  intros H. destruct (q c); [|done].
  apply andb_true_iff in H as [_ H]. auto.
Qed.

Lemma all_chars_rstrip p q s :
  Py.all_chars p s = true -> Py.all_chars p (Py.rstrip q s) = true.
Proof.
  induction s as [|c s IH]; simpl; [done|].
  intros [Hc Hs]%andb_true_iff.
  destruct (String.eqb (Py.rstrip q s) "" && q c); [done|].
  simpl. rewrite Hc. simpl. auto.
Qed.

Lemma first_char_lstrip p s c :
  first_char (Py.lstrip p s) = Some c -> p c = false.
Proof.
  induction s as [|a s IH]; simpl; [done|].
  destruct (p a) eqn:E; [done|]. simpl. congruence.
Qed.

Lemma first_char_rstrip p s c :
  first_char (Py.rstrip p s) = Some c -> first_char s = Some c.
Proof.
  destruct s as [|a s]; simpl; [done|].
  by destruct (String.eqb (Py.rstrip p s) "" && p a).
Qed.

Lemma last_char_rstrip p s c :
  last_char (Py.rstrip p s) = Some c -> p c = false.
Proof.
  induction s as [|a s IH]; simpl; [done|].
  destruct (String.eqb_spec (Py.rstrip p s) "") as [E|E]; simpl.
  - destruct (p a) eqn:Ea; [done|]. rewrite E. simpl. congruence.
  - destruct (Py.rstrip p s) as [|b r] eqn:Er; [done|]. exact IH.
Qed.

Lemma double_dash_tail a s :
  has_double_dash (String a s) = false -> has_double_dash s = false.
Proof. simpl. by intros [_ ?]%orb_false_iff. Qed.

Lemma double_dash_lstrip p s :
  has_double_dash s = false -> has_double_dash (Py.lstrip p s) = false.
Proof.
  induction s as [|a s IH]; [done|]. intros H. simpl.
  destruct (p a); [|done]. apply IH. by apply double_dash_tail in H.
Qed.

Lemma double_dash_rstrip p s :
  has_double_dash s = false -> has_double_dash (Py.rstrip p s) = false.
Proof.
  induction s as [|a s IH]; [done|]. intros H.
  assert (Hs := double_dash_tail _ _ H). specialize (IH Hs).
  change (Py.rstrip p (String a s))
    with (let r := Py.rstrip p s in
          if String.eqb r "" && p a then "" else String a r).
  simpl. destruct (String.eqb (Py.rstrip p s) "" && p a); [done|].
  simpl. rewrite IH, orb_false_r.
  destruct (Py.rstrip p s) as [|b r] eqn:Er; [by rewrite andb_false_r|].
  assert (Hb : first_char s = Some b).
  { apply (first_char_rstrip p). by rewrite Er. }
  destruct s as [|b' s']; [done|]. simpl in Hb. injection Hb as ->.
  simpl in H. by apply orb_false_iff in H as [H _].
Qed.

Lemma sub_nonword_chars (p : ascii -> bool) s :
  Py.all_chars p s = true ->
  forall in_run,
    Py.all_chars (fun c => p c && Py.is_word c || Ascii.eqb c "-")
                 (sub_nonword in_run s) = true.
Proof.
  induction s as [|c s IH]; simpl; [done|].
  intros [Hc Hs]%andb_true_iff in_run.
  destruct (Py.is_word c) eqn:Ew; simpl.
  - rewrite Hc, Ew. simpl. by apply IH.
  - destruct in_run; simpl; [by apply IH|].
    rewrite orb_true_r. simpl. by apply IH.
Qed.

Lemma sub_nonword_dashes s :
  has_double_dash (sub_nonword false s) = false
  /\ has_double_dash (sub_nonword true s) = false
  /\ first_char (sub_nonword true s) <> Some "-"%char.
Proof.
  induction s as [|c s (IH1&IH2&IH3)]; [done|].
  assert (Hw : Py.is_word "-" = false) by reflexivity.
  simpl. destruct (Py.is_word c) eqn:Ew.
  - assert (Hc : Ascii.eqb c "-" = false).
    { destruct (Ascii.eqb_spec c "-") as [->|]; [congruence|done]. }
    simpl. rewrite Hc, IH1. simpl. split; [done|]. split; [done|].
    intros [= ->]. congruence.
  - split; [|done]. simpl. rewrite IH2, orb_false_r.
    destruct (sub_nonword true s) as [|b r]; [done|].
    simpl in IH3. destruct (Ascii.eqb_spec b "-") as [->|]; [congruence|done].
Qed.

Lemma lower_char_lowered c :
  Ascii.eqb (Py.lower_char (Py.lower_char c)) (Py.lower_char c) = true.
Proof. destruct c as [[] [] [] [] [] [] [] []]; reflexivity. Qed.

Lemma lower_lowered s :
  Py.all_chars (fun c => Ascii.eqb (Py.lower_char c) c) (Py.lower s) = true.
Proof.
  induction s as [|c s IH]; simpl; [done|].
  by rewrite lower_char_lowered, IH.
Qed.

Lemma lower_fixed s :
  Py.all_chars (fun c => Ascii.eqb (Py.lower_char c) c) s = true ->
  Py.lower s = s.
Proof.
  induction s as [|c s IH]; simpl; [done|].
  intros [Hc%Ascii.eqb_eq Hs]%andb_true_iff. rewrite Hc. f_equal. auto.
Qed.

Lemma word_not_space c : Py.is_word c = true -> Py.is_space c = false.
Proof. destruct c as [[] [] [] [] [] [] [] []]; vm_compute; congruence. Qed.

Lemma sub_nonword_fixed s :
  Py.all_chars slug_char s = true ->
  has_double_dash s = false ->
  sub_nonword false s = s
  /\ (first_char s <> Some "-"%char -> sub_nonword true s = s).
Proof.
  induction s as [|c s IH]; [done|].
  intros Hall Hdd. assert (Hs := double_dash_tail _ _ Hdd).
  simpl in Hall. apply andb_true_iff in Hall as [Hc Hall].
  destruct (IH Hall Hs) as [IH1 IH2]. simpl.
  destruct (Py.is_word c) eqn:Ew.
  - rewrite IH1. done.
  - unfold slug_char in Hc. rewrite Ew in Hc. simpl in Hc.
    apply Ascii.eqb_eq in Hc as ->. split; [|simpl; congruence].
    rewrite IH2; [done|]. simpl in Hdd.
    apply orb_false_iff in Hdd as [Hdd _].
    destruct s as [|b s]; [done|]. simpl. intros [= ->]. done.
Qed.

(** The six facts about a slug that the next two theorems share. *)
Lemma slugify_facts text :
  slugify text <> ""
  /\ Py.all_chars slug_char (slugify text) = true
  /\ has_double_dash (slugify text) = false
  /\ (forall c, first_char (slugify text) = Some c ->
        is_dash_or_underscore c = false)
  /\ (forall c, last_char (slugify text) = Some c ->
        is_dash_or_underscore c = false)
  /\ Py.lower (slugify text) = slugify text.
Proof.
  unfold slugify.
  set (u := Py.lower (Py.strip Py.is_space text)).
  set (t := sub_nonword false u).
  set (r := Py.strip is_dash_or_underscore t).
  assert (Hchars : Py.all_chars
            (fun c => Ascii.eqb (Py.lower_char c) c && Py.is_word c
                      || Ascii.eqb c "-") t = true).
  { apply sub_nonword_chars, lower_lowered. }
  assert (Hr : Py.all_chars
            (fun c => Ascii.eqb (Py.lower_char c) c && Py.is_word c
                      || Ascii.eqb c "-") r = true).
  { by apply all_chars_rstrip, all_chars_lstrip. }
  unfold Py.truthy. destruct (String.eqb_spec r "") as [E|E]; simpl.
  { repeat split; try done; intros c [= <-]; reflexivity. }
  split; [done|]. split; [|split; [|split; [|split]]].
  - eapply all_chars_impl; [|exact Hr]. intros c. unfold slug_char.
    cbv beta.
    destruct (Py.is_word c); [done|]. by rewrite andb_false_r.
  - apply double_dash_rstrip, double_dash_lstrip, sub_nonword_dashes.
  - intros c Hc. apply first_char_rstrip in Hc.
    by apply first_char_lstrip in Hc.
  - intros c Hc. by apply last_char_rstrip in Hc.
  - apply lower_fixed. eapply all_chars_impl; [|exact Hr]. intros c.
    cbv beta. destruct (Ascii.eqb_spec c "-") as [->|]; [done|].
    rewrite orb_false_r. by intros [? _]%andb_true_iff.
Qed.

(** X1.  A slug is never empty; it is made of word characters and single
    hyphens, begins and ends with neither a hyphen nor an underscore, and
    is in lower case. *)
Theorem slugify_shape (text : string) :
  slugify text <> ""
  /\ Py.all_chars slug_char (slugify text) = true
  /\ has_double_dash (slugify text) = false
  /\ (forall c, first_char (slugify text) = Some c ->
        is_dash_or_underscore c = false)
  /\ (forall c, last_char (slugify text) = Some c ->
        is_dash_or_underscore c = false)
  /\ Py.lower (slugify text) = slugify text.
Proof. apply slugify_facts. Qed.

(** X2.  The slug of a slug is the slug itself. *)
Theorem slugify_idempotent (text : string) :
  slugify (slugify text) = slugify text.
Proof.
  destruct (slugify_facts text) as (Hne&Hall&Hdd&Hfirst&Hlast&Hlow).
  set (s := slugify text) in *.
  assert (Hsp : Py.strip Py.is_space s = s).
  { unfold Py.strip. rewrite lstrip_id.
    - apply rstrip_id. destruct (last_char s) as [c|] eqn:E; [|done].
      assert (Hc := all_chars_last _ _ _ Hall E). unfold slug_char in Hc.
      specialize (Hlast c eq_refl). unfold is_dash_or_underscore in Hlast.
      apply orb_false_iff in Hlast as [Hd _]. rewrite Hd, orb_false_r in Hc.
      by apply word_not_space.
    - destruct s as [|c s']; [done|]. simpl in Hall.
      apply andb_true_iff in Hall as [Hc _]. unfold slug_char in Hc.
      specialize (Hfirst c eq_refl). unfold is_dash_or_underscore in Hfirst.
      apply orb_false_iff in Hfirst as [Hd _]. rewrite Hd, orb_false_r in Hc.
      by apply word_not_space. }
  assert (Hst : Py.strip is_dash_or_underscore s = s).
  { unfold Py.strip. rewrite lstrip_id.
    - apply rstrip_id. destruct (last_char s) as [c|] eqn:E; [|done]. auto.
    - destruct s as [|c s']; [done|]. by apply Hfirst. }
  unfold slugify at 1. rewrite Hsp, Hlow.
  destruct (sub_nonword_fixed s Hall Hdd) as [-> _]. rewrite Hst.
  unfold Py.truthy. by destruct (String.eqb_spec s "").
Qed.

(** ** MIME classification *)

Section Mime.
Variable guess_type : string -> option string.

Lemma image_type_prefix path m :
  image_type guess_type path = Some m -> Py.startswith m "image/" = true.
Proof.
  unfold image_type. destruct (guess_type _) as [x|]; [|done].
  destruct (Py.truthy x && Py.startswith x "image/") eqn:E; [|done].
  intros [= <-]. by apply andb_true_iff in E as [_ E].
Qed.

Lemma fallback_allowed x d :
  mem x ALLOWED_EXTENSIONS = true ->
  Py.startswith (assoc x fallback_map d) "image/" = true.
Proof.
  unfold mem, ALLOWED_EXTENSIONS, fallback_map. simpl.
  repeat (match goal with
          | |- context [String.eqb x ?e] => destruct (String.eqb x e)
          end; simpl; [reflexivity|]).
  discriminate.
Qed.

Lemma fallback_other x d :
  mem x ALLOWED_EXTENSIONS = false -> assoc x fallback_map d = d.
Proof.
  unfold mem, ALLOWED_EXTENSIONS, fallback_map. simpl.
  repeat (match goal with
          | |- context [String.eqb x ?e] => destruct (String.eqb x e)
          end; simpl; [discriminate|]).
  reflexivity.
Qed.

(** X3.  The files [is_image_file] accepts are those [guess_mime] gives
    an [image/] type; every other file gets [application/octet-stream]. *)
Theorem guess_mime_image (path : PurePath.t) :
  (is_image_file guess_type path = true
   <-> Py.startswith (guess_mime guess_type path) "image/" = true)
  /\ (is_image_file guess_type path = false ->
      guess_mime guess_type path = "application/octet-stream").
Proof.
  unfold is_image_file, guess_mime.
  destruct (image_type guess_type path) as [m|] eqn:Em.
  - apply image_type_prefix in Em.
    destruct (mem _ ALLOWED_EXTENSIONS); split; done.
  - destruct (mem _ ALLOWED_EXTENSIONS) eqn:Ea.
    + split; [|done]. split; [|done]. intros _. by apply fallback_allowed.
    + rewrite fallback_other by done. split; [|done]. split; done.
Qed.

Lemma image_mime path :
  is_image_file guess_type path = true ->
  Py.startswith (guess_mime guess_type path) "image/" = true.
Proof. intros H. unfold is_image_file, guess_mime in *. destruct (image_type guess_type path) as [m|] eqn:Em; [by apply image_type_prefix in Em|]. destruct (mem _ ALLOWED_EXTENSIONS) eqn:Ea; [by apply fallback_allowed|done]. Qed.

End Mime.

(** ** The shape of an allocated slug *)

Lemma numbered_prefix base_slug n : Py.startswith (numbered base_slug n) base_slug = true.
Proof. unfold Py.startswith, numbered. apply prefix_app. Qed.

(** The slug returned is the first free candidate. *)
Lemma ensure_unique_slug_least conn base_slug album_path slug_cache :
  exists j,
    ensure_unique_slug conn base_slug album_path slug_cache
    = Done (candidate_at base_slug
              (first_candidate base_slug album_path slug_cache) 1 j,
            {[candidate_at base_slug
                (first_candidate base_slug album_path slug_cache) 1 j]}
            ∪ slug_cache)
    /\ is_free conn slug_cache
         (candidate_at base_slug
            (first_candidate base_slug album_path slug_cache) 1 j) = true
    /\ forall i, i < j ->
         is_free conn slug_cache
           (candidate_at base_slug
              (first_candidate base_slug album_path slug_cache) 1 i) = false.
Proof.
  destruct (least_index
              (fun j => is_free conn slug_cache
                 (candidate_at base_slug
                    (first_candidate base_slug album_path slug_cache) 1 j))
              (S (size (occupied conn slug_cache)))
              (free_candidate_exists conn base_slug album_path slug_cache))
    as (j&Hj&Hfree&Hbusy).
  exists j. split; [|done].
  unfold ensure_unique_slug, ensure_unique_slug_fuel.
  by apply probe_first_free.
Qed.

(** X4.  The slug [ensure_unique_slug] returns is the base slug when that
    is free, else the hashed candidate (only tried when the base slug is
    in the known-slug set) when that is free, else the numbered candidate
    with the least number from 2 on that is free.  It always begins with
    the base slug. *)
Theorem ensure_unique_slug_shape (conn : Conn) (base_slug album_path : string)
    (slug_cache : gset string) :
  exists s,
    ensure_unique_slug conn base_slug album_path slug_cache
    = Done (s, {[s]} ∪ slug_cache)
    /\ (s = base_slug <-> base_slug ∉ occupied conn slug_cache)
    /\ (base_slug ∈ slug_cache ->
        hashed base_slug album_path ∉ occupied conn slug_cache ->
        s = hashed base_slug album_path)
    /\ (s = base_slug
        \/ (base_slug ∈ slug_cache /\ s = hashed base_slug album_path)
        \/ exists n,
             (2 <= n)%N /\ s = numbered base_slug n
             /\ first_candidate base_slug album_path slug_cache
                ∈ occupied conn slug_cache
             /\ forall k, (2 <= k < n)%N ->
                  numbered base_slug k ∈ occupied conn slug_cache)
    /\ Py.startswith s base_slug = true.
Proof.
  destruct (ensure_unique_slug_least conn base_slug album_path slug_cache)
    as (j&Hrun&Hfree&Hbusy).
  eexists. split; [exact Hrun|].
  set (first := first_candidate base_slug album_path slug_cache) in *.
  assert (Hfirst : first = base_slug /\ base_slug ∉ slug_cache
                   \/ first = hashed base_slug album_path
                      /\ base_slug ∈ slug_cache).
  { subst first. unfold first_candidate, hashed.
    destruct (bool_decide_reflect (base_slug ∈ slug_cache)); auto. }
  apply is_free_spec in Hfree.
  split; [|split; [|split]].
  - split.
    + intros E. by rewrite E in Hfree.
    + intros Hb. destruct j as [|j]; simpl.
      * destruct Hfirst as [[-> _]|[_ Hin]]; [done|].
        exfalso. apply Hb. unfold occupied. set_solver.
      * exfalso. assert (H0 := Hbusy 0 ltac:(lia)). simpl in H0.
        apply is_busy_spec in H0.
        destruct Hfirst as [[E _]|[_ Hin]]; [by rewrite E in H0|].
        apply Hb. unfold occupied. set_solver.
  - intros Hin Hh. destruct Hfirst as [[_ Hn]|[E _]]; [done|].
    destruct j as [|j]; [done|].
    assert (H0 := Hbusy 0 ltac:(lia)). simpl in H0.
    apply is_busy_spec in H0. by rewrite E in H0.
  - destruct j as [|j]; [simpl|].
    + destruct Hfirst as [[-> _]|[-> ?]]; auto.
    + right. right. exists (1 + N.of_nat (S j))%N.
      rewrite candidate_at_succ. split; [lia|]. split; [done|]. split.
      * apply is_busy_spec. apply (Hbusy 0). lia.
      * intros k Hk. apply is_busy_spec.
        replace k with (1 + N.of_nat (S (N.to_nat k - 2)))%N by lia.
        rewrite <- (candidate_at_succ base_slug _ first).
        apply Hbusy. lia.
  - destruct j as [|j].
    + simpl. destruct Hfirst as [[-> _]|[-> _]].
      * unfold Py.startswith. rewrite <- (app_nil_r_str base_slug) at 2.
        apply prefix_app.
      * unfold hashed, Py.startswith. apply prefix_app.
    + rewrite candidate_at_succ. apply numbered_prefix.
Qed.

(** ** Repairing twice *)

Section RepairTwice.
Variable now_at : nat -> string.
Variable guess_type : string -> option string.

(** X5.  A row that a repair has rewritten needs no further repair: the
    repair of the reloaded row, for the same file and the same decision,
    reports no change and leaves the context alone, provided the decided
    identifier is not the empty string and the identifier now stored is a
    known one. *)
Theorem repair_converges (fs : FileSystem) (c : RecoveryContext)
    (existing : ExistingFileRow.t) (full_path : PurePath.t) (rel_key : string)
    (target : option string) (sz : Z) (ts : string) (r : file_row) :
  stat_size fs full_path = Some sz ->
  is_image_file guess_type full_path = true ->
  target <> Some "" ->
  let r' := repaired_row (repair_target existing target)
              (PurePath.name full_path) sz (guess_mime guess_type full_path)
              ts r in
  (forall a, f_album_id r' = Some a -> a <> "" -> a ∈ album_ids c) ->
  repair_existing_file now_at guess_type fs c (snapshot_of r') full_path
    rel_key target = Done (c, false).
Proof.
  intros Hstat Himg Htarget r' Hknown.
  rewrite repair_existing_file_eq, Hstat. cbv zeta.
  assert (Hmime := image_mime guess_type _ Himg).
  set (mime := guess_mime guess_type full_path) in *.
  assert (Hno : needs_update c (snapshot_of r')
                  (repair_target (snapshot_of r') target) sz
                  (PurePath.name full_path) mime = false).
  { subst r'. simpl in Hknown.
    unfold needs_update, album_id_valid, repair_target. simpl.
    rewrite Z.eqb_refl, !String.eqb_refl, Hmime. simpl.
    rewrite andb_false_r. simpl.
    destruct target as [x|]; simpl in *.
    - assert (Hx : x <> "") by congruence.
      unfold Py.truthy. destruct (String.eqb_spec x ""); [done|]. simpl.
      rewrite String.eqb_refl. simpl.
      rewrite bool_decide_eq_true_2; [by rewrite andb_false_r|].
      by apply Hknown.
    - destruct (ExistingFileRow.album_id existing) as [a|]; simpl; [|done].
      unfold Py.truthy. destruct (String.eqb_spec a ""); simpl; [done|].
      rewrite String.eqb_refl. simpl.
      rewrite bool_decide_eq_true_2; [|by apply Hknown].
      unfold Py.truthy. by destruct (String.eqb a ""). }
  by rewrite Hno.
Qed.

End RepairTwice.

(** ** The loaded snapshot, entry by entry *)

Lemma truthy_spec s : Py.truthy s = true <-> s <> "".
Proof.
  unfold Py.truthy. destruct (String.eqb_spec s ""); simpl; split; congruence.
Qed.

Lemma last_with_snoc {A} (key : A -> string) rows x k r :
  last_with key (rows ++ [x]) k r
  <-> (r = x /\ key x = k) \/ (key x <> k /\ last_with key rows k r).
Proof.
  split.
  - intros (l1&l2&E&Hk&Hn).
    destruct l2 as [|y l2 _] using rev_ind.
    + apply app_inj_tail in E as [-> ->]. by left.
    + right. rewrite app_comm_cons, app_assoc in E.
      apply app_inj_tail in E as [-> ->].
      rewrite map_app in Hn. apply not_elem_of_app in Hn as [Hn Hy].
      split.
      * intros Ey. apply Hy. simpl. rewrite Ey. apply list_elem_of_singleton. done.
      * by exists l1, l2.
  - intros [[-> Hk]|[Hne (l1&l2&->&Hk&Hn)]].
    + exists rows, []. split; [done|]. split; [done|]. apply not_elem_of_nil.
    + exists l1, (l2 ++ [x])%list. split; [by rewrite <- app_assoc|].
      split; [done|]. rewrite map_app. apply not_elem_of_app. split; [done|].
      simpl. intros H%list_elem_of_singleton. congruence.
Qed.

Lemma last_with_nil {A} (key : A -> string) k r : ~ last_with key [] k r.
Proof. intros (l1&l2&E&_). by destruct l1. Qed.

Lemma load_album_snoc rows x :
  fold_left load_album (rows ++ [x]) (∅, ∅, ∅)
  = load_album (fold_left load_album rows (∅, ∅, ∅)) x.
Proof. by rewrite fold_left_app. Qed.

Lemma load_file_snoc rows x :
  fold_left load_file (rows ++ [x]) (∅, ∅)
  = load_file (fold_left load_file rows (∅, ∅)) x.
Proof. by rewrite fold_left_app. Qed.

Lemma loaded_album_cache rows p i :
  (fold_left load_album rows (∅, ∅, ∅)).1.1 !! p = Some i
  <-> p <> "" /\ exists r, last_with a_path rows p r /\ a_id r = i.
Proof.
  induction rows as [|x rows IH] using rev_ind.
  - simpl. rewrite lookup_empty. split; [done|].
    intros (_&r&H&_). by apply last_with_nil in H.
  - rewrite load_album_snoc.
    destruct (fold_left load_album rows (∅, ∅, ∅)) as [[ac sc] ids].
    simpl in *. setoid_rewrite last_with_snoc.
    destruct (Py.truthy (a_path x)) eqn:Et.
    + apply truthy_spec in Et.
      destruct (decide (a_path x = p)) as [<- |Hne].
      * rewrite lookup_insert_eq. split.
        -- intros [= <-]. split; [done|]. exists x. split; [by left|done].
        -- intros (_&r&[[-> _]|[? _]]&<-); done.
      * rewrite lookup_insert_ne by done. rewrite IH. split.
        -- intros (Hp&r&Hr&Hi). split; [done|]. exists r. split; [by right|done].
        -- intros (Hp&r&[[-> ?]|[_ Hr]]&Hi); [done|]. split; [done|]. by exists r.
    + assert (Ex : a_path x = "").
      { destruct (String.eqb_spec (a_path x) "") as [E|E]; [done|].
        apply truthy_spec in E. congruence. }
      rewrite IH. split.
      * intros (Hp&r&Hr&Hi). split; [done|]. exists r.
        split; [right; split; [congruence|done]|done].
      * intros (Hp&r&[[-> ?]|[_ Hr]]&Hi); [congruence|]. split; [done|]. by exists r.
Qed.

Lemma loaded_slug_cache rows s :
  s ∈ (fold_left load_album rows (∅, ∅, ∅)).1.2
  <-> s <> "" /\ s ∈ List.map a_slug rows.
Proof.
  induction rows as [|x rows IH] using rev_ind.
  - simpl. split; [by intros ?%elem_of_empty|]. by intros [_ ?%elem_of_nil].
  - rewrite load_album_snoc, map_app.
    destruct (fold_left load_album rows (∅, ∅, ∅)) as [[ac sc] ids].
    simpl in *. rewrite elem_of_app, list_elem_of_singleton.
    destruct (Py.truthy (a_slug x)) eqn:Et.
    + apply truthy_spec in Et. rewrite elem_of_union, elem_of_singleton, IH.
      split; [intros [-> |[? ?]]; auto|]. intros [? [?| ->]]; auto.
    + assert (Ex : a_slug x = "").
      { destruct (String.eqb_spec (a_slug x) "") as [E|E]; [done|].
        apply truthy_spec in E. congruence. }
      rewrite IH. split; [intros [? ?]; auto|].
      intros [? [?| ->]]; [auto|congruence].
Qed.

Lemma loaded_album_ids rows i :
  i ∈ (fold_left load_album rows (∅, ∅, ∅)).2
  <-> i <> "" /\ i ∈ List.map a_id rows.
Proof.
  induction rows as [|x rows IH] using rev_ind.
  - simpl. split; [by intros ?%elem_of_empty|]. by intros [_ ?%elem_of_nil].
  - rewrite load_album_snoc, map_app.
    destruct (fold_left load_album rows (∅, ∅, ∅)) as [[ac sc] ids].
    simpl in *. rewrite elem_of_app, list_elem_of_singleton.
    destruct (Py.truthy (a_id x)) eqn:Et.
    + apply truthy_spec in Et. rewrite elem_of_union, elem_of_singleton, IH.
      split; [intros [-> |[? ?]]; auto|]. intros [? [?| ->]]; auto.
    + assert (Ex : a_id x = "").
      { destruct (String.eqb_spec (a_id x) "") as [E|E]; [done|].
        apply truthy_spec in E. congruence. }
      rewrite IH. split; [intros [? ?]; auto|].
      intros [? [?| ->]]; [auto|congruence].
Qed.

Lemma loaded_existing_files rows k e :
  (fold_left load_file rows (∅, ∅)).2 !! k = Some e
  <-> exists r, last_with f_key rows k r /\ e = snapshot_of r.
Proof.
  induction rows as [|x rows IH] using rev_ind.
  - simpl. rewrite lookup_empty. split; [done|].
    intros (r&H&_). by apply last_with_nil in H.
  - rewrite load_file_snoc.
    destruct (fold_left load_file rows (∅, ∅)) as [keys m].
    simpl in *. setoid_rewrite last_with_snoc.
    destruct (decide (f_key x = k)) as [<- |Hne].
    + rewrite lookup_insert_eq. split.
      * intros [= <-]. exists x. split; [by left|done].
      * intros (r&[[-> _]|[? _]]&->); done.
    + rewrite lookup_insert_ne by done. rewrite IH. split.
      * intros (r&Hr&Hi). exists r. split; [by right|done].
      * intros (r&[[-> ?]|[_ Hr]]&Hi); [done|]. by exists r.
Qed.

(** X6.  What [load_existing_state] returns: the path cache maps every
    non-empty stored path to the identifier of the last album row with
    that path; the known slugs and the known identifiers are the non-empty
    stored ones; the known keys are the stored keys; and the snapshot of a
    key is taken from the last file row with that key, an empty container
    id being read as none. *)
Theorem load_existing_state_spec (db : Conn) :
  let '(album_cache, slug_cache, existing_keys, existing_files, album_ids) :=
    load_existing_state db in
  (forall p i,
     album_cache !! p = Some i
     <-> p <> "" /\ exists r, last_with a_path (albums db) p r /\ a_id r = i)
  /\ (forall s, s ∈ slug_cache <-> s <> "" /\ s ∈ List.map a_slug (albums db))
  /\ (forall i, i ∈ album_ids <-> i <> "" /\ i ∈ List.map a_id (albums db))
  /\ (forall k, k ∈ existing_keys <-> k ∈ List.map f_key (files db))
  /\ (forall k e,
        existing_files !! k = Some e
        <-> exists r, last_with f_key (files db) k r /\ e = snapshot_of r)
  /\ (forall k e,
        existing_files !! k = Some e ->
        ExistingFileRow.album_id e <> Some "").
Proof.
  rewrite load_existing_state_eq.
  split; [apply loaded_album_cache|]. split; [apply loaded_slug_cache|].
  split; [apply loaded_album_ids|]. split.
  { intros k. rewrite fold_load_file_keys. split; [|auto].
    by intros [?%elem_of_empty|?]. }
  split; [apply loaded_existing_files|].
  intros k e (r&_&->)%loaded_existing_files. unfold snapshot_of. simpl.
  destruct (f_album_id r) as [a|]; [|done].
  destruct (Py.truthy a) eqn:E; [|done]. intros [= ->]. done.
Qed.

(** ** Slashes in an album path *)

Section Slashes.
Variable uuid4_at : nat -> string.
Variable now_at : nat -> string.

Lemma path_segments_root p : path_segments p <> [] -> p <> "" /\ p <> "/".
Proof. intros H. split; intros ->; by apply H. Qed.

(** X7.  Redundant slashes in an album path do not matter: a path with at
    least one segment and its normal form have the same segments, the
    normal form is its own normal form, and [ensure_album_chain] does the
    same on both. *)
Theorem ensure_album_chain_normalized (c : RecoveryContext) (p : string) :
  path_segments p <> [] ->
  path_segments (normalize_album_path p) = path_segments p
  /\ normalize_album_path (normalize_album_path p) = normalize_album_path p
  /\ ensure_album_chain uuid4_at now_at c (normalize_album_path p)
     = ensure_album_chain uuid4_at now_at c p.
Proof.
  intros Hne. assert (Hok := path_segments_ok p).
  destruct (path_segments_root p Hne) as [Hp1 Hp2].
  assert (Hseg : path_segments (normalize_album_path p) = path_segments p).
  { unfold normalize_album_path at 1. by apply path_segments_joined. }
  assert (Hnorm : normalize_album_path (normalize_album_path p)
                  = normalize_album_path p).
  { unfold normalize_album_path at 2 3. by apply normalize_joined. }
  split; [done|]. split; [done|].
  destruct (joined_not_root (path_segments p) Hne Hok) as [Hn1 Hn2].
  unfold ensure_album_chain.
  fold (normalize_album_path p) in Hn1, Hn2.
  rewrite (root_test_false _ Hn1 Hn2), (root_test_false _ Hp1 Hp2).
  cbv zeta. by rewrite Hnorm.
Qed.

End Slashes.

(** ** The files of a walk *)

Lemma fsnode_induction (P : fsnode -> Prop) :
  (forall nm sz, P (FsFile nm sz)) ->
  (forall nm entries, Forall P entries -> P (FsDir nm entries)) ->
  forall n, P n.
Proof.
  intros Hf Hd. fix IH 1. intros [nm sz|nm entries]; [apply Hf|].
  apply Hd. induction entries as [|e entries IHe]; constructor.
  - apply IH.
  - exact IHe.
Qed.

Lemma elem_of_flat_map {A B} (f : A -> list B) (l : list A) (y : B) :
  y ∈ flat_map f l <-> exists x, x ∈ l /\ y ∈ f x.
Proof.
  rewrite list_elem_of_In, in_flat_map. split.
  - intros (x&Hx&Hy). exists x. by rewrite !list_elem_of_In.
  - intros (x&Hx&Hy). exists x. by rewrite <- !list_elem_of_In.
Qed.

Lemma files_here_spec include_hidden root_path entries p :
  p ∈ files_here include_hidden root_path entries
  <-> exists file sz,
        FsFile file sz ∈ entries
        /\ keep_file include_hidden file = true
        /\ p = PurePath.child root_path file.
Proof.
  unfold files_here. rewrite elem_of_flat_map. split.
  - intros ([file sz|d es]&Hin&Hp); [|by apply elem_of_nil in Hp].
    destruct (keep_file include_hidden file) eqn:E; [|by apply elem_of_nil in Hp].
    apply list_elem_of_singleton in Hp. eauto.
  - intros (file&sz&Hin&Hk&->). exists (FsFile file sz). split; [done|].
    rewrite Hk. by apply list_elem_of_singleton.
Qed.

Lemma iter_files_node_spec include_hidden n :
  forall root_path p,
    p ∈ iter_files_node include_hidden root_path n
    <-> exists dirs file,
          has_file n dirs file
          /\ Forall (fun d => keep_dir include_hidden d = true) dirs
          /\ keep_file include_hidden file = true
          /\ p = PurePath.Build (PurePath.root root_path)
                   (PurePath.parts root_path ++ dirs ++ [file]).
Proof.
  induction n as [nm sz|nm entries IH] using fsnode_induction;
    intros root_path p.
  - simpl. split; [by intros ?%elem_of_nil|].
    intros (dirs&file&H&_). inversion H.
  - simpl. rewrite elem_of_app, files_here_spec, elem_of_flat_map. split.
    + intros [(file&sz&Hin&Hk&->)|(d&Hin&Hp)].
      * exists [], file. split; [by econstructor|]. split; [done|]. done.
      * destruct d as [|dn es]; [by apply elem_of_nil in Hp|].
        destruct (keep_dir include_hidden dn) eqn:Ek; [|by apply elem_of_nil in Hp].
        rewrite Forall_forall in IH. apply (IH _ Hin) in Hp
          as (dirs&file&Hf&Hd&Hk&->).
        exists (dn :: dirs), file. split; [by econstructor|].
        split; [by constructor|]. split; [done|].
        simpl. by rewrite <- app_assoc.
    + intros (dirs&file&Hf&Hd&Hk&->). inversion Hf; subst.
      * left. eauto.
      * right. exists (FsDir d es). split; [done|].
        apply Forall_cons in Hd as [Hd1 Hd]. rewrite Hd1.
        rewrite Forall_forall in IH. apply (IH _ H1).
        exists dirs0, file. split; [done|]. split; [done|]. split; [done|].
        simpl. by rewrite <- app_assoc.
Qed.

Lemma keep_dir_spec include_hidden d :
  keep_dir include_hidden d = true
  <-> (d ∉ IGNORED_DIR_NAMES)
      /\ (include_hidden = false -> Py.startswith d "." = false).
Proof.
  unfold keep_dir, mem.
  destruct (existsb (String.eqb d) IGNORED_DIR_NAMES) eqn:E.
  - split; [done|]. intros [Hn _]. exfalso. apply Hn.
    apply existsb_exists in E as (x&Hx&->%String.eqb_eq).
    by apply list_elem_of_In.
  - assert (Hn : d ∉ IGNORED_DIR_NAMES).
    { intros Hin%list_elem_of_In.
      assert (existsb (String.eqb d) IGNORED_DIR_NAMES = true); [|congruence].
      apply existsb_exists. exists d. split; [done|]. apply String.eqb_refl. }
    destruct include_hidden; simpl.
    + split; [|done]. intros _. split; [done|]. discriminate.
    + destruct (Py.startswith d "."); split; try done.
      * intros [_ H]. by specialize (H eq_refl).
Qed.

Lemma keep_file_spec include_hidden file :
  keep_file include_hidden file = true
  <-> (include_hidden = false -> Py.startswith file "." = false).
Proof.
  unfold keep_file. destruct include_hidden; simpl; [done|].
  destruct (Py.startswith file "."); simpl; split; try done.
  intros H. by specialize (H eq_refl).
Qed.

(** X8.  [iter_files] yields exactly the files that lie below the base
    directory at the end of a chain of sub-directories none of which is
    ignored ([.cache], [.trash], [config], [logs]) and, unless hidden
    entries are included, none of which begins with a dot, the file name
    not beginning with a dot either.  Nothing is yielded when the base is
    not a directory. *)
Theorem iter_files_spec (fs : FileSystem) (base : PurePath.t)
    (include_hidden : bool) (p : PurePath.t) :
  p ∈ iter_files fs base include_hidden
  <-> exists n dirs file,
        lookup_node (tree fs) (PurePath.parts base) = Some n
        /\ has_file n dirs file
        /\ Forall (fun d =>
                     (d ∉ IGNORED_DIR_NAMES)
                     /\ (include_hidden = false -> Py.startswith d "." = false))
                  dirs
        /\ (include_hidden = false -> Py.startswith file "." = false)
        /\ p = PurePath.Build (PurePath.root base)
                 (PurePath.parts base ++ dirs ++ [file]).
Proof.
  unfold iter_files.
  destruct (lookup_node (tree fs) (PurePath.parts base)) as [n|].
  - rewrite iter_files_node_spec. split.
    + intros (dirs&file&Hf&Hd&Hk&->). exists n, dirs, file.
      split; [done|]. split; [done|]. split.
      * eapply Forall_impl; [exact Hd|]. intros d. apply keep_dir_spec.
      * split; [by apply keep_file_spec|done].
    + intros (n'&dirs&file&[= <-]&Hf&Hd&Hk&->). exists dirs, file.
      split; [done|]. split.
      * eapply Forall_impl; [exact Hd|]. intros d. apply keep_dir_spec.
      * split; [by apply keep_file_spec|done].
  - split; [by intros ?%elem_of_nil|]. by intros (n&dirs&file&?&_).
Qed.

(** ** Keys and paths *)

Lemma strip_prefix_app base rest :
  PurePath.strip_prefix base (base ++ rest) = Some rest.
Proof.
  induction base as [|b base IH]; simpl; [by destruct rest|].
  by rewrite String.eqb_refl.
Qed.

Lemma relative_to_below root base rest :
  PurePath.relative_to (PurePath.Build root (base ++ rest))
                       (PurePath.Build root base)
  = Some (PurePath.Build "" rest).
Proof.
  unfold PurePath.relative_to. simpl.
  by rewrite String.eqb_refl, strip_prefix_app.
Qed.

Lemma normalize_rel_key_below root base rest :
  rest <> [] ->
  normalize_rel_key (PurePath.Build root (base ++ rest))
                    (PurePath.Build root base)
  = Done (Py.join "/" rest).
Proof.
  intros Hne. unfold normalize_rel_key. rewrite relative_to_below.
  unfold PurePath.to_string. simpl. by destruct rest.
Qed.

Lemma entry_names_elem nm entries e :
  entry_names (FsDir nm entries) -> e ∈ entries ->
  entry_name (node_name e) /\ entry_names e.
Proof.
  simpl. induction entries as [|x entries IH]; [by intros _ ?%elem_of_nil|].
  intros (H1&H2&H3) [-> | Hin]%elem_of_cons; [done|]. by apply IH.
Qed.

Lemma has_file_names n dirs file :
  has_file n dirs file -> entry_names n ->
  Forall entry_name (dirs ++ [file]).
Proof.
  induction 1 as [nm entries file sz Hin|nm entries d es dirs file Hin _ IH];
    intros Hn.
  - destruct (entry_names_elem _ _ _ Hn Hin) as [H _].
    constructor; [exact H|constructor].
  - destruct (entry_names_elem _ _ _ Hn Hin) as [H1 H2]. simpl.
    constructor; [done|]. by apply IH.
Qed.

Lemma parse_entry_names l :
  l <> [] -> Forall entry_name l ->
  PurePath.parse (Py.join "/" l) = PurePath.Build "" l.
Proof.
  intros Hl H. unfold PurePath.parse.
  rewrite split_join;
    [|done|eapply Forall_impl; [exact H|by intros x (_&_&?)]].
  rewrite filter_all.
  2:{ eapply Forall_impl; [exact H|]. intros x (H1&H2&_).
      unfold PurePath.is_component.
      apply andb_true_iff; split; apply negb_true_iff, String.eqb_neq; done. }
  destruct l as [|x l]; [done|].
  inversion H as [|? ? Hx _]; subst.
  destruct (join_head "/" x l) as (c&s&Ex&->); [apply Hx|].
  destruct Hx as (_&_&Hx). rewrite Ex, no_char_cons in Hx.
  simpl. unfold Py.is_slash. destruct (Ascii.eqb_spec c "/"); [tauto|done].
Qed.

(** X9.  In a tree whose entries have proper names (not empty, not [.],
    no slash), every file of the walk has a key relative to the base of
    the walk, joining the base with that key gives the file back, and no
    other file of the walk has the same key. *)
Theorem rel_key_round_trip (fs : FileSystem) (base : PurePath.t)
    (include_hidden : bool) (n : fsnode) (p : PurePath.t) :
  lookup_node (tree fs) (PurePath.parts base) = Some n ->
  entry_names n ->
  p ∈ iter_files fs base include_hidden ->
  exists key,
    normalize_rel_key p base = Done key
    /\ PurePath.joinpath base key = p
    /\ forall p',
         p' ∈ iter_files fs base include_hidden ->
         normalize_rel_key p' base = Done key -> p' = p.
Proof.
  intros Hn Hnames Hp.
  assert (Hkey : forall q,
            q ∈ iter_files fs base include_hidden ->
            exists key,
              normalize_rel_key q base = Done key
              /\ PurePath.joinpath base key = q).
  { intros q (n'&dirs&file&Hn'&Hf&_&_&->)%iter_files_spec.
    rewrite Hn in Hn'. injection Hn' as <-.
    assert (Hl := has_file_names _ _ _ Hf Hnames).
    exists (Py.join "/" (dirs ++ [file])). destruct base as [root parts].
    split; [apply normalize_rel_key_below; by destruct dirs|].
    unfold PurePath.joinpath.
    rewrite parse_entry_names by (done || by destruct dirs). done. }
  destruct (Hkey p Hp) as (key&Hk&Hj). exists key.
  split; [done|]. split; [done|]. intros p' Hp' Hk'.
  destruct (Hkey p' Hp') as (key'&Hk2&Hj'). congruence.
Qed.

(** ** The loop body, case by case *)

Section Body.
Variable uuid4_at : nat -> string.
Variable now_at : nat -> string.
Variable guess_type : string -> option string.

Lemma process_file_cases args fs uploads_dir existing_files s p s' :
  process_file uuid4_at now_at guess_type args fs uploads_dir existing_files
    s p = Done s' ->
  exists key,
    normalize_rel_key p uploads_dir = Done key
    /\ ((is_image_file guess_type p = false
         /\ s' = count_non_image (count_scanned s))
        \/ (is_image_file guess_type p = true
            /\ exists album_path c1 aid,
                 decide_album_path key (Args.album_mode args) = Done album_path
                 /\ album_id_for uuid4_at now_at (ctx s) album_path
                    = Done (c1, aid)
                 /\ ((key ∈ existing_keys s
                      /\ handle_existing now_at guess_type args fs
                           existing_files (with_ctx (count_scanned s) c1)
                           p key aid = Done s')
                     \/ ((key ∉ existing_keys s)
                         /\ s' = handle_new uuid4_at now_at guess_type args fs
                                   (with_ctx (count_scanned s) c1) p key
                                   aid)))).
Proof.
  unfold process_file.
  destruct (normalize_rel_key p uploads_dir) as [key| |]; simpl; try done.
  intros H. exists key. split; [done|].
  destruct (is_image_file guess_type p); simpl in H.
  2:{ left. split; [done|]. congruence. }
  right. split; [done|].
  destruct (decide_album_path key (Args.album_mode args))
    as [album_path| |]; simpl in H; try done.
  destruct (album_id_for uuid4_at now_at (ctx s) album_path)
    as [[c1 aid]| |] eqn:Echain; simpl in H; try done.
  exists album_path, c1, aid. split; [done|]. split; [done|].
  revert H. case_bool_decide as Hkey; intros H.
  - left. split; [exact Hkey|exact H].
  - right. split; [exact Hkey|congruence].
Qed.

Lemma handle_existing_cases args fs existing_files s p key aid s' :
  handle_existing now_at guess_type args fs existing_files s p key aid
  = Done s' ->
  ((Args.repair_existing args = false \/ existing_files !! key = None)
   /\ s' = count_existing s)
  \/ (Args.repair_existing args = true
      /\ exists e,
           existing_files !! key = Some e
           /\ ((exists c',
                  repair_existing_file now_at guess_type fs (ctx s) e p key aid
                  = Done (c', true)
                  /\ s' = count_repaired (with_ctx (count_existing s) c'))
               \/ (repair_existing_file now_at guess_type fs (ctx s) e p key aid
                   = Done (ctx s, false)
                   /\ s' = count_existing s)
               \/ (stat_size fs p = None
                   /\ s' = count_failed (count_existing s)))).
Proof.
  unfold handle_existing.
  destruct (Args.repair_existing args); [|intros [= <-]; auto].
  destruct (existing_files !! key) as [e|]; [|intros [= <-]; auto].
  intros H. right. split; [done|]. exists e. split; [done|].
  simpl in H. rewrite repair_existing_file_eq in H |- *.
  destruct (stat_size fs p) as [sz|]; simpl in H |- *.
  - destruct (needs_update _ _ _ _ _ _ && negb (dry_run (ctx s))) eqn:E.
    + left. eexists. split; [reflexivity|]. congruence.
    + destruct (needs_update _ _ _ _ _ _) eqn:En.
      * left. eexists. split; [reflexivity|]. congruence.
      * right. left. split; [done|]. injection H as <-. by destruct s.
  - right. right. split; [done|]. congruence.
Qed.

Lemma tally_refl repair s : tally repair s s 0 0.
Proof. constructor; intros; lia. Qed.

Lemma tally_trans repair s1 s2 s3 i1 o1 i2 o2 :
  tally repair s1 s2 i1 o1 -> tally repair s2 s3 i2 o2 ->
  tally repair s1 s3 (i1 + i2) (o1 + o2).
Proof.
  intros [A1 A2 A3 A4 A5 A6 A7 A8 A9 Aplain] [B1 B2 B3 B4 B5 B6 B7 B8 B9 Bplain].
  constructor; try lia.
  intros Hr. specialize (Aplain Hr). specialize (Bplain Hr). lia.
Qed.

Lemma process_file_tally args fs uploads_dir existing_files s p s' :
  process_file uuid4_at now_at guess_type args fs uploads_dir existing_files
    s p = Done s' ->
  if is_image_file guess_type p
  then tally (Args.repair_existing args) s s' 1 0
  else tally (Args.repair_existing args) s s' 0 1.
Proof.
  intros (key&_&[[-> ->]|[-> (ap&c1&aid&_&_&H)]])%process_file_cases.
  { constructor; simpl; intros; lia. }
  destruct H as [[_ H]|[_ ->]].
  - apply handle_existing_cases in H
      as [[Hr ->]|(Hr&e&_&[(c'&_&->)|[[_ ->]|[_ ->]]])];
      constructor; simpl; intros; try lia; try congruence.
  - unfold handle_new. destruct (stat_size fs p); simpl.
    + destruct (Args.dry_run args); simpl.
      * constructor; simpl; intros; lia.
      * destruct (insert_file _ _); constructor; simpl; intros; lia.
    + constructor; simpl; intros; lia.
Qed.

Lemma walk_tally args fs uploads_dir existing_files paths :
  forall s s',
    walk uuid4_at now_at guess_type args fs uploads_dir existing_files s paths
    = Done s' ->
    tally (Args.repair_existing args) s s'
      (length (List.filter (is_image_file guess_type) paths))
      (length (List.filter (fun p => negb (is_image_file guess_type p)) paths)).
Proof.
  induction paths as [|p rest IH]; intros s s'; simpl.
  - intros [= <-]. apply tally_refl.
  - destruct (process_file _ _ _ _ _ _ _ s p) as [s1| |] eqn:E1; simpl;
      try done.
    intros H. apply process_file_tally in E1. apply IH in H.
    destruct (is_image_file guess_type p); simpl.
    + apply (tally_trans _ _ _ _ 1 0 _ _ E1 H).
    + apply (tally_trans _ _ _ _ 0 1 _ _ E1 H).
Qed.

End Body.

(** ** Exit status, events and counts of a run *)

Section Outcome.
Variable uuid4_at : nat -> string.
Variable now_at : nat -> string.
Variable guess_type : string -> option string.

Lemma step_preview_conn c c' :
  ctx_step uuid4_at now_at c c' -> dry_run c = true -> conn c' = conn c.
Proof.
  intros [c0 parent_id current segment _ _ _|c0 i a nm sz mime Hd
         |c0 row cn Hd _|c0|c0] Hdry; simpl; try congruence.
  by rewrite Hdry.
Qed.

Lemma steps_preview_conn c c' :
  rtc (ctx_step uuid4_at now_at) c c' -> dry_run c = true -> conn c' = conn c.
Proof.
  induction 1 as [|c1 c2 c3 H12 _ IH]; [done|]. intros Hd.
  rewrite IH; [by apply step_preview_conn|].
  by rewrite (step_dry _ _ _ _ H12).
Qed.


(** X11.  The counts of the summary of a run that reports one.  The
    files scanned are the files of the walk: the images and the files
    skipped as non-images.  The images counted as skipped-existing or
    inserted are at most the images, which are at most those together
    with the failures; an image is counted at most once as repaired,
    failed or inserted; no more are repaired than are skipped-existing.
    Without [--repair-existing] nothing is repaired and every image is
    counted exactly once, as skipped-existing, inserted or failed. *)
Theorem recover_accounting (args : Args.t) (fs : FileSystem) (db0 : Conn)
    (seed : nat * nat) :
  exists r,
    recover uuid4_at now_at guess_type args fs db0 seed = Done r
    /\ match summary r with
       | None => exit_status r <> 0%Z
       | Some sum =>
           let paths :=
             iter_files fs (scan_root_of args fs) (Args.include_hidden args) in
           let images := length (List.filter (is_image_file guess_type) paths) in
           sum_scanned sum = length paths
           /\ sum_scanned sum = images + sum_skipped_non_image sum
           /\ sum_skipped_existing sum + sum_inserted sum <= images
           /\ images
              <= sum_skipped_existing sum + sum_inserted sum + sum_failed sum
           /\ sum_repaired sum + sum_failed sum + sum_inserted sum <= images
           /\ sum_repaired sum <= sum_skipped_existing sum
           /\ (Args.repair_existing args = false ->
               sum_repaired sum = 0
               /\ images
                  = sum_skipped_existing sum + sum_inserted sum
                    + sum_failed sum)
       end.
Proof.
  unfold recover.
  destruct (negb (subdir_check args fs)); [by eexists|].
  destruct (negb (is_dir fs (uploads_dir_of args fs))); [by eexists|].
  destruct (negb (is_dir fs (scan_root_of args fs))); [by eexists|].
  assert (Hf := initial_state_fields args db0 seed).
  destruct (initial_state args db0 seed) as [s0 existing_files].
  simpl in Hf. destruct Hf as (_&_&_&_&Hi&He&Hr&Hs&Hn&Hfl).
  destruct (walk _ _ _ _ _ _ _ s0 _) as [s| |] eqn:Ew.
  - eexists. split; [reflexivity|]. simpl.
    apply walk_tally in Ew.
    destruct Ew as [T1 T2 T3 T4 T5 T6 T7 T8 T9 Tplain].
    set (paths := iter_files fs (scan_root_of args fs)
                    (Args.include_hidden args)) in *.
    assert (Hlen : length paths
                   = length (List.filter (is_image_file guess_type) paths)
                     + length (List.filter
                                 (fun p => negb (is_image_file guess_type p))
                                 paths)).
    { clear. induction paths as [|p l IH]; simpl; [done|].
      destruct (is_image_file guess_type p); simpl; lia. }
    do 6 (split; [lia|]). intros Hrep. specialize (Tplain Hrep). lia.
  - by eexists.
  - by apply walk_not_diverged in Ew.
Qed.

End Outcome.

(** ** Runs that succeed *)

Section Success.
Variable uuid4_at : nat -> string.
Variable now_at : nat -> string.
Variable guess_type : string -> option string.

Lemma chain_loop_preview segments :
  forall c parent_id current,
    dry_run c = true ->
    exists c' parent_id' current',
      chain_loop uuid4_at now_at c parent_id current segments
      = Done (c', parent_id', current')
      /\ dry_run c' = true.
Proof.
  induction segments as [|segment rest IH]; intros c parent_id current Hd;
    simpl; [by eauto|].
  rewrite chain_step_eq. cbv zeta.
  destruct (live_b _ _); simpl; [by apply IH|].
  rewrite Hd. simpl. by apply IH.
Qed.

Lemma album_id_for_preview c album_path :
  dry_run c = true ->
  exists c' aid, album_id_for uuid4_at now_at c album_path = Done (c', aid).
Proof.
  intros Hd. unfold album_id_for.
  destruct album_path as [p|]; [|by eauto].
  destruct (Py.truthy p); [|by eauto].
  unfold ensure_album_chain.
  destruct (negb (Py.truthy p) || String.eqb p "/"); [by eauto|].
  cbv zeta. destruct (album_cache c !! _); [by eauto|].
  destruct (chain_loop_preview
              (Py.split "/" (Py.strip Py.is_slash (normalize_album_path p)))
              c None "" Hd) as (c'&pid&cur&->&_).
  simpl. eauto.
Qed.

Lemma decide_album_path_supported key mode :
  In mode ["none"; "by-dir"; "auto"] ->
  exists album_path, decide_album_path key mode = Done album_path.
Proof.
  simpl. intros [<-|[<-|[<-|[]]]].
  - rewrite decide_none. eauto.
  - rewrite decide_by_dir. eauto.
  - rewrite decide_auto. eauto.
Qed.

Lemma process_file_preview args fs uploads_dir existing_files s p key :
  Args.dry_run args = true ->
  dry_run (ctx s) = true ->
  In (Args.album_mode args) ["none"; "by-dir"; "auto"] ->
  normalize_rel_key p uploads_dir = Done key ->
  exists s',
    process_file uuid4_at now_at guess_type args fs uploads_dir existing_files
      s p = Done s'
    /\ dry_run (ctx s') = true.
Proof.
  intros Hargs Hd Hmode Hkey.
  assert (Hdone : exists s',
            process_file uuid4_at now_at guess_type args fs uploads_dir
              existing_files s p = Done s').
  { unfold process_file. rewrite Hkey. simpl.
    destruct (negb (is_image_file guess_type p)); [by eauto|].
    destruct (decide_album_path_supported key _ Hmode) as [ap ->]. simpl.
    destruct (album_id_for_preview (ctx s) ap Hd) as (c'&aid&->). simpl.
    case_bool_decide; [apply handle_existing_total|by eauto]. }
  destruct Hdone as [s' Hs']. exists s'. split; [done|].
  apply process_file_steps in Hs'; [|congruence].
  rewrite <- Hd. by apply (steps_dry uuid4_at now_at).
Qed.

Lemma walk_preview args fs uploads_dir existing_files paths :
  Args.dry_run args = true ->
  In (Args.album_mode args) ["none"; "by-dir"; "auto"] ->
  Forall (fun p => exists key, normalize_rel_key p uploads_dir = Done key)
         paths ->
  forall s,
    dry_run (ctx s) = true ->
    exists s',
      walk uuid4_at now_at guess_type args fs uploads_dir existing_files
        s paths = Done s'.
Proof.
  intros Hargs Hmode. induction 1 as [|p rest [key Hkey] _ IH]; intros s Hd;
    simpl; [by eauto|].
  destruct (process_file_preview args fs uploads_dir existing_files s p key
              Hargs Hd Hmode Hkey) as (s1&->&Hd1).
  simpl. by apply IH.
Qed.

Lemma preview_args_id args :
  Args.dry_run args = true -> preview_args args = args.
Proof. destruct args; simpl. by intros ->. Qed.

Lemma inside_keys fs scan_root uploads_dir include_hidden :
  inside scan_root uploads_dir ->
  Forall (fun p => exists key, normalize_rel_key p uploads_dir = Done key)
         (iter_files fs scan_root include_hidden).
Proof.
  intros [Hroot [rest Hparts]]. apply List.Forall_forall. intros p Hp.
  apply list_elem_of_In, iter_files_spec in Hp
    as (n&dirs&file&_&_&_&_&->).
  destruct uploads_dir as [root parts]. simpl in *. rewrite Hroot, Hparts.
  rewrite <- app_assoc. eexists. apply normalize_rel_key_below.
  by destruct rest, dirs.
Qed.


End Success.

(** ** The hierarchy a run builds *)

Lemma alloc_slug_prefix cn base_slug album_path slug_cache :
  Py.startswith (alloc_slug cn base_slug album_path slug_cache) base_slug
  = true.
Proof.
  unfold alloc_slug.
  destruct (ensure_unique_slug_least cn base_slug album_path slug_cache)
    as (j&->&_&_).
  destruct j as [|j].
  - simpl. unfold first_candidate, Py.startswith.
    destruct (bool_decide _); [apply prefix_app|].
    rewrite <- (app_nil_r_str base_slug) at 2. apply prefix_app.
  - rewrite candidate_at_succ. apply numbered_prefix.
Qed.

Lemma child_of_mono rows rows' r :
  (forall q, q ∈ rows -> q ∈ rows') -> child_of rows r -> child_of rows' r.
Proof.
  intros Hsub (pp&Hp&H). exists pp. split; [done|].
  destruct (Py.truthy pp); [|done].
  destruct H as (q&Hq&?&?). exists q. auto.
Qed.

Lemma built_album_mono public rows rows' r :
  (forall q, q ∈ rows -> q ∈ rows') ->
  built_album public rows r -> built_album public rows' r.
Proof.
  intros Hsub (H&?). split; [|done]. by eapply child_of_mono.
Qed.

Lemma attached_mono mode rows rows' key aid :
  (forall q, q ∈ rows -> q ∈ rows') ->
  attached mode rows key aid -> attached mode rows' key aid.
Proof.
  intros Hsub (ap&Hd&H). exists ap. split; [done|].
  destruct ap as [q|]; [|done].
  destruct (negb (Py.truthy q) || String.eqb q "/"); [done|].
  destruct H as (a&?&?&?). exists a. auto.
Qed.

Section Hierarchy.
Variable uuid4_at : nat -> string.
Variable now_at : nat -> string.
Variable public : bool.
Variable rows0 : list album_row.

Lemma album_inv_same c c' :
  album_inv public rows0 c ->
  dry_run c' = dry_run c ->
  public_albums c' = public_albums c ->
  album_cache c' = album_cache c ->
  albums (conn c') = albums (conn c) ->
  album_inv public rows0 c'.
Proof.
  intros [H1 H2 H3 H4] Hd Hp Hc Ha. constructor.
  - congruence.
  - congruence.
  - intros p i. rewrite Hc, Ha. apply H3.
  - by rewrite Ha.
Qed.

Lemma album_inv_created c parent_id current segment :
  album_inv public rows0 c ->
  parent_ok c parent_id current ->
  let cur := next_current current segment in
  let c' := created uuid4_at now_at c parent_id cur segment in
  album_inv public rows0 c'
  /\ parent_ok c' (Some (uuid4_at (uuid_draws c))) cur
  /\ files (conn c') = files (conn c)
  /\ (forall q, q ∈ albums (conn c) -> q ∈ albums (conn c')).
Proof.
  intros [Hlive Hpub Hback (new&Hrows&Hnew)] Hparent cur c'.
  set (row := AlbumRow (uuid4_at (uuid_draws c)) segment
                (alloc_slug (conn c) (slugify segment) cur (slug_cache c))
                parent_id None (if public_albums c then 1%Z else 0%Z) None cur
                (now_at (clock_reads c)) (now_at (clock_reads c))).
  assert (Halb : albums (conn c') = (albums (conn c) ++ [row])%list).
  { subst c'. unfold created. simpl. by rewrite Hlive. }
  assert (Hsub : forall q, q ∈ albums (conn c) -> q ∈ albums (conn c')).
  { intros q Hq. rewrite Halb. apply elem_of_app. by left. }
  assert (Hrow : row ∈ albums (conn c')).
  { rewrite Halb. apply elem_of_app. right. by apply list_elem_of_singleton. }
  split; [|split; [|split; [|done]]].
  - constructor.
    + subst c'. by unfold created.
    + subst c'. by unfold created.
    + intros p i. subst c'. unfold created at 1. simpl.
      destruct (decide (cur = p)) as [<-|Hne].
      * rewrite lookup_insert_eq. intros [= <-]. exists row. done.
      * rewrite lookup_insert_ne by done. intros H.
        destruct (Hback p i H) as (q&Hq&?&?). exists q. auto.
    + exists (new ++ [row])%list. split.
      * by rewrite Halb, Hrows, <- app_assoc.
      * apply Forall_app. split.
        -- eapply Forall_impl; [exact Hnew|]. intros r.
           by apply built_album_mono.
        -- constructor; [|constructor]. split; [|split; [|split; [|split]]].
           ++ exists current. split; [done|]. unfold parent_ok in Hparent.
              destruct (Py.truthy current); [|done].
              destruct Hparent as (q&Hq&?&?). exists q. auto.
           ++ done.
           ++ done.
           ++ simpl. by rewrite Hpub.
           ++ split; [done|]. apply alloc_slug_prefix.
  - unfold parent_ok.
    assert (Ht : Py.truthy cur = true).
    { apply truthy_spec, next_current_nonempty. }
    rewrite Ht. exists row. done.
  - subst c'. unfold created. simpl. by rewrite Hlive.
Qed.

Lemma album_inv_chain_step c parent_id current segment c' parent_id' current' :
  chain_step uuid4_at now_at c parent_id current segment
  = Done (c', parent_id', current') ->
  album_inv public rows0 c ->
  parent_ok c parent_id current ->
  album_inv public rows0 c'
  /\ parent_ok c' parent_id' current'
  /\ files (conn c') = files (conn c)
  /\ (forall q, q ∈ albums (conn c) -> q ∈ albums (conn c')).
Proof.
  rewrite chain_step_eq. cbv zeta. intros H Hinv Hparent.
  destruct (live_b (album_cache c) (next_current current segment)) eqn:El.
  - injection H as <- <- <-. split; [done|]. split; [|done].
    unfold parent_ok.
    assert (Ht : Py.truthy (next_current current segment) = true).
    { apply truthy_spec, next_current_nonempty. }
    rewrite Ht. unfold live_b in El.
    destruct (album_cache c !! next_current current segment) as [e|] eqn:Ee;
      [|done].
    destruct (ai_backed _ _ _ Hinv _ _ Ee) as (q&Hq&Hp&<-). exists q. done.
  - destruct (dry_run c || negb (id_exists (conn c) (uuid4_at (uuid_draws c))));
      [|done].
    injection H as <- <- <-. by apply album_inv_created.
Qed.

Lemma album_inv_chain_loop segments :
  forall c parent_id current c' parent_id' current',
    chain_loop uuid4_at now_at c parent_id current segments
    = Done (c', parent_id', current') ->
    album_inv public rows0 c ->
    parent_ok c parent_id current ->
    album_inv public rows0 c'
    /\ files (conn c') = files (conn c)
    /\ (forall q, q ∈ albums (conn c) -> q ∈ albums (conn c')).
Proof.
  induction segments as [|segment rest IH];
    intros c parent_id current c' parent_id' current'; simpl.
  - intros [= <- <- <-]. done.
  - destruct (chain_step uuid4_at now_at c parent_id current segment)
      as [[[c1 p1] cur1]| |] eqn:E1; simpl; try done.
    intros H Hinv Hparent.
    destruct (album_inv_chain_step _ _ _ _ _ _ _ E1 Hinv Hparent)
      as (Hinv1&Hparent1&Hf1&Hs1).
    destruct (IH _ _ _ _ _ _ H Hinv1 Hparent1) as (Hinv2&Hf2&Hs2).
    split; [done|]. split; [congruence|]. auto.
Qed.

Lemma album_inv_album_id_for c album_path c' aid :
  album_id_for uuid4_at now_at c album_path = Done (c', aid) ->
  album_inv public rows0 c ->
  album_inv public rows0 c'
  /\ files (conn c') = files (conn c)
  /\ (forall q, q ∈ albums (conn c) -> q ∈ albums (conn c'))
  /\ match album_path with
     | Some q =>
         if negb (Py.truthy q) || String.eqb q "/" then aid = None
         else exists a,
                a ∈ albums (conn c') /\ a_path a = normalize_album_path q
                /\ aid = Some (a_id a)
     | None => aid = None
     end.
Proof.
  intros H Hinv.
  assert (Hfiles := album_id_for_files _ _ _ _ _ _ H).
  unfold album_id_for in H.
  destruct album_path as [p|]; [|by injection H as <- <-].
  destruct (Py.truthy p) eqn:Et; simpl; [|by injection H as <- <-].
  assert (Hdone := ensure_album_chain_done _ _ _ _ _ _ H).
  unfold ensure_album_chain in H. rewrite Et in H. simpl in H.
  destruct (String.eqb p "/") eqn:Er; simpl in H |- *;
    [by injection H as <- <-|].
  destruct Hdone as [_ [([-> | ->]&_)|(Hp1&Hp2&Hlook&Hsome&_)]]; [done|done|].
  assert (Hinv' : album_inv public rows0 c'
                  /\ (forall q, q ∈ albums (conn c) -> q ∈ albums (conn c'))).
  { destruct (album_cache c !! normalize_album_path p) as [hit|].
    - by injection H as <- <-.
    - destruct (chain_loop uuid4_at now_at c None "" _)
        as [[[c1 p1] cur1]| |] eqn:El; simpl in H; try done.
      injection H as <- <-.
      destruct (album_inv_chain_loop _ _ _ _ _ _ _ El Hinv) as (?&?&?);
        done. }
  destruct Hinv' as [Hinv' Hsub]. split; [done|]. split; [done|].
  split; [done|].
  destruct Hsome as [e He]. rewrite He in Hlook.
  destruct (ai_backed _ _ _ Hinv' _ _ Hlook) as (a&Ha&Hpa&<-).
  exists a. done.
Qed.

End Hierarchy.

(** ** The rows a run writes *)

Lemma same_item_refl r : same_item r r.
Proof. done. Qed.

Lemma same_item_ids l l' :
  Forall2 same_item l l' -> List.map f_id l' = List.map f_id l.
Proof.
  induction 1 as [|r r' l l' [_ Hid] _ IH]; simpl; [done|].
  f_equal; [|done]. unfold identity_columns in Hid. congruence.
Qed.

Lemma Forall2_same_item_refl l : Forall2 same_item l l.
Proof. induction l; constructor; done. Qed.

Section Rows.
Variable uuid4_at : nat -> string.
Variable now_at : nat -> string.
Variable guess_type : string -> option string.
Variable args : Args.t.
Variable fs : FileSystem.
Variable uploads_dir : PurePath.t.
Variable db0 : Conn.
Variable existing_files : gmap string ExistingFileRow.t.
Hypothesis live_run : Args.dry_run args = false.
Hypothesis snapshot_ids :
  forall k e,
    existing_files !! k = Some e ->
    ExistingFileRow.id e ∈ List.map f_id (files db0).


Lemma inserted_row_mono rows rows' paths paths' r :
  (forall q, q ∈ rows -> q ∈ rows') ->
  (forall p, p ∈ paths -> p ∈ paths') ->
  inserted_row guess_type fs uploads_dir (Args.album_mode args) rows paths r ->
  inserted_row guess_type fs uploads_dir (Args.album_mode args) rows' paths' r.
Proof.
  intros Hr Hp (p&Hin&H1&H2&H3&H4&H5&H6&H7&H8&H9). exists p.
  split; [auto|]. do 8 (split; [done|]). by eapply attached_mono.
Qed.

Lemma file_inv_mono paths paths' cn cn' :
  file_inv guess_type args fs uploads_dir db0 paths cn ->
  files cn' = files cn ->
  (forall q, q ∈ albums cn -> q ∈ albums cn') ->
  (forall p, p ∈ paths -> p ∈ paths') ->
  file_inv guess_type args fs uploads_dir db0 paths' cn'.
Proof.
  intros (old&new&Hf&Hold&Hplain&Hids&Hnew) Hfiles Halb Hpaths.
  exists old, new. split; [congruence|]. do 3 (split; [done|]).
  eapply Forall_impl; [exact Hnew|]. intros r. by apply inserted_row_mono.
Qed.

Lemma file_inv_update paths cn i a nm sz mime ts :
  Args.repair_existing args = true ->
  i ∈ List.map f_id (files db0) ->
  file_inv guess_type args fs uploads_dir db0 paths cn ->
  file_inv guess_type args fs uploads_dir db0 paths (update_file cn i a nm sz mime ts).
Proof using Type.
  intros Hrep Hi (old&new&Hf&Hold&Hplain&Hids&Hnew).
  set (g := fun r => if String.eqb (f_id r) i
                     then repaired_row a nm sz mime ts r else r).
  exists (List.map g old), new. split; [|split; [|split; [|split]]].
  - unfold update_file. simpl. rewrite Hf, map_app. f_equal.
    clear Hnew Hf. induction Hids as [|r l Hr _ IH]; simpl; [done|].
    rewrite IH. f_equal. subst g. simpl.
    destruct (String.eqb_spec (f_id r) i); [by subst|done].
  - apply Forall2_fmap_r. eapply Forall2_impl; [exact Hold|].
    intros r r' [H1 H2]. subst g. simpl.
    destruct (String.eqb (f_id r') i); [|done]. done.
  - congruence.
  - done.
  - done.
Qed.

Lemma file_inv_insert paths cn cn' row p :
  file_inv guess_type args fs uploads_dir db0 paths cn ->
  insert_file cn row = Some cn' ->
  inserted_row guess_type fs uploads_dir (Args.album_mode args) (albums cn)
    [p] row ->
  file_inv guess_type args fs uploads_dir db0 (paths ++ [p]) cn'.
Proof.
  intros (old&new&Hf&Hold&Hplain&Hids&Hnew) Hins Hrow.
  unfold insert_file in Hins.
  destruct (existsb _ (files cn) || existsb _ (files cn)) eqn:E; [done|].
  injection Hins as <-. simpl.
  apply orb_false_iff in E as [Eid _].
  exists old, (new ++ [row])%list. split; [by rewrite Hf, <- app_assoc|].
  do 2 (split; [done|]). split.
  - apply Forall_app. split; [done|]. constructor; [|constructor].
    rewrite <- (same_item_ids _ _ Hold). intros Hin.
    assert (existsb (fun x => String.eqb (f_id x) (f_id row)) (files cn)
            = true); [|congruence].
    apply list_elem_of_In, in_map_iff in Hin as (x&Hx&Hxin).
    apply existsb_exists. exists x. split.
    + rewrite Hf. apply in_app_iff. by left.
    + by apply String.eqb_eq.
  - apply Forall_app. split.
    + eapply Forall_impl; [exact Hnew|]. intros r.
      apply inserted_row_mono; [done|]. intros q Hq. apply elem_of_app. by left.
    + constructor; [|constructor].
      revert Hrow. apply inserted_row_mono; [done|].
      intros q Hq. apply elem_of_app. by right.
Qed.

Lemma repair_done_conn c e p key aid c' b :
  repair_existing_file now_at guess_type fs c e p key aid = Done (c', b) ->
  c' = c
  \/ exists t sz ts,
       c' = with_conn (read_clock c)
              (update_file (conn c) (ExistingFileRow.id e) t
                 (PurePath.name p) sz (guess_mime guess_type p) ts).
Proof.
  rewrite repair_existing_file_eq.
  destruct (stat_size fs p) as [sz|]; [|done]. cbv zeta.
  destruct (needs_update _ _ _ _ _ _ && negb (dry_run c)).
  - intros [= <- <-]. right. eauto.
  - intros [= <- <-]. by left.
Qed.

Lemma process_file_rows paths s p s' :
  album_inv (Args.public_albums args) (albums db0) (ctx s) ->
  file_inv guess_type args fs uploads_dir db0 paths (conn (ctx s)) ->
  process_file uuid4_at now_at guess_type args fs uploads_dir existing_files
    s p = Done s' ->
  album_inv (Args.public_albums args) (albums db0) (ctx s') /\ file_inv guess_type args fs uploads_dir db0 (paths ++ [p]) (conn (ctx s')).
Proof using live_run snapshot_ids.
  intros Halb Hfile
    (key&Hkey&[[Himg ->]|(Himg&ap&c1&aid&Hap&Hchain&H)])%process_file_cases.
  { simpl. split; [done|]. eapply file_inv_mono; eauto.
    intros q Hq. apply elem_of_app. by left. }
  destruct (album_inv_album_id_for _ _ _ _ _ _ _ _ Hchain Halb)
    as (Halb1&Hf1&Hsub1&Hatt).
  assert (Hfile1 : file_inv guess_type args fs uploads_dir db0 (paths ++ [p]) (conn c1)).
  { eapply file_inv_mono; eauto. intros q Hq. apply elem_of_app. by left. }
  destruct H as [[_ H]|[_ ->]].
  - apply handle_existing_cases in H
      as [[_ ->]|(Hrep&e&He&[(c'&Hr&->)|[[_ ->]|[_ ->]]])]; simpl; try done.
    apply repair_done_conn in Hr as [-> |(t&sz&ts&->)]; simpl; [done|].
    split.
    + eapply album_inv_same; [exact Halb1|done..].
    + apply file_inv_update; [done|by eapply snapshot_ids|done].
  - unfold handle_new. simpl.
    destruct (stat_size fs p) as [sz|] eqn:Estat; simpl; [|done].
    rewrite live_run.
    destruct (insert_file (conn c1) _) as [cn|] eqn:Eins; simpl.
    + assert (Hcn : albums cn = albums (conn c1)).
      { unfold insert_file in Eins.
        destruct (_ || _) in Eins; [done|]. by injection Eins as <-. }
      split.
      * eapply album_inv_same; [exact Halb1|done..].
      * destruct Hfile1 as (old&new&Hfl&Hold&Hplain&Hids&Hnew).
        assert (Hfile0 : file_inv guess_type args fs uploads_dir db0 paths (conn c1)).
        { eapply file_inv_mono; eauto. }
        eapply file_inv_insert; [exact Hfile0|exact Eins|].
        exists p. split; [by apply list_elem_of_singleton|].
        simpl. do 8 (split; [done|]). exists ap. done.
    + split; [|done]. eapply album_inv_same; [exact Halb1|done..].
Qed.

Lemma walk_rows rest :
  forall paths s s',
    album_inv (Args.public_albums args) (albums db0) (ctx s) ->
    file_inv guess_type args fs uploads_dir db0 paths (conn (ctx s)) ->
    walk uuid4_at now_at guess_type args fs uploads_dir existing_files s rest
    = Done s' ->
    album_inv (Args.public_albums args) (albums db0) (ctx s') /\ file_inv guess_type args fs uploads_dir db0 (paths ++ rest) (conn (ctx s')).
Proof using live_run snapshot_ids.
  induction rest as [|p rest IH]; intros paths s s' Halb Hfile; simpl.
  - intros [= <-]. by rewrite app_nil_r.
  - destruct (process_file _ _ _ _ _ _ _ s p) as [s1| |] eqn:E1; simpl;
      try done.
    intros H.
    destruct (process_file_rows _ _ _ _ Halb Hfile E1) as [Halb1 Hfile1].
    destruct (IH _ _ _ Halb1 Hfile1 H) as [Halb2 Hfile2].
    split; [done|]. by rewrite <- app_assoc in Hfile2.
Qed.

End Rows.

Section Written.
Variable uuid4_at : nat -> string.
Variable now_at : nat -> string.
Variable guess_type : string -> option string.

(** The store a run leaves: the one it found, or the one its walk ended
    with when a live run exits with status 0. *)
Lemma recover_store args fs db0 seed r :
  recover uuid4_at now_at guess_type args fs db0 seed = Done r ->
  store r = db0
  \/ (Args.dry_run args = false
      /\ exit_status r = 0%Z
      /\ exists s,
           walk uuid4_at now_at guess_type args fs (uploads_dir_of args fs)
             (initial_state args db0 seed).2 (initial_state args db0 seed).1
             (iter_files fs (scan_root_of args fs) (Args.include_hidden args))
           = Done s
           /\ store r = conn (ctx s)).
Proof.
  unfold recover.
  destruct (negb (subdir_check args fs)); [intros [= <-]; by left|].
  destruct (negb (is_dir fs (uploads_dir_of args fs)));
    [intros [= <-]; by left|].
  destruct (negb (is_dir fs (scan_root_of args fs)));
    [intros [= <-]; by left|].
  assert (Hf := initial_state_fields args db0 seed).
  destruct (initial_state args db0 seed) as [s0 existing_files].
  simpl in Hf |- *. destruct Hf as (Hconn&Hdry&_).
  destruct (walk _ _ _ _ _ _ _ s0 _) as [s| |] eqn:Ew;
    [|intros [= <-]; by left|done].
  intros [= <-]. simpl. destruct (Args.dry_run args) eqn:Ed.
  - left. apply walk_steps in Ew; [|congruence].
    rewrite <- Hconn. by apply (steps_preview_conn _ _ _ _ Ew).
  - right. split; [done|]. split; [done|]. by exists s.
Qed.

Lemma initial_album_inv args db0 seed :
  Args.dry_run args = false ->
  album_inv (Args.public_albums args) (albums db0)
            (ctx (initial_state args db0 seed).1).
Proof.
  intros Hd.
  assert (Hf := initial_state_fields args db0 seed). cbv zeta in Hf.
  destruct Hf as (Hconn&Hdry&_).
  constructor.
  - congruence.
  - by rewrite initial_state_eq.
  - intros p i H. rewrite Hconn. by apply loaded_cache_value in H.
  - exists []. rewrite Hconn. split; [by rewrite app_nil_r|constructor].
Qed.

Lemma initial_file_inv args fs uploads_dir db0 :
  file_inv guess_type args fs uploads_dir db0 [] db0.
Proof.
  exists (files db0), []. split; [by rewrite app_nil_r|].
  split; [apply Forall2_same_item_refl|]. split; [done|].
  split; constructor.
Qed.

Lemma initial_snapshot_ids args db0 seed k e :
  (initial_state args db0 seed).2 !! k = Some e ->
  ExistingFileRow.id e ∈ List.map f_id (files db0).
Proof.
  rewrite initial_state_eq. simpl.
  intros (r&(l1&l2&Hl&_)&->)%loaded_existing_files. simpl.
  rewrite Hl, map_app. apply elem_of_app. right. simpl.
  apply elem_of_cons. by left.
Qed.

Lemma recover_rows args fs db0 seed r :
  recover uuid4_at now_at guess_type args fs db0 seed = Done r ->
  (exists new,
     albums (store r) = (albums db0 ++ new)%list
     /\ Forall (built_album (Args.public_albums args) (albums (store r))) new
     /\ (Args.dry_run args = true \/ exit_status r <> 0%Z -> new = []))
  /\ file_inv guess_type args fs (uploads_dir_of args fs) db0
       (iter_files fs (scan_root_of args fs) (Args.include_hidden args))
       (store r).
Proof.
  intros Hr.
  assert (Hsame : store r = db0 ->
            (exists new,
               albums (store r) = (albums db0 ++ new)%list
               /\ Forall (built_album (Args.public_albums args)
                            (albums (store r))) new
               /\ (Args.dry_run args = true \/ exit_status r <> 0%Z ->
                   new = []))
            /\ file_inv guess_type args fs (uploads_dir_of args fs) db0
                 (iter_files fs (scan_root_of args fs)
                    (Args.include_hidden args)) (store r)).
  { intros ->. split.
    - exists []. split; [by rewrite app_nil_r|]. split; [constructor|done].
    - eapply file_inv_mono; [apply initial_file_inv|done|done|].
      by intros p ?%elem_of_nil. }
  destruct (recover_store _ _ _ _ _ Hr) as [E|(Hd&Hex&s&Hw&->)]; [auto|].
  destruct (walk_rows uuid4_at now_at guess_type args fs
              (uploads_dir_of args fs) db0 (initial_state args db0 seed).2
              Hd (initial_snapshot_ids args db0 seed) _ [] _ _
              (initial_album_inv args db0 seed Hd)
              ltac:(rewrite (proj1 (initial_state_fields args db0 seed));
                    apply initial_file_inv)
              Hw) as [Halb Hfile].
  split; [|exact Hfile].
  destruct (ai_rows _ _ _ Halb) as (new&Hrows&Hnew).
  exists new. split; [done|]. split; [done|].
  intros [?|?]; congruence.
Qed.

(** X13.  The album rows of the store after a run are those it held
    before, unchanged and in the same order, followed by the rows the run
    created.  Each created row sits directly under the album of its parent
    path: its path is the parent path, a slash and its name, and its
    [parent_id] is the identifier of a stored row at the parent path, or
    none at the top level.  It has no password and no cover, carries the
    visibility the run was asked for, and its slug begins with the slug of
    its name.  A preview and a run that fails create nothing. *)
Theorem recover_builds_hierarchy (args : Args.t) (fs : FileSystem)
    (db0 : Conn) (seed : nat * nat) :
  exists r new,
    recover uuid4_at now_at guess_type args fs db0 seed = Done r
    /\ albums (store r) = (albums db0 ++ new)%list
    /\ Forall (built_album (Args.public_albums args) (albums (store r))) new
    /\ (Args.dry_run args = true \/ exit_status r <> 0%Z -> new = []).
Proof.
  destruct (recover_total uuid4_at now_at guess_type args fs db0 seed)
    as [r Hr].
  destruct (recover_rows _ _ _ _ _ Hr) as [(new&H1&H2&H3) _].
  by exists r, new.
Qed.

(** X14.  The file rows of the store after a run are the rows it held
    before, in the same order and with the same identifier, key,
    dimensions, creation time and annotations (and, without
    [--repair-existing], unchanged altogether), followed by the rows the
    run inserted.  Each inserted row is that of an image of the walk: its
    key is the key of the file, its name, size and MIME type are the
    file's, its annotations are empty, and its container is the stored
    album at the normal form of the decided path, or none when no
    container is decided. *)
Theorem recover_file_rows (args : Args.t) (fs : FileSystem) (db0 : Conn)
    (seed : nat * nat) :
  exists r old new,
    recover uuid4_at now_at guess_type args fs db0 seed = Done r
    /\ files (store r) = (old ++ new)%list
    /\ Forall2 same_item (files db0) old
    /\ (Args.repair_existing args = false -> old = files db0)
    /\ Forall (inserted_row guess_type fs (uploads_dir_of args fs)
                 (Args.album_mode args) (albums (store r))
                 (iter_files fs (scan_root_of args fs)
                    (Args.include_hidden args)))
              new.
Proof.
  destruct (recover_total uuid4_at now_at guess_type args fs db0 seed)
    as [r Hr].
  destruct (recover_rows _ _ _ _ _ Hr) as [_ (old&new&H1&H2&H3&_&H5)].
  by exists r, old, new.
Qed.

End Written.

(** ** Further scenarios *)

Lemma repair_converges_witness :
  stat_size sample_fs beach_path = Some 2048%Z
  /\ is_image_file sample_guess_type beach_path = true
  /\ f_size repaired_photo = 2048%Z
  /\ repair_existing_file sample_now sample_guess_type sample_fs sample_ctx
       (snapshot_of repaired_photo) beach_path "vacation/beach.jpg"
       (Some "a-1")
     = Done (sample_ctx, false).
Proof.
  split; [reflexivity|]. split; [reflexivity|]. split; [reflexivity|].
  apply (repair_converges sample_now sample_guess_type sample_fs sample_ctx
           (snapshot_of annotated_row) beach_path "vacation/beach.jpg"
           (Some "a-1") 2048 "2024-05-01T10:00:00+00:00" annotated_row).
  - reflexivity.
  - reflexivity.
  - discriminate.
  - intros a [= <-] _. unfold sample_ctx; simpl.
    by apply elem_of_singleton.
Defined.

Lemma ensure_album_chain_normalized_witness :
  path_segments "//Trips///Rome/" = ["Trips"; "Rome"]
  /\ normalize_album_path "//Trips///Rome/" = "/Trips/Rome"
  /\ ensure_album_chain sample_uuid sample_now empty_ctx
       (normalize_album_path "//Trips///Rome/")
     = ensure_album_chain sample_uuid sample_now empty_ctx "//Trips///Rome/".
Proof.
  split; [reflexivity|]. split; [reflexivity|].
  apply (ensure_album_chain_normalized sample_uuid sample_now empty_ctx
           "//Trips///Rome/").
  vm_compute. discriminate.
Defined.

Lemma rel_key_round_trip_witness :
  exists key,
    normalize_rel_key
      (PurePath.Build "/" ["srv"; "uploads"; "Trips"; "Rome"; "b.jpg"])
      uploads_path = Done key
    /\ PurePath.joinpath uploads_path key
       = PurePath.Build "/" ["srv"; "uploads"; "Trips"; "Rome"; "b.jpg"]
    /\ forall p',
         p' ∈ iter_files trips_fs uploads_path false ->
         normalize_rel_key p' uploads_path = Done key ->
         p' = PurePath.Build "/" ["srv"; "uploads"; "Trips"; "Rome"; "b.jpg"].
Proof.
  destruct (lookup_node (tree trips_fs) (PurePath.parts uploads_path))
    as [n|] eqn:En; [|exfalso; revert En; vm_compute; discriminate].
  apply (rel_key_round_trip trips_fs uploads_path false n
           (PurePath.Build "/" ["srv"; "uploads"; "Trips"; "Rome"; "b.jpg"])).
  - exact En.
  - revert En. vm_compute. intros [= <-]. cbn.
    repeat split; try discriminate; repeat (constructor; try discriminate).
  - apply list_elem_of_In. vm_compute. tauto.
Defined.


(** ** What a successful live run has cataloged *)


